(** * Dance Practice Video Looper: a shallow embedding of the timeline and
      loop controller

    The development follows the three source units of the repository:
    [utils/formatTime], [components/Timeline] and [components/VideoPlayer]
    (with the [App] shell that mounts it), plus the rename handler of
    [components/StepsSidebar].

    Conventions.
    - A JavaScript number is a value of [num]: NaN, the two infinities, or a
      finite value carried as a rational.  Comparisons, [Math.min],
      [Math.max], [Math.floor] and [%] are exact in binary64 and are exact
      here.  Products and quotients come in two forms: [fmul] and [fdiv]
      round the exact result to the nearest binary64 value, ties to even,
      with overflow to infinity ([round64]); [formatTime], whose text
      depends on the rounding, uses them, as [String] uses the shortest
      numeral that rounds back to the value.  [mul], [div] and [sub] are
      the exact operations; [getSeekTime] is written with them, so the time
      it returns is the exact value of its expression, from which the value
      computed in binary64 differs by rounding.  The sign of zero is not
      represented.
    - React state is a record; an event handler is a function from the
      committed state to the next one, and the effects whose dependency list
      changed are run after it ([commit]).
    - The [<video>] element is a record holding the fields the handlers read
      and write, with the list of seek requests it has received. *)

From Stdlib Require Import ZArith QArith Qround Qpower Lqa.
From Stdlib Require Import String Ascii List Bool Lia.
From Stdlib Require Import DecimalString DecimalNat.
From Stdlib Require DecimalPos Qcanon.
From Stdlib Require PrimFloat FloatOps SpecFloat.
Import ListNotations.

Open Scope string_scope.

(* ================================================================== *)
(** * JavaScript numbers *)
(* ================================================================== *)

Module JS.

Inductive num : Type :=
| NaN
| PInf
| NInf
| Fin (q : Q).

Definition isNaN (a : num) : bool :=
  match a with NaN => true | _ => false end.

Definition isFinite (a : num) : bool :=
  match a with Fin _ => true | _ => false end.

Definition Qltb (x y : Q) : bool :=
  match (x ?= y)%Q with Lt => true | _ => false end.

Definition Qeqb (x y : Q) : bool :=
  match (x ?= y)%Q with Eq => true | _ => false end.

(** [a < b]; false as soon as one side is NaN. *)
Definition ltb (a b : num) : bool :=
  match a, b with
  | NaN, _ | _, NaN => false
  | NInf, NInf => false
  | NInf, _ => true
  | _, NInf => false
  | PInf, _ => false
  | Fin _, PInf => true
  | Fin x, Fin y => Qltb x y
  end.

(** [a === b] on numbers. *)
Definition eqb (a b : num) : bool :=
  match a, b with
  | PInf, PInf | NInf, NInf => true
  | Fin x, Fin y => Qeqb x y
  | _, _ => false
  end.

(** [a > b], [a <= b], [a >= b]. *)
Definition gtb (a b : num) : bool := ltb b a.
Definition leb (a b : num) : bool := ltb a b || eqb a b.
Definition geb (a b : num) : bool := ltb b a || eqb a b.

(** [Object.is] on numbers, the comparison React applies to the entries of a
    dependency list: like [===] except that NaN is the same as NaN. *)
Definition same (a b : num) : bool :=
  match a, b with
  | NaN, NaN => true
  | _, _ => eqb a b
  end.

Definition Math_min (a b : num) : num :=
  match a, b with
  | NaN, _ | _, NaN => NaN
  | _, _ => if ltb b a then b else a
  end.

Definition Math_max (a b : num) : num :=
  match a, b with
  | NaN, _ | _, NaN => NaN
  | _, _ => if ltb a b then b else a
  end.

Definition Math_floor (a : num) : num :=
  match a with
  | Fin q => Fin (inject_Z (Qfloor q))
  | _ => a
  end.

Definition Qsign (x : Q) : comparison := (x ?= 0)%Q.

(** The exact product, difference and quotient. *)
Definition mul (a b : num) : num :=
  match a, b with
  | NaN, _ | _, NaN => NaN
  | Fin x, Fin y => Fin (Qred (x * y))
  | Fin x, PInf | PInf, Fin x =>
      match Qsign x with Eq => NaN | Gt => PInf | Lt => NInf end
  | Fin x, NInf | NInf, Fin x =>
      match Qsign x with Eq => NaN | Gt => NInf | Lt => PInf end
  | PInf, PInf | NInf, NInf => PInf
  | PInf, NInf | NInf, PInf => NInf
  end.

Definition sub (a b : num) : num :=
  match a, b with
  | NaN, _ | _, NaN => NaN
  | Fin x, Fin y => Fin (Qred (x - y))
  | PInf, PInf | NInf, NInf => NaN
  | PInf, _ | _, NInf => PInf
  | NInf, _ | _, PInf => NInf
  end.

(** Division.  A zero divisor is taken to be [+0] (the divisors of this
    program are the literal 60 and the width of a bounding rectangle). *)
Definition div (a b : num) : num :=
  match a, b with
  | NaN, _ | _, NaN => NaN
  | Fin x, Fin y =>
      match Qsign y with
      | Eq => match Qsign x with Eq => NaN | Gt => PInf | Lt => NInf end
      | _ => Fin (Qred (x / y))
      end
  | Fin _, _ => Fin 0
  | PInf, Fin y => match Qsign y with Lt => NInf | _ => PInf end
  | NInf, Fin y => match Qsign y with Lt => PInf | _ => NInf end
  | _, _ => NaN
  end.

(** Integer part, rounding toward zero. *)
Definition Qtrunc (x : Q) : Z := Z.quot (Qnum x) (Zpos (Qden x)).

(** [a % b]: the remainder has the sign of the dividend. *)
Definition rem (a b : num) : num :=
  match a, b with
  | Fin x, Fin y =>
      match Qsign y with
      | Eq => NaN
      | _ => Fin (Qred (x - y * inject_Z (Qtrunc (x / y))))
      end
  | Fin x, PInf | Fin x, NInf => Fin x
  | _, _ => NaN
  end.

(** ** Binary64 rounding *)

Definition neg (a : num) : num :=
  match a with
  | NaN => NaN
  | PInf => NInf
  | NInf => PInf
  | Fin q => Fin (Qred (- q))
  end.

Definition pow2 (e : Z) : Q := (2 ^ e)%Q.
Definition pow10 (e : Z) : Q := (10 ^ e)%Q.

(** For [x > 0], the exponent [e] with [2^e <= x < 2^(e+1)]. *)
Definition ilog2 (x : Q) : Z :=
  let e := (Z.log2 (Qnum x) - Z.log2 (Zpos (Qden x)))%Z in
  if Qle_bool (pow2 e) x then e else (e - 1)%Z.

(** The nearest integer, ties to even. *)
Definition roundHalfEven (r : Q) : Z :=
  let f := Qfloor r in
  match (r - inject_Z f ?= 1 # 2)%Q with
  | Lt => f
  | Gt => (f + 1)%Z
  | Eq => if Z.even f then f else (f + 1)%Z
  end.

(** The binary64 value nearest to [a > 0]: a significand of 53 bits at the
    exponent of [a], or at the least exponent -1074 for a subnormal
    result; infinity from 2^1024 on. *)
Definition round64_pos (a : Q) : num :=
  let e := ilog2 a in
  let q := Z.max (e - 52) (-1074) in
  let m := roundHalfEven (a / pow2 q) in
  let y := (inject_Z m * pow2 q)%Q in
  if Qle_bool (pow2 1024) y then PInf else Fin (Qred y).

Definition round64 (x : Q) : num :=
  match Qsign x with
  | Eq => Fin 0
  | Gt => round64_pos x
  | Lt => neg (round64_pos (- x))
  end.

(** The Number value of a decimal literal such as [125.4]. *)
Definition literal (q : Q) : num := round64 q.

(** [a * b] and [a / b] in binary64. *)
Definition fmul (a b : num) : num :=
  match mul a b with
  | Fin x => round64 x
  | r => r
  end.

Definition fdiv (a b : num) : num :=
  match div a b with
  | Fin x => round64 x
  | r => r
  end.

(** *** Comparison with the processor

    Rocq's primitive floats are the binary64 numbers of the machine.  A
    value is carried over by its significand and exponent, and back. *)

Definition ofFloat (f : PrimFloat.float) : num :=
  match FloatOps.Prim2SF f with
  | SpecFloat.S754_zero _ => Fin 0
  | SpecFloat.S754_infinity false => PInf
  | SpecFloat.S754_infinity true => NInf
  | SpecFloat.S754_nan => NaN
  | SpecFloat.S754_finite s m e =>
      Fin (Qred ((if s then -1 else 1) * inject_Z (Zpos m) * pow2 e))
  end.

(** The float for a binary64 value [a]. *)
Definition toFloat (a : Q) : PrimFloat.float :=
  match Qsign a with
  | Eq => FloatOps.SF2Prim (SpecFloat.S754_zero false)
  | Gt =>
      let q := Z.max (ilog2 a - 52) (-1074) in
      FloatOps.SF2Prim
        (SpecFloat.S754_finite false (Z.to_pos (Qfloor (a / pow2 q))) q)
  | Lt =>
      let q := Z.max (ilog2 (- a) - 52) (-1074) in
      FloatOps.SF2Prim
        (SpecFloat.S754_finite true (Z.to_pos (Qfloor (- a / pow2 q))) q)
  end.

(** Whether [fmul] and [fdiv] give on [a] and [b] what the processor
    gives. *)
Definition agree (a b : Q) : bool :=
  same (ofFloat (toFloat a)) (Fin a)
  && same (ofFloat (PrimFloat.mul (toFloat a) (toFloat b)))
       (fmul (Fin a) (Fin b))
  && same (ofFloat (PrimFloat.div (toFloat a) (toFloat b)))
       (fdiv (Fin a) (Fin b)).

(** Binary64 values of many magnitudes, subnormal ones included. *)
Definition samples : list Q :=
  map (fun q => match round64 q with Fin y => y | _ => 0 end)
    [3 # 100; 100; 29 # 100; 1254 # 10; 60; inject_Z (6 * 10 ^ 22);
     1 # 3; inject_Z (10 ^ 308); pow10 (-320); - (123456789 # 1000)].

(** ** Number to string *)

(** The decimal numeral of an integer. *)
Definition decimal (z : Z) : string := NilZero.string_of_int (Z.to_int z).

(** For [x > 0], the decimal exponent [n] with [10^(n-1) <= x < 10^n],
    found by stepping from 1: [p] is [10^n] on the way up and [10^(n-1)]
    on the way down. *)
Fixpoint scanUp (fuel : nat) (n : Z) (p x : Q) : Z :=
  match fuel with
  | O => n
  | S f => if Qltb x p then n else scanUp f (n + 1) (p * 10) x
  end.

Fixpoint scanDown (fuel : nat) (n : Z) (p x : Q) : Z :=
  match fuel with
  | O => n
  | S f => if Qle_bool p x then n else scanDown f (n - 1) (p / 10) x
  end.

Definition exponent10 (x : Q) : Z :=
  if Qle_bool 1 x then scanUp 310 1 10 x else scanDown 330 0 (1 # 10) x.

(** The numerals of [k] digits next to [x]: the integers [s] around
    [x / 10^(n0-k)].  One that rounds to [x] is returned with its decimal
    exponent, the nearer one if both do, the even one on a tie. *)
Definition candidate (x : Q) (n0 k : Z) : option (Z * Z) :=
  let ulp := pow10 (n0 - k) in
  let lo := Qfloor (x / ulp) in
  let hi := (lo + 1)%Z in
  let okLo := eqb (round64 (inject_Z lo * ulp)) (Fin x) in
  let okHi := eqb (round64 (inject_Z hi * ulp)) (Fin x) in
  let pick (s : Z) :=
    if (s =? 10 ^ k)%Z then Some ((10 ^ (k - 1))%Z, (n0 + 1)%Z)
    else Some (s, n0) in
  match okLo, okHi with
  | false, false => None
  | true, false => pick lo
  | false, true => pick hi
  | true, true =>
      match (x - inject_Z lo * ulp ?= inject_Z hi * ulp - x)%Q with
      | Lt => pick lo
      | Gt => pick hi
      | Eq => if Z.even lo then pick lo else pick hi
      end
  end.

(** The least number of digits [k], from [k] on, for which such a numeral
    exists, with the numeral: [(s, k, n)] stands for [s * 10^(n-k)]. *)
Fixpoint shortest (fuel : nat) (k : Z) (x : Q) (n0 : Z)
  : option (Z * Z * Z) :=
  match fuel with
  | O => None
  | S f =>
      match candidate x n0 k with
      | Some (s, n) => Some (s, k, n)
      | None => shortest f (k + 1) x n0
      end
  end.

Fixpoint zeros (n : nat) : string :=
  match n with
  | O => ""
  | S k => String "0" (zeros k)
  end.

Fixpoint take (n : nat) (s : string) : string :=
  match n, s with
  | S k, String c r => String c (take k r)
  | _, _ => ""
  end.

Fixpoint drop (n : nat) (s : string) : string :=
  match n, s with
  | S k, String c r => drop k r
  | _, _ => s
  end.

(** The text of the numeral [s * 10^(n-k)], [s] having [k] digits: plain
    digits, a decimal point, leading zeros, or exponent notation when [n]
    is outside -5..21. *)
Definition formatDigits (s k n : Z) : string :=
  let ds := decimal s in
  if ((-5 <=? n) && (n <=? 21))%Z then
    if (k <=? n)%Z then ds ++ zeros (Z.to_nat (n - k))
    else if (0 <? n)%Z
         then take (Z.to_nat n) ds ++ "." ++ drop (Z.to_nat n) ds
         else "0." ++ zeros (Z.to_nat (- n)) ++ ds
  else
    let e := (n - 1)%Z in
    let sign := if (e <? 0)%Z then "-" else "+" in
    (if (k =? 1)%Z then ds else take 1 ds ++ "." ++ drop 1 ds)
    ++ "e" ++ sign ++ decimal (Z.abs e).

(** Seventeen digits are enough for every binary64 value; the search runs
    to 21, the longest numeral written without an exponent. *)
Definition toStringPos (x : Q) : string :=
  match shortest 21 1 x (exponent10 x) with
  | Some (s, k, n) => formatDigits s k n
  | None => ""
  end.

(** [String(a)]: Number::toString of ECMAScript, for the binary64 value
    [a] denotes. *)
Definition String_ (a : num) : string :=
  match a with
  | NaN => "NaN"
  | PInf => "Infinity"
  | NInf => "-Infinity"
  | Fin q =>
      match round64 q with
      | Fin y =>
          match Qsign y with
          | Eq => "0"
          | Gt => toStringPos y
          | Lt => "-" ++ toStringPos (- y)
          end
      | PInf => "Infinity"
      | NInf => "-Infinity"
      | NaN => "NaN"
      end
  end.

(** [String(n)] for a non-negative integer such as an array length. *)
Definition natToString (n : nat) : string :=
  NilZero.string_of_uint (Nat.to_uint n).

(** Truthiness of a string: every string but the empty one. *)
Definition truthy (s : string) : bool :=
  match s with EmptyString => false | String _ _ => true end.

(** ** Text

    A string holds the UTF-8 encoding of the text, one byte per character.
    [String.prototype.trim] removes, from both ends, the code points of
    WhiteSpace and LineTerminator: U+0009 to U+000D, U+0020, U+00A0, U+1680,
    U+2000 to U+200A, U+2028, U+2029, U+202F, U+205F, U+3000 and U+FEFF.
    The first six are encoded in one byte, U+00A0 in two, the others in
    three. *)
Definition isWhiteSpace1 (c : ascii) : bool :=
  let n := nat_of_ascii c in
  ((9 <=? n) && (n <=? 13) || (n =? 32))%nat.

Definition isWhiteSpace2 (c1 c2 : ascii) : bool :=
  ((nat_of_ascii c1 =? 194) && (nat_of_ascii c2 =? 160))%nat.

Definition isWhiteSpace3 (c1 c2 c3 : ascii) : bool :=
  let n1 := nat_of_ascii c1 in
  let n2 := nat_of_ascii c2 in
  let n3 := nat_of_ascii c3 in
  ((n1 =? 225) && (n2 =? 154) && (n3 =? 128)
   || (n1 =? 226) && (n2 =? 128)
      && ((128 <=? n3) && (n3 <=? 138) || (n3 =? 168) || (n3 =? 169)
          || (n3 =? 175))
   || (n1 =? 226) && (n2 =? 129) && (n3 =? 159)
   || (n1 =? 227) && (n2 =? 128) && (n3 =? 128)
   || (n1 =? 239) && (n2 =? 187) && (n3 =? 191))%nat.

Fixpoint trimStart (s : string) : string :=
  match s with
  | EmptyString => EmptyString
  | String c1 r1 =>
      if isWhiteSpace1 c1 then trimStart r1
      else
        match r1 with
        | EmptyString => s
        | String c2 r2 =>
            if isWhiteSpace2 c1 c2 then trimStart r2
            else
              match r2 with
              | EmptyString => s
              | String c3 r3 =>
                  if isWhiteSpace3 c1 c2 c3 then trimStart r3 else s
              end
        end
  end.

Fixpoint reverseOnto (s acc : string) : string :=
  match s with
  | EmptyString => acc
  | String c r => reverseOnto r (String c acc)
  end.

Definition reverse (s : string) : string := reverseOnto s EmptyString.

(** [trimStart] on a text read from its last byte. *)
Fixpoint trimReversed (s : string) : string :=
  match s with
  | EmptyString => EmptyString
  | String c1 r1 =>
      if isWhiteSpace1 c1 then trimReversed r1
      else
        match r1 with
        | EmptyString => s
        | String c2 r2 =>
            if isWhiteSpace2 c2 c1 then trimReversed r2
            else
              match r2 with
              | EmptyString => s
              | String c3 r3 =>
                  if isWhiteSpace3 c3 c2 c1 then trimReversed r3 else s
              end
        end
  end.

Definition trimEnd (s : string) : string :=
  reverse (trimReversed (reverse s)).

Definition trim (s : string) : string := trimEnd (trimStart s).

Fixpoint replicate (n : nat) (c : ascii) : string :=
  match n with
  | O => EmptyString
  | S k => String c (replicate k c)
  end.

(** [s.padStart(targetLength, c)] for a one-character filler. *)
Definition padStart (targetLength : nat) (c : ascii) (s : string) : string :=
  replicate (targetLength - String.length s) c ++ s.

End JS.

Import JS.

(* ================================================================== *)
(** * utils/formatTime *)
(* ================================================================== *)

Definition formatTime (timeInSeconds : num) : string :=
  if isNaN timeInSeconds || ltb timeInSeconds (Fin 0) then "00:00.00"
  else
    let minutes := Math_floor (fdiv timeInSeconds (Fin 60)) in
    let seconds := Math_floor (rem timeInSeconds (Fin 60)) in
    let centiseconds :=
      Math_floor (rem (fmul timeInSeconds (Fin 100)) (Fin 100)) in
    let formattedMinutes := padStart 2 "0" (String_ minutes) in
    let formattedSeconds := padStart 2 "0" (String_ seconds) in
    let formattedCentiseconds := padStart 2 "0" (String_ centiseconds) in
    formattedMinutes ++ ":" ++ formattedSeconds ++ "." ++ formattedCentiseconds.

(** ** The rendering in the words of the specification: [MM:SS.CC] *)

Definition digit (z : Z) : ascii := ascii_of_nat (48 + Z.to_nat z).

(** A value below one hundred written with exactly two decimal digits. *)
Definition twoDigits (z : Z) : string :=
  String (digit (z / 10)) (String (digit (z mod 10)) EmptyString).

(* ================================================================== *)
(** * DOM values read by the handlers *)
(* ================================================================== *)

(** The part of a [MouseEvent] the timeline reads. *)
Record MouseEvent : Type := { clientX : Q }.

(** The part of [getBoundingClientRect()] the timeline reads. *)
Record DOMRect : Type := { left : Q; width : Q }.

(** The [<video>] element.  [seeking] is the element's attribute of that
    name; [seekRequests] records, oldest first, every value assigned to
    [currentTime] by the program. *)
Record HTMLVideoElement : Type := {
  v_src : string;
  v_currentTime : num;
  v_duration : num;
  v_paused : bool;
  v_playbackRate : num;
  v_seeking : bool;
  seekRequests : list num
}.

(** A freshly created element. *)
Definition newVideoElement : HTMLVideoElement :=
  {| v_src := ""; v_currentTime := Fin 0; v_duration := NaN;
     v_paused := true; v_playbackRate := Fin 1; v_seeking := false;
     seekRequests := [] |}.

Definition set_v_src (x : string) (v : HTMLVideoElement) :=
  {| v_src := x; v_currentTime := v_currentTime v; v_duration := v_duration v;
     v_paused := v_paused v; v_playbackRate := v_playbackRate v;
     v_seeking := v_seeking v; seekRequests := seekRequests v |}.

Definition set_v_duration (x : num) (v : HTMLVideoElement) :=
  {| v_src := v_src v; v_currentTime := v_currentTime v; v_duration := x;
     v_paused := v_paused v; v_playbackRate := v_playbackRate v;
     v_seeking := v_seeking v; seekRequests := seekRequests v |}.

Definition set_v_paused (x : bool) (v : HTMLVideoElement) :=
  {| v_src := v_src v; v_currentTime := v_currentTime v;
     v_duration := v_duration v; v_paused := x;
     v_playbackRate := v_playbackRate v; v_seeking := v_seeking v;
     seekRequests := seekRequests v |}.

Definition set_v_playbackRate (x : num) (v : HTMLVideoElement) :=
  {| v_src := v_src v; v_currentTime := v_currentTime v;
     v_duration := v_duration v; v_paused := v_paused v;
     v_playbackRate := x; v_seeking := v_seeking v;
     seekRequests := seekRequests v |}.

(** [video.currentTime = t].  The attribute is a WebIDL [double]: a value
    that is not finite makes the assignment throw, which is [None] here.
    Otherwise the element takes [t] as its position at once and starts a
    seek. *)
Definition assign_currentTime (t : num) (v : HTMLVideoElement)
  : option HTMLVideoElement :=
  if isFinite t then
    Some {| v_src := v_src v; v_currentTime := t; v_duration := v_duration v;
            v_paused := v_paused v; v_playbackRate := v_playbackRate v;
            v_seeking := true; seekRequests := seekRequests v ++ [t] |}
  else None.

(** Modelled from the spec: the playback engine, which is outside the
    repository.  It reports positions at its own cadence; a report made
    while a seek requested by the program is still in flight predates that
    seek and leaves the element's position at the seek target.  [seeked] is
    the moment the seek takes effect. *)
Definition engine_report (p : num) (v : HTMLVideoElement) : HTMLVideoElement :=
  if v_seeking v then v
  else {| v_src := v_src v; v_currentTime := p; v_duration := v_duration v;
          v_paused := v_paused v; v_playbackRate := v_playbackRate v;
          v_seeking := false; seekRequests := seekRequests v |}.

Definition engine_seeked (v : HTMLVideoElement) : HTMLVideoElement :=
  {| v_src := v_src v; v_currentTime := v_currentTime v;
     v_duration := v_duration v; v_paused := v_paused v;
     v_playbackRate := v_playbackRate v; v_seeking := false;
     seekRequests := seekRequests v |}.

(* ================================================================== *)
(** * components/VideoPlayer: state *)
(* ================================================================== *)

Record Step : Type := {
  id : string;
  name : string;
  start : num;
  end_ : num
}.

(** [Omit<Step, 'id'>], the shape of an imported record. *)
Record ImportedStep : Type := {
  i_name : string;
  i_start : num;
  i_end : num
}.

(** The three [useState] flags of the [Timeline] child. *)
Record Timeline : Type := {
  isDraggingPlayhead : bool;
  isDraggingStart : bool;
  isDraggingEnd : bool
}.

Record VideoPlayer : Type := {
  videoUrl : string;
  video : HTMLVideoElement;
  isPlaying : bool;
  currentTime : num;
  duration : num;
  playbackRate : num;
  isLooping : bool;
  loopStart : num;
  loopEnd : num;
  steps : list Step;
  activeStepId : option string;
  timeline : Timeline
}.

Definition withVideoUrl (x : string) (s : VideoPlayer) :=
  {| videoUrl := x; video := video s; isPlaying := isPlaying s;
     currentTime := currentTime s; duration := duration s;
     playbackRate := playbackRate s; isLooping := isLooping s;
     loopStart := loopStart s; loopEnd := loopEnd s; steps := steps s;
     activeStepId := activeStepId s; timeline := timeline s |}.

Definition setVideo (x : HTMLVideoElement) (s : VideoPlayer) :=
  {| videoUrl := videoUrl s; video := x; isPlaying := isPlaying s;
     currentTime := currentTime s; duration := duration s;
     playbackRate := playbackRate s; isLooping := isLooping s;
     loopStart := loopStart s; loopEnd := loopEnd s; steps := steps s;
     activeStepId := activeStepId s; timeline := timeline s |}.

Definition setIsPlaying (x : bool) (s : VideoPlayer) :=
  {| videoUrl := videoUrl s; video := video s; isPlaying := x;
     currentTime := currentTime s; duration := duration s;
     playbackRate := playbackRate s; isLooping := isLooping s;
     loopStart := loopStart s; loopEnd := loopEnd s; steps := steps s;
     activeStepId := activeStepId s; timeline := timeline s |}.

Definition setCurrentTime (x : num) (s : VideoPlayer) :=
  {| videoUrl := videoUrl s; video := video s; isPlaying := isPlaying s;
     currentTime := x; duration := duration s;
     playbackRate := playbackRate s; isLooping := isLooping s;
     loopStart := loopStart s; loopEnd := loopEnd s; steps := steps s;
     activeStepId := activeStepId s; timeline := timeline s |}.

Definition setDuration (x : num) (s : VideoPlayer) :=
  {| videoUrl := videoUrl s; video := video s; isPlaying := isPlaying s;
     currentTime := currentTime s; duration := x;
     playbackRate := playbackRate s; isLooping := isLooping s;
     loopStart := loopStart s; loopEnd := loopEnd s; steps := steps s;
     activeStepId := activeStepId s; timeline := timeline s |}.

Definition setPlaybackRate (x : num) (s : VideoPlayer) :=
  {| videoUrl := videoUrl s; video := video s; isPlaying := isPlaying s;
     currentTime := currentTime s; duration := duration s;
     playbackRate := x; isLooping := isLooping s;
     loopStart := loopStart s; loopEnd := loopEnd s; steps := steps s;
     activeStepId := activeStepId s; timeline := timeline s |}.

Definition setIsLooping (x : bool) (s : VideoPlayer) :=
  {| videoUrl := videoUrl s; video := video s; isPlaying := isPlaying s;
     currentTime := currentTime s; duration := duration s;
     playbackRate := playbackRate s; isLooping := x;
     loopStart := loopStart s; loopEnd := loopEnd s; steps := steps s;
     activeStepId := activeStepId s; timeline := timeline s |}.

Definition setLoopStart (x : num) (s : VideoPlayer) :=
  {| videoUrl := videoUrl s; video := video s; isPlaying := isPlaying s;
     currentTime := currentTime s; duration := duration s;
     playbackRate := playbackRate s; isLooping := isLooping s;
     loopStart := x; loopEnd := loopEnd s; steps := steps s;
     activeStepId := activeStepId s; timeline := timeline s |}.

Definition setLoopEnd (x : num) (s : VideoPlayer) :=
  {| videoUrl := videoUrl s; video := video s; isPlaying := isPlaying s;
     currentTime := currentTime s; duration := duration s;
     playbackRate := playbackRate s; isLooping := isLooping s;
     loopStart := loopStart s; loopEnd := x; steps := steps s;
     activeStepId := activeStepId s; timeline := timeline s |}.

Definition setSteps (x : list Step) (s : VideoPlayer) :=
  {| videoUrl := videoUrl s; video := video s; isPlaying := isPlaying s;
     currentTime := currentTime s; duration := duration s;
     playbackRate := playbackRate s; isLooping := isLooping s;
     loopStart := loopStart s; loopEnd := loopEnd s; steps := x;
     activeStepId := activeStepId s; timeline := timeline s |}.

Definition setActiveStepId (x : option string) (s : VideoPlayer) :=
  {| videoUrl := videoUrl s; video := video s; isPlaying := isPlaying s;
     currentTime := currentTime s; duration := duration s;
     playbackRate := playbackRate s; isLooping := isLooping s;
     loopStart := loopStart s; loopEnd := loopEnd s; steps := steps s;
     activeStepId := x; timeline := timeline s |}.

Definition setTimeline (x : Timeline) (s : VideoPlayer) :=
  {| videoUrl := videoUrl s; video := video s; isPlaying := isPlaying s;
     currentTime := currentTime s; duration := duration s;
     playbackRate := playbackRate s; isLooping := isLooping s;
     loopStart := loopStart s; loopEnd := loopEnd s; steps := steps s;
     activeStepId := activeStepId s; timeline := x |}.

(* ================================================================== *)
(** * components/Timeline *)
(* ================================================================== *)

(** [timelineRef] is [timelineRef.current]: [None] while the ref is unset,
    otherwise the bounding rectangle of the track at the time of the event. *)
Definition getSeekTime (timelineRef : option DOMRect) (duration : num)
  (e : MouseEvent) : num :=
  match timelineRef with
  | None => Fin 0
  | Some rect =>
      if eqb duration (Fin 0) then Fin 0
      else
        let x := sub (Fin (clientX e)) (Fin (left rect)) in
        let width := Fin (width rect) in
        let percentage :=
          Math_max (Fin 0) (Math_min (Fin 1) (div x width)) in
        mul percentage duration
  end.

Definition setIsDraggingPlayhead (x : bool) (t : Timeline) :=
  {| isDraggingPlayhead := x; isDraggingStart := isDraggingStart t;
     isDraggingEnd := isDraggingEnd t |}.

Definition setIsDraggingStart (x : bool) (t : Timeline) :=
  {| isDraggingPlayhead := isDraggingPlayhead t; isDraggingStart := x;
     isDraggingEnd := isDraggingEnd t |}.

Definition setIsDraggingEnd (x : bool) (t : Timeline) :=
  {| isDraggingPlayhead := isDraggingPlayhead t;
     isDraggingStart := isDraggingStart t; isDraggingEnd := x |}.

Definition handleMouseUp (t : Timeline) : Timeline :=
  setIsDraggingEnd false (setIsDraggingStart false
    (setIsDraggingPlayhead false t)).

(* ================================================================== *)
(** * components/VideoPlayer: handlers *)
(* ================================================================== *)

Definition initialTimeline : Timeline :=
  {| isDraggingPlayhead := false; isDraggingStart := false;
     isDraggingEnd := false |}.

(** The values given to [useState] and [useRef]. *)
Definition initialVideoPlayer (url : string) : VideoPlayer :=
  {| videoUrl := url; video := newVideoElement; isPlaying := false;
     currentTime := Fin 0; duration := Fin 0; playbackRate := Fin 1;
     isLooping := false; loopStart := Fin 0; loopEnd := Fin 0;
     steps := []; activeStepId := None; timeline := initialTimeline |}.

(** Body of the effect on [[videoUrl]] ("Reset state when video changes"). *)
Definition videoUrlEffect (s : VideoPlayer) : VideoPlayer :=
  setIsPlaying false (setCurrentTime (Fin 0) (setLoopEnd (Fin 0)
    (setLoopStart (Fin 0)
      (setVideo (set_v_src (videoUrl s) (video s)) s)))).

Definition handleLoadedMetadata (s : VideoPlayer) : VideoPlayer :=
  setLoopEnd (v_duration (video s)) (setDuration (v_duration (video s)) s).

(** A handler that assigns [video.currentTime] may throw; the statements
    after the assignment are then skipped, and the state updates queued
    before it are still committed. *)
Definition handleTimeUpdate (s : VideoPlayer) : VideoPlayer :=
  let current := v_currentTime (video s) in
  let s1 := setCurrentTime current s in
  if isLooping s && geb current (loopEnd s) then
    match assign_currentTime (loopStart s) (video s) with
    | Some v => setVideo v s1
    | None => s1
    end
  else s1.

(** Body of the effect on [[loopStart, loopEnd, activeStepId]]. *)
Definition syncActiveStep (s : VideoPlayer) : VideoPlayer :=
  match activeStepId s with
  | Some a =>
      if truthy a then
        setSteps
          (map (fun step =>
                  if String.eqb (id step) a
                  then {| id := id step; name := name step;
                          start := loopStart s; end_ := loopEnd s |}
                  else step)
               (steps s)) s
      else s
  | None => s
  end.

Definition togglePlayPause (s : VideoPlayer) : VideoPlayer :=
  if v_paused (video s)
  then setIsPlaying true (setVideo (set_v_paused false (video s)) s)
  else setIsPlaying false (setVideo (set_v_paused true (video s)) s).

(** [None] when the assignment to [video.currentTime] throws. *)
Definition handleSeek (time : num) (s : VideoPlayer) : option VideoPlayer :=
  match assign_currentTime time (video s) with
  | Some v => Some (setCurrentTime time (setVideo v s))
  | None => None
  end.

Definition handleSpeedChange (rate : num) (s : VideoPlayer) : VideoPlayer :=
  setPlaybackRate rate (setVideo (set_v_playbackRate rate (video s)) s).

Definition handleSetLoopStart (s : VideoPlayer) : VideoPlayer :=
  let time := v_currentTime (video s) in
  if ltb time (loopEnd s) then setLoopStart time s else s.

Definition handleSetLoopEnd (s : VideoPlayer) : VideoPlayer :=
  let time := v_currentTime (video s) in
  if gtb time (loopStart s) then setLoopEnd time s else s.

Definition handleReset (s : VideoPlayer) : VideoPlayer :=
  match assign_currentTime (loopStart s) (video s) with
  | Some v => setVideo v s
  | None => s
  end.

(** [iso] is the value of [new Date().toISOString()] at the call. *)
Definition handleAddStep (iso : string) (s : VideoPlayer) : VideoPlayer :=
  let newStep :=
    {| id := iso;
       name := "Step " ++ natToString (List.length (steps s) + 1);
       start := loopStart s;
       end_ := loopEnd s |} in
  setSteps (steps s ++ [newStep]) s.

Definition handlePlayStep (step : Step) (s : VideoPlayer) : VideoPlayer :=
  let s1 :=
    setIsLooping true (setLoopEnd (end_ step) (setLoopStart (start step)
      (setActiveStepId (Some (id step)) s))) in
  match handleSeek (start step) s1 with
  | Some s2 => if v_paused (video s2) then togglePlayPause s2 else s2
  | None => s1
  end.

Definition handleDeleteStep (id0 : string) (s : VideoPlayer) : VideoPlayer :=
  let s1 :=
    setSteps (filter (fun step => negb (String.eqb (id step) id0)) (steps s))
      s in
  match activeStepId s with
  | Some a =>
      if String.eqb a id0
      then setIsLooping false (setActiveStepId None s1)
      else s1
  | None => s1
  end.

Definition handleUpdateStepName (id0 name0 : string) (s : VideoPlayer)
  : VideoPlayer :=
  setSteps
    (map (fun step =>
            if String.eqb (id step) id0
            then {| id := id step; name := name0;
                    start := start step; end_ := end_ step |}
            else step)
         (steps s)) s.

(** [importedSteps.map((step, index) => ...)], from [index] on.  The
    callback evaluates [new Date().toISOString()] once for each element:
    [now index] is the string it returns in the call for the element at
    [index].  Of an imported object the record keeps the three fields the
    program reads; the spread carries any further key along untouched. *)
Fixpoint stepsWithIds (now : nat -> string) (index : nat)
  (importedSteps : list ImportedStep) : list Step :=
  match importedSteps with
  | [] => []
  | step :: rest =>
      {| id := now index ++ "-" ++ natToString index; name := i_name step;
         start := i_start step; end_ := i_end step |}
      :: stepsWithIds now (S index) rest
  end.

Definition handleLoadSteps (now : nat -> string)
  (importedSteps : list ImportedStep) (s : VideoPlayer) : VideoPlayer :=
  setSteps (stepsWithIds now 0 importedSteps) s.

(** [steps.map(({ id, ...rest }) => rest)], the records [handleSaveSteps]
    serialises. *)
Definition exportedSteps (s : VideoPlayer) : list ImportedStep :=
  map (fun step => {| i_name := name step; i_start := start step;
                      i_end := end_ step |}) (steps s).

(** ** Timeline handlers, acting through the props passed by [VideoPlayer] *)

Definition onSeek (time : num) (s : VideoPlayer) : VideoPlayer :=
  match handleSeek time s with
  | Some s' => s'
  | None => s
  end.

Definition handleTimelineClick (timelineRef : option DOMRect) (e : MouseEvent)
  (s : VideoPlayer) : VideoPlayer :=
  let time := getSeekTime timelineRef (duration s) e in
  onSeek time s.

Definition handleMouseMove (timelineRef : option DOMRect) (e : MouseEvent)
  (s : VideoPlayer) : VideoPlayer :=
  if isDraggingPlayhead (timeline s) then
    let time := getSeekTime timelineRef (duration s) e in
    onSeek time s
  else if isDraggingStart (timeline s) then
    let time := getSeekTime timelineRef (duration s) e in
    if ltb time (loopEnd s) then setLoopStart time s else s
  else if isDraggingEnd (timeline s) then
    let time := getSeekTime timelineRef (duration s) e in
    if gtb time (loopStart s) then setLoopEnd time s else s
  else s.

(* ================================================================== *)
(** * components/StepsSidebar: StepItem *)
(* ================================================================== *)

(** [handleNameBlur] of the item showing [step], whose input holds [name0].
    The result is the text the input holds afterwards and the player state:
    a blank text reverts to the stored name and calls nothing, any other text
    is passed, untrimmed, to [onUpdateName]. *)
Definition handleNameBlur (step : Step) (name0 : string) (s : VideoPlayer)
  : string * VideoPlayer :=
  if String.eqb (trim name0) "" then (name step, s)
  else (name0, handleUpdateStepName (id step) name0 s).

(* ================================================================== *)
(** * Events, rendering and effects *)
(* ================================================================== *)

Definition sameId (a b : option string) : bool :=
  match a, b with
  | None, None => true
  | Some x, Some y => String.eqb x y
  | _, _ => false
  end.

(** Whether the dependency list [[loopStart, loopEnd, activeStepId]] differs
    between two renders. *)
Definition syncDepsChanged (old new : VideoPlayer) : bool :=
  negb (same (loopStart old) (loopStart new)
        && same (loopEnd old) (loopEnd new)
        && sameId (activeStepId old) (activeStepId new)).

(** The render that follows a handler: the sync effect runs when its
    dependencies changed.  (The effect that subscribes [handleTimeUpdate]
    only re-registers the listener.) *)
Definition commit (old new : VideoPlayer) : VideoPlayer :=
  if syncDepsChanged old new then syncActiveStep new else new.

(** First render of a [VideoPlayer]: initial state, then every effect. *)
Definition mount (url : string) : VideoPlayer :=
  syncActiveStep (videoUrlEffect (initialVideoPlayer url)).

Inductive DragTarget : Type :=
| Playhead
| LoopStartHandle
| LoopEndHandle.

(** What can happen to a mounted player.  Events of the engine carry what
    the engine decided; pointer events carry the pointer and the track
    geometry at that moment; the events of a [StepItem] carry the position
    of the item in the list; an import carries the clock readings of its
    callback.  The element pausing itself at the end of the media and a
    rejected [play()] are not among the events: nothing below is stated
    about [isPlaying] along a run. *)
Inductive Event : Type :=
| EvLoadedMetadata (d : num)
| EvTimeUpdate (p : num)
| EvSeeked
| EvTogglePlayPause
| EvResetClick
| EvToggleLoop
| EvSetLoopStart
| EvSetLoopEnd
| EvSpeed (rate : num)
| EvTimelineClick (timelineRef : option DOMRect) (e : MouseEvent)
| EvMouseDown (t : DragTarget)
| EvMouseMove (timelineRef : option DOMRect) (e : MouseEvent)
| EvMouseUp
| EvAddStep (iso : string)
| EvPlayStep (n : nat)
| EvDeleteStep (n : nat)
| EvNameBlur (n : nat) (text : string)
| EvLoadSteps (now : nat -> string) (importedSteps : list ImportedStep).

Definition handle (ev : Event) (s : VideoPlayer) : VideoPlayer :=
  match ev with
  | EvLoadedMetadata d =>
      handleLoadedMetadata (setVideo (set_v_duration d (video s)) s)
  | EvTimeUpdate p =>
      handleTimeUpdate (setVideo (engine_report p (video s)) s)
  | EvSeeked => setVideo (engine_seeked (video s)) s
  | EvTogglePlayPause => togglePlayPause s
  | EvResetClick => handleReset s
  | EvToggleLoop => setIsLooping (negb (isLooping s)) s
  | EvSetLoopStart => handleSetLoopStart s
  | EvSetLoopEnd => handleSetLoopEnd s
  | EvSpeed rate => handleSpeedChange rate s
  | EvTimelineClick r e => handleTimelineClick r e s
  | EvMouseDown Playhead =>
      setTimeline (setIsDraggingPlayhead true (timeline s)) s
  | EvMouseDown LoopStartHandle =>
      setTimeline (setIsDraggingStart true (timeline s)) s
  | EvMouseDown LoopEndHandle =>
      setTimeline (setIsDraggingEnd true (timeline s)) s
  | EvMouseMove r e => handleMouseMove r e s
  | EvMouseUp => setTimeline (handleMouseUp (timeline s)) s
  | EvAddStep iso => handleAddStep iso s
  | EvPlayStep n =>
      match nth_error (steps s) n with
      | Some step => handlePlayStep step s
      | None => s
      end
  | EvDeleteStep n =>
      match nth_error (steps s) n with
      | Some step => handleDeleteStep (id step) s
      | None => s
      end
  | EvNameBlur n text =>
      match nth_error (steps s) n with
      | Some step => snd (handleNameBlur step text s)
      | None => s
      end
  | EvLoadSteps now importedSteps => handleLoadSteps now importedSteps s
  end.

Definition step (ev : Event) (s : VideoPlayer) : VideoPlayer :=
  commit s (handle ev s).

Fixpoint run (evs : list Event) (s : VideoPlayer) : VideoPlayer :=
  match evs with
  | [] => s
  | ev :: rest => run rest (step ev s)
  end.

(** The states after each event of [evs], in order. *)
Fixpoint trace (evs : list Event) (s : VideoPlayer) : list VideoPlayer :=
  match evs with
  | [] => []
  | ev :: rest => step ev s :: trace rest (step ev s)
  end.

(** ** Loop range *)

(** [0 <= a < b <= d]. *)
Definition validRange (d a b : num) : bool :=
  leb (Fin 0) a && ltb a b && leb b d.

Definition LoopInv (s : VideoPlayer) : bool :=
  validRange (duration s) (loopStart s) (loopEnd s).

(** The element's position lies within the media. *)
Definition PosInv (s : VideoPlayer) : bool :=
  leb (Fin 0) (v_currentTime (video s))
  && leb (v_currentTime (video s)) (duration s).

Definition Inv (s : VideoPlayer) : Prop :=
  LoopInv s = true /\ PosInv s = true.

(** Events as they arrive once the metadata of the source is known: the
    engine reports positions within the media, metadata does not arrive a
    second time, and the bookmark that is played stores a valid range. *)
Definition expected (s : VideoPlayer) (ev : Event) : bool :=
  match ev with
  | EvLoadedMetadata _ => false
  | EvTimeUpdate p => leb (Fin 0) p && leb p (duration s)
  | EvPlayStep n =>
      match nth_error (steps s) n with
      | Some st => validRange (duration s) (start st) (end_ st)
      | None => true
      end
  | _ => true
  end.

Fixpoint expectedRun (s : VideoPlayer) (evs : list Event) : bool :=
  match evs with
  | [] => true
  | ev :: rest => expected s ev && expectedRun (step ev s) rest
  end.

(** *** Between a source change and the metadata of the source *)

(** The range is [0, 0]. *)
Definition zeroRange (s : VideoPlayer) : bool :=
  eqb (loopStart s) (Fin 0) && eqb (loopEnd s) (Fin 0).

(** The range is [0, 0], the duration is still 0 and so is the position of
    the element. *)
Definition PreInv (s : VideoPlayer) : Prop :=
  zeroRange s = true
  /\ eqb (duration s) (Fin 0) = true
  /\ eqb (v_currentTime (video s)) (Fin 0) = true.

(** Events as they arrive before the metadata: the element has no position
    to report but 0, and the bookmark that is played stores the range
    [0, 0], the one a bookmark added in this interval stores. *)
Definition expectedBefore (s : VideoPlayer) (ev : Event) : bool :=
  match ev with
  | EvLoadedMetadata _ => false
  | EvTimeUpdate p => eqb p (Fin 0)
  | EvPlayStep n =>
      match nth_error (steps s) n with
      | Some st => eqb (start st) (Fin 0) && eqb (end_ st) (Fin 0)
      | None => true
      end
  | _ => true
  end.

Fixpoint expectedRunBefore (s : VideoPlayer) (evs : list Event) : bool :=
  match evs with
  | [] => true
  | ev :: rest => expectedBefore s ev && expectedRunBefore (step ev s) rest
  end.

(** ** Bookmarks *)

(** The range [(a, b)] written into every entry whose identity is [i]. *)
Definition mirrorRange (i : string) (a b : num) (st : Step) : Step :=
  if String.eqb (id st) i
  then {| id := id st; name := name st; start := a; end_ := b |}
  else st.

(** The name [n] written into every entry whose identity is [i]. *)
Definition renameStep (i n : string) (st : Step) : Step :=
  if String.eqb (id st) i
  then {| id := id st; name := n; start := start st; end_ := end_ st |}
  else st.

(** Events whose handlers write the step list or the active identity. *)
Definition bookmarkEvent (ev : Event) : bool :=
  match ev with
  | EvAddStep _ | EvPlayStep _ | EvDeleteStep _ | EvNameBlur _ _
  | EvLoadSteps _ _ => true
  | _ => false
  end.

(* ================================================================== *)
(** * App *)
(* ================================================================== *)

Record File : Type := { file_name : string }.

(** The two [useState] cells of [App], and the [VideoPlayer] instance React
    keeps mounted for it, if any. *)
Record App : Type := {
  app_videoUrl : option string;
  app_videoFile : option File;
  player : option VideoPlayer
}.

Definition initialApp : App :=
  {| app_videoUrl := None; app_videoFile := None; player := None |}.

(** [videoUrl && videoFile ? <VideoPlayer .../> : <upload form>].  An
    instance that stays mounted keeps its state and sees the new prop,
    which runs the effect on [[videoUrl]]; leaving the branch unmounts the
    instance and discards its state. *)
Definition render (a : App) : App :=
  {| app_videoUrl := app_videoUrl a;
     app_videoFile := app_videoFile a;
     player :=
       match app_videoUrl a, app_videoFile a with
       | Some url, Some _ =>
           if truthy url then
             match player a with
             | None => Some (mount url)
             | Some p =>
                 if String.eqb (videoUrl p) url then Some p
                 else Some (commit p (videoUrlEffect (withVideoUrl url p)))
             end
           else None
       | _, _ => None
       end |}.

(** [url] is the result of [URL.createObjectURL(file)]. *)
Definition handleFileChange (file : option File) (url : string) (a : App)
  : App :=
  match file with
  | Some f =>
      render {| app_videoUrl := Some url; app_videoFile := Some f;
                player := player a |}
  | None => a
  end.

Definition handleNewVideo (a : App) : App :=
  render {| app_videoUrl := None; app_videoFile := None;
            player := player a |}.

Inductive AppEvent : Type :=
| FileChange (file : option File) (url : string)
| NewVideo
| Player (ev : Event).

(** The condition of the conditional in [App]'s JSX. *)
Definition showsPlayer (a : App) : bool :=
  match app_videoUrl a, app_videoFile a with
  | Some url, Some _ => truthy url
  | _, _ => false
  end.

(** The file input exists only in the upload branch; the "New Video" button
    and everything else of the player only in the other branch. *)
Definition enabled (a : App) (ev : AppEvent) : bool :=
  match ev with
  | FileChange _ _ => negb (showsPlayer a)
  | _ => showsPlayer a
  end.

Definition app_step (ev : AppEvent) (a : App) : App :=
  match ev with
  | FileChange file url => handleFileChange file url a
  | NewVideo => handleNewVideo a
  | Player ev' =>
      match player a with
      | Some p =>
          {| app_videoUrl := app_videoUrl a;
             app_videoFile := app_videoFile a;
             player := Some (step ev' p) |}
      | None => a
      end
  end.

(** States of the application reached from the first render through enabled
    events. *)
Inductive reachable : App -> Prop :=
| reach_init : reachable initialApp
| reach_step a ev :
    reachable a -> enabled a ev = true -> reachable (app_step ev a).

(* ================================================================== *)
(** * Further parts of the components *)
(* ================================================================== *)

(** ** Timeline: the clamp *)

(** [Math.max(0, Math.min(1, y))] for a finite [y]. *)
Definition clampQ (y : Q) : Q :=
  if Qltb y 1 then (if Qltb 0 y then y else 0) else 1.

(** ** Text made of decimal digits *)

Definition isDigit (c : ascii) : bool :=
  ((48 <=? nat_of_ascii c) && (nat_of_ascii c <=? 57))%nat.

Fixpoint digitsOnly (s : string) : bool :=
  match s with
  | EmptyString => true
  | String c r => isDigit c && digitsOnly r
  end.

(** ** VideoPlayer: bookmarks *)

(** The bookmarks that successive adds reading the timestamps [isos] append
    to a list of [k] entries while the loop range is [(a, b)]. *)
Fixpoint addedSteps (k : nat) (a b : num) (isos : list string) : list Step :=
  match isos with
  | [] => []
  | iso :: rest =>
      {| id := iso; name := "Step " ++ natToString (k + 1);
         start := a; end_ := b |} :: addedSteps (S k) a b rest
  end.

(** ** VideoPlayer: export *)

(** [handleSaveSteps]: nothing is offered for download when the list is
    empty; otherwise the records that are serialised. *)
Definition handleSaveSteps (s : VideoPlayer) : option (list ImportedStep) :=
  if Nat.eqb (List.length (steps s)) 0 then None
  else Some (exportedSteps s).

(** ** StepsSidebar: reading a steps file *)

(** A value produced by [JSON.parse]. *)
#[local] Unset Elimination Schemes.
Inductive JSON : Type :=
| JNull
| JBool (b : bool)
| JNumber (x : num)
| JString (t : string)
| JArray (items : list JSON)
| JObject (fields : list (string * JSON)).
#[local] Set Elimination Schemes.

Definition hasKey (k : string) (fields : list (string * JSON)) : bool :=
  existsb (fun kv => String.eqb (fst kv) k) fields.

(** ['name' in item && 'start' in item && 'end' in item].  The operator
    [in] throws on a value that is not an object, which is [None]; an array
    is an object without any of the three keys. *)
Definition hasFields (item : JSON) : option bool :=
  match item with
  | JObject fields =>
      Some (hasKey "name" fields && hasKey "start" fields
            && hasKey "end" fields)
  | JArray _ => Some false
  | _ => None
  end.

(** [data.every(item => ...)]: stops at the first item that fails, and is
    [None] when the callback throws. *)
Fixpoint every (data : list JSON) : option bool :=
  match data with
  | [] => Some true
  | item :: rest =>
      match hasFields item with
      | Some true => every rest
      | Some false => Some false
      | None => None
      end
  end.

(** An item the validation lets through: an object with the three keys,
    whatever their values. *)
Definition acceptable (item : JSON) : Prop :=
  exists fields,
    item = JObject fields
    /\ hasKey "name" fields = true
    /\ hasKey "start" fields = true
    /\ hasKey "end" fields = true.

(** What [reader.onload] ends in. *)
Inductive LoadOutcome : Type :=
| onLoadSteps (data : list JSON)
| alert (message : string).

(** Body of [reader.onload]; [parsed] is the result of [JSON.parse(text)],
    [None] when it throws. *)
Definition onload (parsed : option JSON) : LoadOutcome :=
  match parsed with
  | None => alert "Failed to read or parse the steps file."
  | Some (JArray data) =>
      match every data with
      | Some true => onLoadSteps data
      | Some false => alert "Invalid steps file format."
      | None => alert "Failed to read or parse the steps file."
      end
  | Some _ => alert "Invalid steps file format."
  end.

(** The value of a key of a parsed object (the last occurrence of a
    repeated key is the one [JSON.parse] keeps). *)
Fixpoint field (k : string) (fields : list (string * JSON)) : option JSON :=
  match fields with
  | [] => None
  | (k', v) :: rest =>
      match field k rest with
      | Some v' => Some v'
      | None => if String.eqb k' k then Some v else None
      end
  end.

(** An item read at the type [Omit<Step, 'id'>] the handler declares: a
    string name and numeric bounds. *)
Definition importedOfJson (item : JSON) : option ImportedStep :=
  match item with
  | JObject fields =>
      match field "name" fields, field "start" fields, field "end" fields with
      | Some (JString n), Some (JNumber a), Some (JNumber b) =>
          Some {| i_name := n; i_start := a; i_end := b |}
      | _, _, _ => None
      end
  | _ => None
  end.

(** [JSON.stringify] followed by [JSON.parse], on a number: a number that
    is not finite is written as [null]. *)
Definition jsonOfNum (x : num) : JSON :=
  if isFinite x then JNumber x else JNull.

(** [JSON.stringify] followed by [JSON.parse], on an exported record. *)
Definition jsonOfImported (st : ImportedStep) : JSON :=
  JObject [("name", JString (i_name st));
           ("start", jsonOfNum (i_start st));
           ("end", jsonOfNum (i_end st))].

(* ================================================================== *)
(** * Rationals: floor and comparisons *)
(* ================================================================== *)

Lemma Qfloor_unique (x : Q) (z : Z) :
  (inject_Z z <= x)%Q -> (x < inject_Z (z + 1))%Q -> Qfloor x = z.
Proof.
  intros Hlo Hhi.
  assert (H1 : (z <= Qfloor x)%Z).
  { rewrite <- (Qfloor_Z z). now apply Qfloor_resp_le. }
  assert (H2 : (Qfloor x < z + 1)%Z).
  { rewrite Zlt_Qlt. eapply Qle_lt_trans; [apply Qfloor_le | exact Hhi]. }
  lia.
Qed.

Lemma Qfloor_sub_Z (x : Q) (n : Z) :
  Qfloor (x - inject_Z n) = (Qfloor x - n)%Z.
Proof.
  apply Qfloor_unique.
  - replace (Qfloor x - n)%Z with (Qfloor x + - n)%Z by lia.
    rewrite inject_Z_plus, inject_Z_opp. pose proof (Qfloor_le x). lra.
  - replace (Qfloor x - n + 1)%Z with ((Qfloor x + 1) + - n)%Z by lia.
    rewrite inject_Z_plus, inject_Z_opp. pose proof (Qlt_floor x). lra.
Qed.

Lemma Qfloor_div_pos (x : Q) (b : Z) :
  (0 < b)%Z -> Qfloor (x / inject_Z b) = (Qfloor x / b)%Z.
Proof.
  intros Hb. apply Qfloor_unique.
  - assert (Hq : (0 < inject_Z b)%Q)
      by (change (inject_Z 0 < inject_Z b)%Q; rewrite <- Zlt_Qlt; exact Hb).
    apply Qle_shift_div_l; [exact Hq|].
    rewrite <- inject_Z_mult.
    eapply Qle_trans; [|apply Qfloor_le].
    rewrite <- Zle_Qle. pose proof (Z.mul_div_le (Qfloor x) b Hb). lia.
  - assert (Hq : (0 < inject_Z b)%Q)
      by (change (inject_Z 0 < inject_Z b)%Q; rewrite <- Zlt_Qlt; exact Hb).
    apply Qlt_shift_div_r; [exact Hq|].
    rewrite <- inject_Z_mult.
    eapply Qlt_le_trans; [apply Qlt_floor|].
    rewrite <- Zle_Qle.
    pose proof (Z.mul_succ_div_gt (Qfloor x) b Hb). lia.
Qed.

Lemma Qtrunc_nonneg (x : Q) : (0 <= x)%Q -> Qtrunc x = Qfloor x.
Proof.
  destruct x as [n d]. unfold Qle, Qtrunc, Qfloor. simpl. intros H.
  apply Z.quot_div_nonneg; lia.
Qed.

Lemma Qltb_iff x y : Qltb x y = true <-> (x < y)%Q.
Proof.
  unfold Qltb. rewrite Qlt_alt. destruct (x ?= y)%Q; split; congruence.
Qed.

Lemma Qltb_false_iff x y : Qltb x y = false <-> (y <= x)%Q.
Proof.
  unfold Qltb. rewrite Qle_alt, <- (Qcompare_antisym x y).
  destruct (x ?= y)%Q; simpl; split; intros H;
    solve [reflexivity | discriminate | intro; discriminate
           | exfalso; apply H; reflexivity].
Qed.

Lemma Qeqb_iff x y : Qeqb x y = true <-> (x == y)%Q.
Proof.
  unfold Qeqb. rewrite Qeq_alt. destruct (x ?= y)%Q; split; congruence.
Qed.

Lemma Qsign_pos x : (0 < x)%Q -> Qsign x = Gt.
Proof. intros H. unfold Qsign. now apply Qgt_alt. Qed.

(* ================================================================== *)
(** * Binary64 rounding *)
(* ================================================================== *)

Lemma pow2_pos e : (0 < pow2 e)%Q.
Proof. apply Qpower_0_lt. reflexivity. Qed.

Lemma pow2_add a b : (pow2 (a + b) == pow2 a * pow2 b)%Q.
Proof. apply Qpower_plus. discriminate. Qed.

Lemma pow2_Z e : (0 <= e)%Z -> (pow2 e == inject_Z (2 ^ e))%Q.
Proof. intros H. unfold pow2. rewrite (Zpower_Qpower 2 e H). reflexivity. Qed.

Lemma pow2_le a b : (a <= b)%Z -> (pow2 a <= pow2 b)%Q.
Proof. intros H. apply Qpower_le_compat_l; [exact H | discriminate]. Qed.

Lemma pow2_lt a b : (a < b)%Z -> (pow2 a < pow2 b)%Q.
Proof. intros H. apply Qpower_lt_compat_l; [exact H | reflexivity]. Qed.

Lemma pow2_lt_inv a b : (pow2 a < pow2 b)%Q -> (a < b)%Z.
Proof. intros H. apply (Qpower_lt_compat_l_inv 2); [exact H | reflexivity]. Qed.

Lemma Qle_bool_false_iff x y : Qle_bool x y = false <-> (y < x)%Q.
Proof.
  destruct (Qle_bool x y) eqn:E.
  - apply Qle_bool_iff in E. split; [discriminate|].
    intros H. exfalso. exact (Qlt_not_le _ _ H E).
  - split; [intros _ | reflexivity].
    apply Qnot_le_lt. intros H. apply Qle_bool_iff in H. congruence.
Qed.

(** [ilog2] locates the leading bit. *)
Lemma ilog2_spec (x : Q) :
  (0 < x)%Q -> (pow2 (ilog2 x) <= x < pow2 (ilog2 x + 1))%Q.
Proof.
  intros Hx. destruct x as [n d].
  assert (Hn : (0 < n)%Z).
  { unfold Qlt in Hx. cbn in Hx. lia. }
  pose proof (Z.log2_spec n Hn) as [A1 A2].
  pose proof (Z.log2_spec (Zpos d) (Pos2Z.is_pos d)) as [B1 B2].
  pose proof (Z.log2_nonneg n) as Ha. pose proof (Z.log2_nonneg (Zpos d)) as Hb.
  unfold ilog2. cbn [Qnum Qden].
  set (a := Z.log2 n) in *. set (b := Z.log2 (Zpos d)) in *.
  assert (X : (n # d == inject_Z n / inject_Z (Zpos d))%Q)
    by (rewrite Qmake_Qdiv; reflexivity).
  assert (Dpos : (0 < inject_Z (Zpos d))%Q) by reflexivity.
  assert (A1' : (pow2 a <= inject_Z n)%Q)
    by (rewrite (pow2_Z a Ha), <- Zle_Qle; exact A1).
  assert (A2' : (inject_Z n < pow2 (a + 1))%Q)
    by (rewrite (pow2_Z (a + 1)) by lia; rewrite <- Zlt_Qlt; exact A2).
  assert (B1' : (pow2 b <= inject_Z (Zpos d))%Q)
    by (rewrite (pow2_Z b Hb), <- Zle_Qle; exact B1).
  assert (B2' : (inject_Z (Zpos d) < pow2 (b + 1))%Q)
    by (rewrite (pow2_Z (b + 1)) by lia; rewrite <- Zlt_Qlt; exact B2).
  assert (Hup : (n # d < pow2 (a - b + 1))%Q).
  { rewrite X. apply Qlt_shift_div_r; [exact Dpos|].
    assert (E : (pow2 (a + 1) == pow2 (a - b + 1) * pow2 b)%Q)
      by (rewrite <- pow2_add; replace (a - b + 1 + b)%Z with (a + 1)%Z by lia;
          reflexivity).
    pose proof (pow2_pos (a - b + 1)). pose proof (pow2_pos b).
    nra. }
  assert (Hlo : (pow2 (a - b - 1) <= n # d)%Q).
  { rewrite X. apply Qle_shift_div_l; [exact Dpos|].
    assert (E : (pow2 a == pow2 (a - b - 1) * pow2 (b + 1))%Q)
      by (rewrite <- pow2_add; replace (a - b - 1 + (b + 1))%Z with a by lia;
          reflexivity).
    pose proof (pow2_pos (a - b - 1)). pose proof (pow2_pos (b + 1)).
    nra. }
  destruct (Qle_bool (pow2 (a - b)) (n # d)) eqn:E.
  - apply Qle_bool_iff in E. split; assumption.
  - apply Qle_bool_false_iff in E. split; [exact Hlo|].
    replace (a - b - 1 + 1)%Z with (a - b)%Z by lia. exact E.
Qed.

Lemma ilog2_unique (x : Q) (e : Z) :
  (pow2 e <= x < pow2 (e + 1))%Q -> ilog2 x = e.
Proof.
  intros [A B].
  assert (Hx : (0 < x)%Q) by (pose proof (pow2_pos e); lra).
  destruct (ilog2_spec x Hx) as [C D].
  assert (E1 : (ilog2 x < e + 1)%Z) by (apply pow2_lt_inv; lra).
  assert (E2 : (e < ilog2 x + 1)%Z) by (apply pow2_lt_inv; lra).
  lia.
Qed.

Lemma roundHalfEven_int (z : Z) : roundHalfEven (inject_Z z) = z.
Proof.
  unfold roundHalfEven. rewrite Qfloor_Z.
  assert (E : (inject_Z z - inject_Z z ?= 1 # 2)%Q = Lt)
    by (apply (proj1 (Qlt_alt _ _)); lra).
  rewrite E. reflexivity.
Qed.

Lemma roundHalfEven_comp (x y : Q) :
  (x == y)%Q -> roundHalfEven x = roundHalfEven y.
Proof.
  intros H. unfold roundHalfEven. rewrite (Qfloor_comp x y H).
  assert (E : (x - inject_Z (Qfloor y) ?= 1 # 2)%Q
              = (y - inject_Z (Qfloor y) ?= 1 # 2)%Q)
    by (rewrite H; reflexivity).
  rewrite E. reflexivity.
Qed.

Lemma roundHalfEven_ge (z : Z) (r : Q) :
  (inject_Z z <= r)%Q -> (z <= roundHalfEven r)%Z.
Proof.
  intros H. apply Qfloor_resp_le in H. rewrite Qfloor_Z in H.
  unfold roundHalfEven.
  destruct (r - inject_Z (Qfloor r) ?= 1 # 2)%Q;
    [destruct (Z.even (Qfloor r))| |]; lia.
Qed.

Lemma roundHalfEven_le (z : Z) (r : Q) :
  (r <= inject_Z z)%Q -> (roundHalfEven r <= z)%Z.
Proof.
  intros H. pose proof (Qfloor_resp_le _ _ H) as F. rewrite Qfloor_Z in F.
  unfold roundHalfEven.
  destruct (Z.eq_dec (Qfloor r) z) as [E | E].
  - assert (R : (r == inject_Z z)%Q).
    { pose proof (Qfloor_le r) as L. rewrite E in L. lra. }
    assert (C : (r - inject_Z (Qfloor r) ?= 1 # 2)%Q = Lt).
    { apply (proj1 (Qlt_alt _ _)). rewrite E. lra. }
    rewrite C. lia.
  - destruct (r - inject_Z (Qfloor r) ?= 1 # 2)%Q;
      [destruct (Z.even (Qfloor r))| |]; lia.
Qed.

(** The nearest integer is within one half. *)
Lemma roundHalfEven_near (r : Q) :
  (r - (1 # 2) <= inject_Z (roundHalfEven r) <= r + (1 # 2))%Q.
Proof.
  unfold roundHalfEven. pose proof (Qfloor_le r). pose proof (Qlt_floor r).
  rewrite inject_Z_plus in *. change (inject_Z 1) with 1%Q in *.
  destruct (Qcompare_spec (r - inject_Z (Qfloor r)) (1 # 2)) as [E|E|E].
  - destruct (Z.even (Qfloor r)); rewrite ?inject_Z_plus;
      change (inject_Z 1) with 1%Q; lra.
  - lra.
  - rewrite inject_Z_plus. change (inject_Z 1) with 1%Q. lra.
Qed.

Lemma pow2_split (k q : Z) :
  (0 <= k)%Z -> (pow2 (k + q) == inject_Z (2 ^ k) * pow2 q)%Q.
Proof. intros H. rewrite pow2_add, (pow2_Z k H). reflexivity. Qed.

(** The significand and the exponent [round64_pos] settles on. *)
Lemma round64_pos_form (a : Q) :
  (0 < a)%Q ->
  exists m q : Z,
    q = Z.max (ilog2 a - 52) (-1074)
    /\ m = roundHalfEven (a / pow2 q)
    /\ (0 <= m <= 2 ^ 53)%Z
    /\ (q = ilog2 a - 52 -> 2 ^ 52 <= m)%Z
    /\ round64_pos a
       = (if Qle_bool (pow2 1024) (inject_Z m * pow2 q) then PInf
          else Fin (Qred (inject_Z m * pow2 q))).
Proof.
  intros Ha. destruct (ilog2_spec a Ha) as [L U].
  set (e := ilog2 a) in *.
  exists (roundHalfEven (a / pow2 (Z.max (e - 52) (-1074)))),
         (Z.max (e - 52) (-1074)).
  set (q := Z.max (e - 52) (-1074)).
  pose proof (pow2_pos q) as Pq.
  split; [reflexivity|]. split; [reflexivity|]. split; [split|split].
  - apply roundHalfEven_ge. change (inject_Z 0) with 0%Q.
    apply Qle_shift_div_l; [exact Pq | lra].
  - apply roundHalfEven_le. apply Qle_shift_div_r; [exact Pq|].
    assert (E : (pow2 (e + 1) <= pow2 (53 + q))%Q) by (apply pow2_le; lia).
    pose proof (pow2_split 53 q ltac:(lia)). lra.
  - intros Hq. apply roundHalfEven_ge. apply Qle_shift_div_l; [exact Pq|].
    assert (E : (pow2 e == pow2 (52 + q))%Q)
      by (replace (52 + q)%Z with e by lia; reflexivity).
    pose proof (pow2_split 52 q ltac:(lia)). lra.
  - reflexivity.
Qed.

(** Rounding a positive value gives a value that is not negative, or
    overflows. *)
Lemma round64_pos_sign (a : Q) :
  (0 < a)%Q ->
  round64_pos a = PInf \/ exists y, round64_pos a = Fin y /\ (0 <= y)%Q.
Proof.
  intros Ha.
  destruct (round64_pos_form a Ha) as (m & q & _ & _ & [M0 _] & _ & E).
  rewrite E. destruct (Qle_bool _ _); [left; reflexivity|].
  right. eexists. split; [reflexivity|]. rewrite Qred_correct.
  pose proof (pow2_pos q). apply Qmult_le_0_compat; [|lra].
  change 0%Q with (inject_Z 0). rewrite <- Zle_Qle. exact M0.
Qed.

(** Rounding does not cross a power of two of the normal range from
    above. *)
Lemma round64_pos_lower (a : Q) (k : Z) :
  (-1022 <= k)%Z -> (pow2 k <= a)%Q ->
  round64_pos a = PInf \/ exists y, round64_pos a = Fin y /\ (pow2 k <= y)%Q.
Proof.
  intros Hk Hka.
  assert (Ha : (0 < a)%Q) by (pose proof (pow2_pos k); lra).
  destruct (ilog2_spec a Ha) as [L U].
  destruct (round64_pos_form a Ha) as (m & q & Eq & _ & [M0 M1] & Mn & E).
  assert (Hke : (k <= ilog2 a)%Z).
  { assert (k < ilog2 a + 1)%Z by (apply pow2_lt_inv; lra). lia. }
  assert (Hq : q = (ilog2 a - 52)%Z) by lia.
  specialize (Mn Hq).
  rewrite E. destruct (Qle_bool _ _); [left; reflexivity|].
  right. eexists. split; [reflexivity|]. rewrite Qred_correct.
  assert (E1 : (pow2 k <= pow2 (52 + q))%Q) by (apply pow2_le; lia).
  pose proof (pow2_split 52 q ltac:(lia)) as E3.
  assert (E2 : (inject_Z (2 ^ 52) <= inject_Z m)%Q)
    by (rewrite <- Zle_Qle; exact Mn).
  pose proof (pow2_pos q). nra.
Qed.

(** Below a power of two of the binary64 range there is no overflow, and
    rounding does not cross that power from below. *)
Lemma round64_pos_upper (a : Q) (k : Z) :
  (-1074 <= k <= 1023)%Z -> (0 < a)%Q -> (a < pow2 k)%Q ->
  exists y, round64_pos a = Fin y /\ (0 <= y <= pow2 k)%Q.
Proof.
  intros Hk Ha Hak.
  destruct (ilog2_spec a Ha) as [L U].
  destruct (round64_pos_form a Ha) as (m & q & Eq & Em & [M0 M1] & _ & E).
  assert (Hek : (ilog2 a < k)%Z) by (apply pow2_lt_inv; lra).
  assert (Hqk : (q <= k)%Z) by lia.
  pose proof (pow2_pos q) as Pq.
  assert (Hm : (m <= 2 ^ (k - q))%Z).
  { rewrite Em. apply roundHalfEven_le.
    apply Qle_shift_div_r; [exact Pq|].
    assert (E1 : (pow2 k == pow2 (k - q + q))%Q)
      by (replace (k - q + q)%Z with k by lia; reflexivity).
    pose proof (pow2_split (k - q) q ltac:(lia)). lra. }
  assert (Hy : (inject_Z m * pow2 q <= pow2 k)%Q).
  { assert (E1 : (pow2 k == pow2 (k - q + q))%Q)
      by (replace (k - q + q)%Z with k by lia; reflexivity).
    pose proof (pow2_split (k - q) q ltac:(lia)) as E3.
    assert (E2 : (inject_Z m <= inject_Z (2 ^ (k - q)))%Q)
      by (rewrite <- Zle_Qle; exact Hm).
    nra. }
  assert (Hov : Qle_bool (pow2 1024) (inject_Z m * pow2 q) = false).
  { apply Qle_bool_false_iff.
    assert (pow2 k < pow2 1024)%Q by (apply pow2_lt; lia). lra. }
  rewrite E, Hov. eexists. split; [reflexivity|]. rewrite Qred_correct.
  split; [|exact Hy].
  apply Qmult_le_0_compat; [|lra].
  change 0%Q with (inject_Z 0). rewrite <- Zle_Qle. exact M0.
Qed.

(** A value that is a whole number of units in the last place is left as
    it is. *)
Lemma round64_pos_exact (a : Q) (z : Z) :
  (0 < a)%Q ->
  (a == inject_Z z * pow2 (Z.max (ilog2 a - 52) (-1074)))%Q ->
  (a < pow2 1024)%Q ->
  round64_pos a = Fin (Qred a).
Proof.
  intros Ha Hz Hov. unfold round64_pos.
  set (q := Z.max (ilog2 a - 52) (-1074)) in *.
  pose proof (pow2_pos q) as Pq.
  assert (E : (a / pow2 q == inject_Z z)%Q).
  { rewrite Hz. field. lra. }
  rewrite (roundHalfEven_comp _ _ E), roundHalfEven_int.
  assert (F : Qle_bool (pow2 1024) (inject_Z z * pow2 q) = false).
  { apply Qle_bool_false_iff. rewrite <- Hz. exact Hov. }
  rewrite F. f_equal. apply Qred_complete. symmetry. exact Hz.
Qed.

Lemma Qred_inject_Z (z : Z) : Qred (inject_Z z) = inject_Z z.
Proof.
  apply Qcanon.Qred_identity. cbn. apply Z.gcd_1_r.
Qed.

(** An integer with at most 53 significant bits is a binary64 value. *)
Lemma round64_int (m j : Z) :
  (0 < m <= 2 ^ 53)%Z -> (0 <= j)%Z -> (m * 2 ^ j < 2 ^ 1024)%Z ->
  round64 (inject_Z (m * 2 ^ j)) = Fin (inject_Z (m * 2 ^ j)).
Proof.
  intros [Hm0 Hm1] Hj Hov.
  set (a := inject_Z (m * 2 ^ j)).
  assert (Hpos : (0 < m * 2 ^ j)%Z) by (apply Z.mul_pos_pos; [lia|];
    apply Z.pow_pos_nonneg; lia).
  assert (Ha : (0 < a)%Q)
    by (subst a; change 0%Q with (inject_Z 0); rewrite <- Zlt_Qlt; exact Hpos).
  unfold round64, Qsign.
  rewrite (proj1 (Qgt_alt _ _) Ha).
  pose proof (Z.log2_spec m Hm0) as [L1 L2].
  pose proof (Z.log2_nonneg m) as L0.
  set (l := Z.log2 m) in *. clearbody l.
  assert (Hl : (l <= 53)%Z).
  { destruct (Z_lt_le_dec 53 l) as [C|C]; [|exact C]. exfalso.
    assert (2 ^ 54 <= 2 ^ l)%Z by (apply Z.pow_le_mono_r; lia). lia. }
  assert (He : ilog2 a = (l + j)%Z).
  { apply ilog2_unique. subst a.
    rewrite (pow2_Z (l + j)), (pow2_Z (l + j + 1)) by lia.
    rewrite <- Zle_Qle, <- Zlt_Qlt.
    rewrite !Z.pow_add_r by lia. unfold Z.succ in L2.
    rewrite Z.pow_add_r in L2 by lia. split; nia. }
  assert (Hlt : (a < pow2 1024)%Q).
  { subst a. rewrite (pow2_Z 1024) by lia. rewrite <- Zlt_Qlt. exact Hov. }
  replace (Fin a) with (Fin (Qred a))
    by (f_equal; subst a; apply Qred_inject_Z).
  destruct (Z_le_gt_dec l 52) as [C|C].
  - apply (round64_pos_exact a (m * 2 ^ (52 - l))); [exact Ha| |exact Hlt].
    rewrite He. replace (Z.max (l + j - 52) (-1074)) with (l + j - 52)%Z by lia.
    subst a. rewrite !inject_Z_mult.
    assert (E : (pow2 j == inject_Z (2 ^ (52 - l)) * pow2 (l + j - 52))%Q).
    { rewrite <- pow2_split by lia.
      replace (52 - l + (l + j - 52))%Z with j by lia. reflexivity. }
    rewrite <- (pow2_Z j Hj), E. ring.
  - assert (l = 53)%Z by lia. subst l.
    assert (Em : m = (2 ^ 53)%Z) by lia.
    apply (round64_pos_exact a (2 ^ 52)); [exact Ha| |exact Hlt].
    rewrite He. replace (Z.max (53 + j - 52) (-1074)) with (1 + j)%Z by lia.
    subst a. rewrite Em, inject_Z_mult, <- (pow2_Z j Hj).
    rewrite (pow2_split 1 j) by lia.
    change (inject_Z (2 ^ 53)) with (inject_Z (2 ^ 52) * inject_Z (2 ^ 1))%Q.
    ring.
Qed.

(** The whole part of a rounded value has at most 53 significant bits. *)
Lemma floor_of_rounded (a y : Q) :
  (0 < a)%Q -> round64_pos a = Fin y ->
  Qfloor y = 0%Z
  \/ exists m j, (0 < m <= 2 ^ 53)%Z /\ (0 <= j)%Z
                 /\ Qfloor y = (m * 2 ^ j)%Z.
Proof.
  intros Ha Hy.
  destruct (round64_pos_form a Ha) as (m & q & Eq & _ & [M0 M1] & _ & E).
  rewrite E in Hy. destruct (Qle_bool _ _); [discriminate|].
  set (w := Qred (inject_Z m * pow2 q)) in *. injection Hy as <-. subst w.
  rewrite (Qfloor_comp _ _ (Qred_correct _)).
  destruct (Z_le_gt_dec 0 q) as [Hq | Hq].
  - assert (F : Qfloor (inject_Z m * pow2 q) = (m * 2 ^ q)%Z).
    { rewrite <- (Qfloor_Z (m * 2 ^ q)). apply Qfloor_comp.
      rewrite inject_Z_mult, (pow2_Z q Hq). reflexivity. }
    rewrite F. destruct (Z.eq_dec m 0) as [-> | Hm]; [left; reflexivity|].
    right. exists m, q. repeat split; lia.
  - set (M := Qfloor (inject_Z m * pow2 q)).
    assert (B : (0 <= inject_Z m * pow2 q <= inject_Z m)%Q).
    { assert (P1 : (pow2 q <= pow2 0)%Q) by (apply pow2_le; lia).
      change (pow2 0) with 1%Q in P1. pose proof (pow2_pos q).
      assert (0 <= inject_Z m)%Q
        by (change 0%Q with (inject_Z 0); rewrite <- Zle_Qle; exact M0).
      nra. }
    assert (HM : (0 <= M <= m)%Z).
    { subst M. split.
      - rewrite <- (Qfloor_Z 0). apply Qfloor_resp_le. apply B.
      - rewrite <- (Qfloor_Z m) at 2. apply Qfloor_resp_le. apply B. }
    destruct (Z.eq_dec M 0) as [-> | Hne]; [left; reflexivity|].
    right. exists M, 0%Z. repeat split; lia.
Qed.

Lemma round64_floor (a y : Q) :
  (0 < a)%Q -> round64_pos a = Fin y -> (Qfloor y < 2 ^ 1024)%Z ->
  round64 (inject_Z (Qfloor y)) = Fin (inject_Z (Qfloor y)).
Proof.
  intros Ha Hy Hlt.
  destruct (floor_of_rounded a y Ha Hy) as [-> | (m & j & Hm & Hj & E)];
    [reflexivity|].
  rewrite E in *. apply round64_int; assumption.
Qed.

Lemma round64_comp (x y : Q) : (x == y)%Q -> round64 x = round64 y.
Proof.
  intros H. unfold round64, Qsign.
  assert (C : (x ?= 0)%Q = (y ?= 0)%Q) by (rewrite H; reflexivity).
  rewrite C.
  assert (P : forall a b, (a == b)%Q -> (0 < a)%Q ->
                          round64_pos a = round64_pos b).
  { intros a b E Ha. unfold round64_pos.
    assert (Hb : (0 < b)%Q) by (rewrite <- E; exact Ha).
    assert (I : ilog2 a = ilog2 b).
    { apply ilog2_unique. rewrite E. apply ilog2_spec. exact Hb. }
    rewrite I. set (q := Z.max (ilog2 b - 52) (-1074)).
    assert (R : roundHalfEven (a / pow2 q) = roundHalfEven (b / pow2 q))
      by (apply roundHalfEven_comp; rewrite E; reflexivity).
    rewrite R. reflexivity. }
  destruct (Qcompare_spec y 0) as [E | E | E]; [reflexivity| |].
  - f_equal. apply P; [rewrite H; reflexivity | rewrite H; lra].
  - apply P; [exact H | rewrite H; exact E].
Qed.

(** On the samples, products and quotients rounded by [round64] are those
    of the processor: zero, normal and subnormal results, overflow to
    infinity and underflow to zero included. *)
Example round64_agrees_with_the_processor :
  forallb (fun a => forallb (agree a) samples) samples = true.
Proof. vm_compute. reflexivity. Qed.

(* ================================================================== *)
(** * Number to string *)
(* ================================================================== *)

Lemma pow10_pos e : (0 < pow10 e)%Q.
Proof. apply Qpower_0_lt. reflexivity. Qed.

Lemma pow10_add a b : (pow10 (a + b) == pow10 a * pow10 b)%Q.
Proof. apply Qpower_plus. discriminate. Qed.

Lemma pow10_Z e : (0 <= e)%Z -> (pow10 e == inject_Z (10 ^ e))%Q.
Proof. intros H. unfold pow10. rewrite (Zpower_Qpower 10 e H). reflexivity. Qed.

Lemma pow10_lt a b : (a < b)%Z -> (pow10 a < pow10 b)%Q.
Proof. intros H. apply Qpower_lt_compat_l; [exact H | reflexivity]. Qed.

Lemma pow10_lt_inv a b : (pow10 a < pow10 b)%Q -> (a < b)%Z.
Proof. intros H. apply (Qpower_lt_compat_l_inv 10); [exact H | reflexivity]. Qed.

Lemma scanUp_spec (fuel : nat) :
  forall n p x,
    (p == pow10 n)%Q -> (pow10 (n - 1) <= x)%Q ->
    (x < pow10 (n + Z.of_nat fuel))%Q ->
    (pow10 (scanUp fuel n p x - 1) <= x < pow10 (scanUp fuel n p x))%Q.
Proof.
  induction fuel as [|f IH]; intros n p x Hp Hlo Hhi; cbn [scanUp].
  - rewrite Z.add_0_r in Hhi. split; assumption.
  - destruct (Qltb x p) eqn:E.
    + apply Qltb_iff in E. rewrite Hp in E. split; assumption.
    + apply Qltb_false_iff in E. rewrite Hp in E. apply IH.
      * rewrite Hp, pow10_add. reflexivity.
      * replace (n + 1 - 1)%Z with n by lia. exact E.
      * replace (n + 1 + Z.of_nat f)%Z with (n + Z.of_nat (S f))%Z by lia.
        exact Hhi.
Qed.

(** The number of digits of a positive integer below 10^21. *)
Lemma exponent10_int (M : Z) :
  (1 <= M < 10 ^ 21)%Z ->
  (1 <= exponent10 (inject_Z M) <= 21)%Z
  /\ (10 ^ (exponent10 (inject_Z M) - 1) <= M
      < 10 ^ exponent10 (inject_Z M))%Z.
Proof.
  intros [H1 H2]. unfold exponent10.
  assert (E : Qle_bool 1 (inject_Z M) = true).
  { apply Qle_bool_iff. change 1%Q with (inject_Z 1). rewrite <- Zle_Qle.
    exact H1. }
  rewrite E.
  destruct (scanUp_spec 310 1 10 (inject_Z M)) as [A B].
  - reflexivity.
  - change (pow10 (1 - 1)) with 1%Q. apply Qle_bool_iff. exact E.
  - rewrite pow10_Z by lia. rewrite <- Zlt_Qlt.
    assert (10 ^ 21 < 10 ^ (1 + Z.of_nat 310))%Z
      by (apply Z.pow_lt_mono_r; lia). lia.
  - set (r := scanUp 310 1 10 (inject_Z M)) in *.
    assert (R0 : (0 < r)%Z).
    { apply pow10_lt_inv. change (pow10 0) with 1%Q.
      apply Qle_bool_iff in E. lra. }
    assert (R1 : (r - 1 < 21)%Z).
    { apply pow10_lt_inv. rewrite (pow10_Z 21) by lia.
      assert (inject_Z M < inject_Z (10 ^ 21))%Q
        by (rewrite <- Zlt_Qlt; exact H2). lra. }
    split; [lia|].
    rewrite (pow10_Z (r - 1)) in A by lia. rewrite (pow10_Z r) in B by lia.
    rewrite <- Zle_Qle in A. rewrite <- Zlt_Qlt in B. split; assumption.
Qed.

Lemma digitsOnly_app (a b : string) :
  digitsOnly (a ++ b) = digitsOnly a && digitsOnly b.
Proof.
  induction a as [|c r IH]; cbn; [reflexivity|].
  rewrite IH. apply andb_assoc.
Qed.

Lemma digitsOnly_zeros (n : nat) : digitsOnly (zeros n) = true.
Proof. induction n as [|k IH]; cbn; [reflexivity | exact IH]. Qed.

Lemma digitsOnly_string_of_uint (d : Decimal.uint) :
  digitsOnly (NilZero.string_of_uint d) = true.
Proof.
  assert (H : forall u, digitsOnly (NilEmpty.string_of_uint u) = true)
    by (induction u; cbn; auto).
  destruct d; try reflexivity; apply H.
Qed.

Lemma digitsOnly_decimal (z : Z) :
  (0 <= z)%Z -> digitsOnly (decimal z) = true.
Proof.
  intros Hz. unfold decimal. destruct z as [|p|p]; [reflexivity| |lia].
  cbn. apply digitsOnly_string_of_uint.
Qed.

Lemma candidate_cases (x : Q) (n0 k : Z) :
  let ulp := pow10 (n0 - k) in
  let lo := Qfloor (x / ulp) in
  let hi := (lo + 1)%Z in
  let pick (s : Z) :=
    if (s =? 10 ^ k)%Z then Some ((10 ^ (k - 1))%Z, (n0 + 1)%Z)
    else Some (s, n0) in
  candidate x n0 k = None
  \/ (eqb (round64 (inject_Z lo * ulp)) (Fin x) = true
      /\ candidate x n0 k = pick lo)
  \/ (eqb (round64 (inject_Z hi * ulp)) (Fin x) = true
      /\ candidate x n0 k = pick hi).
Proof.
  intros ulp lo hi pick. unfold candidate. fold ulp. fold lo. fold hi.
  fold pick.
  destruct (eqb (round64 (inject_Z lo * ulp)) (Fin x)) eqn:A;
    destruct (eqb (round64 (inject_Z hi * ulp)) (Fin x)) eqn:B.
  - destruct (x - inject_Z lo * ulp ?= inject_Z hi * ulp - x)%Q;
      [destruct (Z.even lo)| |]; auto.
  - auto.
  - auto.
  - auto.
Qed.

(** Powers of ten up to 10^21 are binary64 values. *)
Lemma round64_pow10 (n : Z) :
  (0 <= n <= 21)%Z -> round64 (inject_Z (10 ^ n)) = Fin (inject_Z (10 ^ n)).
Proof.
  intros Hn.
  assert (E : (10 ^ n = 5 ^ n * 2 ^ n)%Z)
    by (rewrite <- Z.pow_mul_l; reflexivity).
  rewrite E. apply round64_int; [|lia|].
  - split; [apply Z.pow_pos_nonneg; lia|].
    assert (5 ^ n <= 5 ^ 21)%Z by (apply Z.pow_le_mono_r; lia).
    assert (5 ^ 21 <= 2 ^ 53)%Z by (vm_compute; discriminate). lia.
  - rewrite <- E.
    assert (10 ^ n <= 10 ^ 21)%Z by (apply Z.pow_le_mono_r; lia).
    assert (10 ^ 21 < 2 ^ 1024)%Z by (vm_compute; reflexivity). lia.
Qed.

Lemma candidate_int (M k : Z) :
  (1 <= M < 10 ^ 21)%Z ->
  let x := inject_Z M in
  let n0 := exponent10 x in
  (1 <= k <= n0)%Z ->
  candidate x n0 k = None
  \/ exists s,
       (1 <= s)%Z /\ candidate x n0 k = Some (s, n0)
       /\ eqb (round64 (inject_Z (s * 10 ^ (n0 - k)))) (Fin x) = true.
Proof.
  intros HM x n0 Hk.
  destruct (exponent10_int M HM) as [[N1 N2] [B1 B2]].
  fold x in N1, N2, B1, B2. fold n0 in N1, N2, B1, B2.
  set (U := (10 ^ (n0 - k))%Z).
  assert (HU : (0 < U)%Z) by (apply Z.pow_pos_nonneg; lia).
  assert (Eulp : (pow10 (n0 - k) == inject_Z U)%Q) by (apply pow10_Z; lia).
  assert (Elo : Qfloor (x / pow10 (n0 - k)) = (M / U)%Z).
  { rewrite (Qfloor_comp _ (inject_Z M / inject_Z U)).
    - symmetry. apply Zdiv_Qdiv.
    - subst x. rewrite Eulp. reflexivity. }
  assert (Hsplit : (10 ^ n0 = 10 ^ k * U)%Z).
  { subst U. rewrite <- Z.pow_add_r by lia. f_equal. lia. }
  assert (Hsplit' : (10 ^ (n0 - 1) = 10 ^ (k - 1) * U)%Z).
  { subst U. rewrite <- Z.pow_add_r by lia. f_equal. lia. }
  assert (Hlo0 : (1 <= M / U)%Z).
  { assert (1 <= 10 ^ (k - 1))%Z by (apply Z.lt_pred_le, Z.pow_pos_nonneg; lia).
    assert (10 ^ (k - 1) <= M / U)%Z
      by (apply Z.div_le_lower_bound; [exact HU | lia]).
    lia. }
  assert (Hlo1 : (M / U < 10 ^ k)%Z).
  { apply Z.div_lt_upper_bound; [exact HU|]. lia. }
  assert (V : forall s,
             eqb (round64 (inject_Z s * pow10 (n0 - k))) (Fin x) = true ->
             eqb (round64 (inject_Z (s * U))) (Fin x) = true).
  { intros s A. rewrite (round64_comp (inject_Z (s * U))
                           (inject_Z s * pow10 (n0 - k))); [exact A|].
    rewrite Eulp, inject_Z_mult. reflexivity. }
  destruct (candidate_cases x n0 k) as [C | [[A C] | [A C]]];
    [left; exact C | |]; right; rewrite C; clear C.
  - rewrite Elo in *. exists (M / U)%Z. split; [exact Hlo0|].
    split; [|apply V; exact A].
    destruct (Z.eqb_spec (M / U) (10 ^ k)); [lia | reflexivity].
  - rewrite Elo in *. exists (M / U + 1)%Z. split; [lia|].
    apply V in A.
    destruct (Z.eqb_spec (M / U + 1) (10 ^ k)) as [E | E];
      [|split; [reflexivity | exact A]].
    exfalso. rewrite E, <- Hsplit in A.
    rewrite round64_pow10 in A by lia.
    subst x. cbn [eqb] in A. apply Qeqb_iff in A.
    rewrite inject_Z_injective in A. lia.
Qed.

(** With as many digits as the integer has, the integer itself is such a
    numeral. *)
Lemma candidate_all_digits (M : Z) :
  (1 <= M < 10 ^ 21)%Z ->
  round64 (inject_Z M) = Fin (inject_Z M) ->
  let x := inject_Z M in
  let n0 := exponent10 x in
  candidate x n0 n0 <> None.
Proof.
  intros HM Hrep x n0.
  assert (Eulp : pow10 (n0 - n0) = 1%Q)
    by (replace (n0 - n0)%Z with 0%Z by lia; reflexivity).
  assert (Elo : Qfloor (x / pow10 (n0 - n0)) = M).
  { rewrite Eulp. rewrite (Qfloor_comp _ (inject_Z M)).
    - apply Qfloor_Z.
    - subst x. field. }
  assert (A : eqb (round64 (inject_Z (Qfloor (x / pow10 (n0 - n0)))
                            * pow10 (n0 - n0))) (Fin x) = true).
  { rewrite Elo, Eulp.
    rewrite (round64_comp _ (inject_Z M)) by ring.
    rewrite Hrep. subst x. cbn [eqb]. apply Qeqb_iff. reflexivity. }
  unfold candidate. rewrite A.
  repeat match goal with
         | |- context [match ?c with _ => _ end] => destruct c
         end; discriminate.
Qed.

Lemma shortest_finds (x : Q) (n0 : Z) (fuel : nat) :
  forall k k0,
    (k <= k0 < k + Z.of_nat fuel)%Z -> candidate x n0 k0 <> None ->
    exists s k' n,
      shortest fuel k x n0 = Some (s, k', n)
      /\ (k <= k' <= k0)%Z /\ candidate x n0 k' = Some (s, n).
Proof.
  induction fuel as [|f IH]; intros k k0 Hk Hc; [lia|].
  cbn [shortest]. destruct (candidate x n0 k) as [[s n]|] eqn:E.
  - exists s, k, n. split; [reflexivity|]. split; [lia | exact E].
  - destruct (Z.eq_dec k k0) as [-> | Hne]; [contradiction|].
    destruct (IH (k + 1)%Z k0 ltac:(lia) Hc) as (s & k' & n & A & B & C).
    exists s, k', n. split; [exact A|]. split; [lia | exact C].
Qed.

(** [String] writes a binary64 integer from 1 to below 10^21 with decimal
    digits and nothing else: the digits of some [s] followed by zeros,
    where [s] followed by those zeros is a numeral that rounds to the
    integer. *)
Lemma toStringPos_int (M : Z) :
  (1 <= M < 10 ^ 21)%Z ->
  round64 (inject_Z M) = Fin (inject_Z M) ->
  exists s j,
    (1 <= s)%Z /\ (0 <= j)%Z
    /\ toStringPos (inject_Z M) = decimal s ++ zeros (Z.to_nat j)
    /\ eqb (round64 (inject_Z (s * 10 ^ j))) (Fin (inject_Z M)) = true.
Proof.
  intros HM Hrep.
  destruct (exponent10_int M HM) as [[N1 N2] _].
  set (x := inject_Z M) in *. set (n0 := exponent10 x) in *.
  destruct (shortest_finds x n0 21 1 n0 ltac:(lia)
              (candidate_all_digits M HM Hrep))
    as (s & k & n & A & B & C).
  destruct (candidate_int M k HM ltac:(fold x; fold n0; lia))
    as [D | (s' & Hs & D & V)]; fold x in D; fold n0 in D;
    [congruence|].
  fold x in V. fold n0 in V.
  rewrite C in D. injection D as -> ->.
  unfold toStringPos. fold n0. rewrite A. unfold formatDigits.
  assert (E1 : ((-5 <=? n0) && (n0 <=? 21))%Z = true)
    by (apply andb_true_iff; split; apply Z.leb_le; lia).
  assert (E2 : (k <=? n0)%Z = true) by (apply Z.leb_le; lia).
  rewrite E1, E2. exists s', (n0 - k)%Z.
  split; [exact Hs|]. split; [lia|]. split; [reflexivity | exact V].
Qed.

(** Below 2^53 that numeral is the integer itself. *)
Lemma toStringPos_safe_int (M : Z) :
  (1 <= M < 10 ^ 21)%Z ->
  round64 (inject_Z M) = Fin (inject_Z M) ->
  (M < 2 ^ 53)%Z ->
  exists s j,
    (1 <= s)%Z /\ (0 <= j)%Z
    /\ toStringPos (inject_Z M) = decimal s ++ zeros (Z.to_nat j)
    /\ M = (s * 10 ^ j)%Z.
Proof.
  intros HM Hrep Hsafe.
  destruct (toStringPos_int M HM Hrep) as (s & j & Hs & Hj & E & V).
  exists s, j. split; [exact Hs|]. split; [exact Hj|]. split; [exact E|].
  set (C := (s * 10 ^ j)%Z) in *.
  assert (HC : (1 <= C)%Z).
  { assert (1 <= 10 ^ j)%Z by (apply Z.lt_pred_le, Z.pow_pos_nonneg; lia).
    subst C. nia. }
  destruct (Z_le_gt_dec C (2 ^ 53)) as [L | G].
  - assert (R : round64 (inject_Z C) = Fin (inject_Z C)).
    { rewrite <- (Z.mul_1_r C). change 1%Z with (2 ^ 0)%Z at 1 2.
      apply round64_int; [lia | lia |].
      assert (2 ^ 53 < 2 ^ 1024)%Z by (vm_compute; reflexivity).
      change (2 ^ 0)%Z with 1%Z. lia. }
    rewrite R in V. cbn [eqb] in V. apply Qeqb_iff in V.
    rewrite inject_Z_injective in V. symmetry. exact V.
  - exfalso.
    assert (P : (pow2 53 <= inject_Z C)%Q).
    { rewrite (pow2_Z 53) by lia. rewrite <- Zle_Qle. lia. }
    assert (Cpos : (0 < inject_Z C)%Q).
    { change 0%Q with (inject_Z 0). rewrite <- Zlt_Qlt. lia. }
    unfold round64, Qsign in V. rewrite (proj1 (Qgt_alt _ _) Cpos) in V.
    destruct (round64_pos_lower (inject_Z C) 53 ltac:(lia) P)
      as [F | (y & F & Hy)]; rewrite F in V; [discriminate|].
    cbn [eqb] in V. apply Qeqb_iff in V.
    rewrite (pow2_Z 53) in Hy by lia. rewrite V, <- Zle_Qle in Hy. lia.
Qed.


Lemma decimal_nonempty (z : Z) : decimal z <> "".
Proof.
  unfold decimal. destruct z as [|p|p]; cbn; try discriminate.
  unfold NilZero.string_of_uint.
  destruct (Pos.to_uint p) eqn:E; discriminate.
Qed.

Lemma append_assoc (a b c : string) : (a ++ b) ++ c = a ++ (b ++ c).
Proof. induction a as [|x r IH]; cbn; [reflexivity | now rewrite IH]. Qed.

Lemma append_nil_r (a : string) : a ++ "" = a.
Proof. induction a as [|x r IH]; cbn; [reflexivity | now rewrite IH]. Qed.

Lemma string_of_revapp (l acc : Decimal.uint) :
  NilEmpty.string_of_uint (Decimal.revapp l acc)
  = NilEmpty.string_of_uint (Decimal.revapp l Decimal.Nil)
    ++ NilEmpty.string_of_uint acc.
Proof.
  revert acc. induction l; intros acc; cbn [Decimal.revapp];
    try reflexivity;
    rewrite IHl; symmetry; rewrite IHl; cbn [NilEmpty.string_of_uint];
    rewrite append_assoc; reflexivity.
Qed.

Lemma to_uint_nonnil_pos (p : positive) : Pos.to_uint p <> Decimal.Nil.
Proof.
  intros H. pose proof (DecimalPos.Unsigned.of_to p) as E.
  rewrite H in E. discriminate.
Qed.

(** Multiplying by ten appends a zero to the numeral. *)
Lemma decimal_tenfold (z : Z) :
  (0 < z)%Z -> decimal (10 * z) = decimal z ++ "0".
Proof.
  intros Hz. destruct z as [|p|p]; try lia.
  change (10 * Z.pos p)%Z with (Z.pos (10 * p)).
  unfold decimal. cbn [Z.to_int NilZero.string_of_int].
  assert (E : Pos.to_uint (10 * p)
              = Decimal.revapp (Pos.to_little_uint p)
                  (Decimal.D0 Decimal.Nil)).
  { unfold Pos.to_uint, Decimal.rev.
    pose proof (DecimalPos.Unsigned.to_ldec_tenfold p) as T.
    cbn [N.mul DecimalPos.Unsigned.to_lu] in T.
    change (Pos.to_little_uint (10 * p)
            = Decimal.D0 (Pos.to_little_uint p)) in T.
    rewrite T. reflexivity. }
  assert (N1 : Pos.to_uint (10 * p) <> Decimal.Nil)
    by apply to_uint_nonnil_pos.
  assert (N2 : Pos.to_uint p <> Decimal.Nil) by apply to_uint_nonnil_pos.
  assert (S : forall d, d <> Decimal.Nil ->
                        NilZero.string_of_uint d
                        = NilEmpty.string_of_uint d)
    by (intros d Hd; destruct d; try reflexivity; contradiction).
  rewrite (S _ N1), (S _ N2), E, string_of_revapp. reflexivity.
Qed.

Lemma zeros_snoc (n : nat) : zeros n ++ "0" = zeros (S n).
Proof. induction n as [|k IH]; cbn; [reflexivity | now rewrite IH]. Qed.

Lemma decimal_shift (s : Z) (j : nat) :
  (1 <= s)%Z -> decimal (s * 10 ^ Z.of_nat j) = decimal s ++ zeros j.
Proof.
  intros Hs. induction j as [|k IH].
  - cbn [zeros]. rewrite append_nil_r. f_equal. cbn. lia.
  - rewrite Nat2Z.inj_succ, Z.pow_succ_r by lia.
    replace (s * (10 * 10 ^ Z.of_nat k))%Z
      with (10 * (s * 10 ^ Z.of_nat k))%Z by ring.
    rewrite decimal_tenfold, IH, append_assoc, zeros_snoc; [reflexivity|].
    assert (0 < 10 ^ Z.of_nat k)%Z by (apply Z.pow_pos_nonneg; lia). nia.
Qed.

(* ================================================================== *)
(** * formatTime *)
(* ================================================================== *)

Lemma round64_nonneg (a : Q) :
  (0 <= a)%Q ->
  round64 a = PInf
  \/ exists y,
       round64 a = Fin y /\ (0 <= y)%Q
       /\ ((Qfloor y < 2 ^ 1024)%Z ->
           round64 (inject_Z (Qfloor y)) = Fin (inject_Z (Qfloor y)))
       /\ (forall k, (-1022 <= k)%Z -> (pow2 k <= a)%Q -> (pow2 k <= y)%Q).
Proof.
  intros Ha. unfold round64 at 1 2, Qsign.
  destruct (Qcompare_spec a 0) as [E | E | E]; [|lra|].
  - right. exists 0%Q. split; [reflexivity|]. split; [lra|].
    split; [intros _; reflexivity|].
    intros k _ Hk. pose proof (pow2_pos k). lra.
  - destruct (round64_pos_sign a E) as [R | (y & R & Hy)];
      [left; exact R | right].
    exists y. split; [exact R|]. split; [exact Hy|]. split.
    + apply (round64_floor a y E R).
    + intros k Hk Hka.
      destruct (round64_pos_lower a k Hk Hka) as [R' | (y' & R' & Hy')];
        rewrite R in R'; [discriminate|].
      injection R' as ->. exact Hy'.
Qed.

Lemma round64_upper (a : Q) (k : Z) :
  (-1074 <= k <= 1023)%Z -> (0 <= a)%Q -> (a < pow2 k)%Q ->
  exists y, round64 a = Fin y /\ (0 <= y <= pow2 k)%Q.
Proof.
  intros Hk Ha Hak. unfold round64, Qsign.
  destruct (Qcompare_spec a 0) as [E | E | E]; [|lra|].
  - exists 0%Q. split; [reflexivity|]. pose proof (pow2_pos k). lra.
  - destruct (round64_pos_upper a k Hk E Hak) as (y & R & Hy).
    exists y. split; assumption.
Qed.

Lemma roundHalfEven_mono (r r' : Q) :
  (r <= r')%Q -> (roundHalfEven r <= roundHalfEven r')%Z.
Proof.
  intros H. pose proof (Qfloor_resp_le _ _ H) as F.
  destruct (Z.eq_dec (Qfloor r) (Qfloor r')) as [E | E].
  - unfold roundHalfEven. rewrite <- E.
    destruct (Qcompare_spec (r - inject_Z (Qfloor r)) (1 # 2)) as [A|A|A];
      destruct (Qcompare_spec (r' - inject_Z (Qfloor r)) (1 # 2))
        as [B|B|B];
      try destruct (Z.even (Qfloor r)); try lia; lra.
  - assert (A : (roundHalfEven r <= Qfloor r + 1)%Z).
    { unfold roundHalfEven.
      destruct (_ ?= _)%Q; [destruct (Z.even _)| |]; lia. }
    assert (B : (Qfloor r' <= roundHalfEven r')%Z).
    { unfold roundHalfEven.
      destruct (_ ?= _)%Q; [destruct (Z.even _)| |]; lia. }
    lia.
Qed.

(** Rounding to nearest is monotone. *)
Lemma round64_pos_mono (x y vy : Q) :
  (0 < x)%Q -> (x <= y)%Q -> round64_pos y = Fin vy ->
  exists vx, round64_pos x = Fin vx /\ (0 <= vx <= vy)%Q.
Proof.
  intros Hx Hxy Ry.
  assert (Hy : (0 < y)%Q) by lra.
  destruct (ilog2_spec x Hx) as [Lx Ux].
  destruct (ilog2_spec y Hy) as [Ly Uy].
  destruct (round64_pos_form x Hx)
    as (mx & qx & Eqx & Emx & [Mx0 Mx1] & _ & Ex).
  destruct (round64_pos_form y Hy)
    as (my & qy & Eqy & Emy & [My0 My1] & My2 & Ey).
  rewrite Ey in Ry.
  destruct (Qle_bool (pow2 1024) (inject_Z my * pow2 qy)) eqn:Oy;
    [discriminate|].
  apply Qle_bool_false_iff in Oy.
  set (wy := Qred (inject_Z my * pow2 qy)) in *.
  injection Ry as <-. subst wy.
  assert (Hexp : (ilog2 x <= ilog2 y)%Z).
  { assert (ilog2 x < ilog2 y + 1)%Z by (apply pow2_lt_inv; lra). lia. }
  assert (Hle : (inject_Z mx * pow2 qx <= inject_Z my * pow2 qy)%Q).
  { destruct (Z.eq_dec qx qy) as [E | E].
    - rewrite E in *. pose proof (pow2_pos qy) as P.
      assert (M : (mx <= my)%Z).
      { rewrite Emx, Emy. apply roundHalfEven_mono.
        apply Qle_shift_div_l; [exact P|].
        assert (T : (x / pow2 qy * pow2 qy == x)%Q) by (field; lra).
        rewrite T. exact Hxy. }
      rewrite Zle_Qle in M. nra.
    - assert (Hq : qy = (ilog2 y - 52)%Z) by lia.
      specialize (My2 Hq).
      assert (A : (inject_Z mx * pow2 qx <= pow2 (53 + qx))%Q).
      { rewrite (pow2_split 53 qx) by lia.
        rewrite Zle_Qle in Mx1. pose proof (pow2_pos qx). nra. }
      assert (B : (pow2 (53 + qx) <= pow2 (52 + qy))%Q)
        by (apply pow2_le; lia).
      assert (C : (pow2 (52 + qy) <= inject_Z my * pow2 qy)%Q).
      { rewrite (pow2_split 52 qy) by lia.
        rewrite Zle_Qle in My2. pose proof (pow2_pos qy). nra. }
      lra. }
  assert (Ox : Qle_bool (pow2 1024) (inject_Z mx * pow2 qx) = false)
    by (apply Qle_bool_false_iff; lra).
  rewrite Ex, Ox. eexists. split; [reflexivity|].
  rewrite !Qred_correct. split; [|exact Hle].
  apply Qmult_le_0_compat; [|pose proof (pow2_pos qx); lra].
  change 0%Q with (inject_Z 0). rewrite <- Zle_Qle. exact Mx0.
Qed.

Lemma round64_mono (x c : Q) :
  (0 <= x)%Q -> (x <= c)%Q -> round64 c = Fin c ->
  exists y, round64 x = Fin y /\ (0 <= y <= c)%Q.
Proof.
  intros Hx Hxc Rc. unfold round64, Qsign in *.
  destruct (Qcompare_spec x 0) as [E | E | E]; [|lra|].
  - exists 0%Q. split; [reflexivity | lra].
  - assert (Hc : (0 < c)%Q) by lra.
    rewrite (proj1 (Qgt_alt _ _) Hc) in Rc.
    exact (round64_pos_mono x c c E Hxc Rc).
Qed.

(** A binary64 value below 6e22 is at most the binary64 value just below
    it. *)
Lemma below_6e22 (q : Q) :
  (0 <= q)%Q -> round64 q = Fin q -> (q < inject_Z (6 * 10 ^ 22))%Q ->
  (q <= inject_Z (6 * 10 ^ 22 - 2 ^ 23))%Q.
Proof.
  intros Hq Rq Hlt.
  destruct (Qlt_le_dec q (pow2 75)) as [S | L].
  - assert (G : (pow2 75 <= inject_Z (6 * 10 ^ 22 - 2 ^ 23))%Q).
    { rewrite (pow2_Z 75) by lia. rewrite <- Zle_Qle.
      vm_compute. discriminate. }
    lra.
  - assert (Hpos : (0 < q)%Q) by (pose proof (pow2_pos 75); lra).
    assert (He : ilog2 q = 75%Z).
    { apply ilog2_unique. split; [exact L|].
      assert (G : (inject_Z (6 * 10 ^ 22) < pow2 (75 + 1))%Q).
      { rewrite (pow2_Z (75 + 1)) by lia. rewrite <- Zlt_Qlt.
        vm_compute. reflexivity. }
      lra. }
    unfold round64, Qsign in Rq. rewrite (proj1 (Qgt_alt _ _) Hpos) in Rq.
    destruct (round64_pos_form q Hpos) as (m & e & Ee & _ & _ & _ & E).
    rewrite He in Ee. change (Z.max (75 - 52) (-1074)) with 23%Z in Ee.
    subst e. rewrite E in Rq.
    destruct (Qle_bool _ _); [discriminate|].
    assert (Eq : (q == inject_Z (m * 2 ^ 23))%Q).
    { set (w := Qred (inject_Z m * pow2 23)) in *.
      injection Rq as Rq. rewrite <- Rq at 1. subst w.
      rewrite Qred_correct, inject_Z_mult, (pow2_Z 23) by lia.
      reflexivity. }
    rewrite Eq in Hlt |- *. rewrite <- Zlt_Qlt in Hlt. rewrite <- Zle_Qle.
    assert (N : (6 * 10 ^ 22 = 7152557373046875 * 2 ^ 23)%Z)
      by (vm_compute; reflexivity).
    rewrite N in *. lia.
Qed.

(** The minute count of a binary64 time below 6e22 seconds is below
    10^21. *)
Lemma minutes_below_6e22 (q : Q) :
  (0 <= q)%Q -> round64 q = Fin q -> (q < inject_Z (6 * 10 ^ 22))%Q ->
  ltb (Math_floor (fdiv (Fin q) (Fin 60))) (Fin (inject_Z (10 ^ 21))) = true.
Proof.
  intros Hq Rq Hlt.
  pose proof (below_6e22 q Hq Rq Hlt) as Hle.
  assert (Ediv : fdiv (Fin q) (Fin 60) = round64 (Qred (q / 60)))
    by reflexivity.
  set (c := inject_Z (7629394531249999 * 2 ^ 17)).
  assert (Rc : round64 c = Fin c).
  { subst c. apply round64_int; [|lia|];
      vm_compute; split || idtac; congruence || reflexivity. }
  assert (Ha : (0 <= Qred (q / 60))%Q).
  { rewrite Qred_correct. apply Qle_shift_div_l; lra. }
  assert (Hb : (Qred (q / 60) <= c)%Q).
  { rewrite Qred_correct. apply Qle_shift_div_r; [reflexivity|].
    subst c.
    assert (G : (inject_Z (6 * 10 ^ 22 - 2 ^ 23)
                 <= inject_Z (7629394531249999 * 2 ^ 17) * 60)%Q)
      by (vm_compute; discriminate).
    lra. }
  destruct (round64_mono _ c Ha Hb Rc) as (y & R & Hy0 & Hy1).
  rewrite Ediv, R. cbn [Math_floor]. apply Qltb_iff.
  pose proof (Qfloor_le y) as F.
  assert (G : (c < inject_Z (10 ^ 21))%Q)
    by (subst c; rewrite <- Zlt_Qlt; vm_compute; reflexivity).
  lra.
Qed.

(** [String] on the integers that [formatTime] converts. *)
Lemma String_int (M : Z) :
  (0 <= M < 10 ^ 21)%Z ->
  round64 (inject_Z M) = Fin (inject_Z M) ->
  digitsOnly (String_ (Fin (inject_Z M))) = true
  /\ String_ (Fin (inject_Z M)) <> ""
  /\ ((M < 2 ^ 53)%Z -> String_ (Fin (inject_Z M)) = decimal M).
Proof.
  intros HM Hrep. unfold String_. rewrite Hrep.
  destruct (Z.eq_dec M 0) as [-> | Hne].
  { change (Qsign (inject_Z 0)) with Eq. cbv iota.
    split; [reflexivity|]. split; [discriminate|]. intros _. reflexivity. }
  assert (HM1 : (1 <= M < 10 ^ 21)%Z) by lia.
  assert (Hpos : (0 < inject_Z M)%Q).
  { change 0%Q with (inject_Z 0). rewrite <- Zlt_Qlt. lia. }
  rewrite (Qsign_pos _ Hpos).
  destruct (toStringPos_int M HM1 Hrep) as (s & j & Hs & Hj & E & _).
  split; [|split].
  - rewrite E, digitsOnly_app, digitsOnly_decimal, digitsOnly_zeros by lia.
    reflexivity.
  - rewrite E. pose proof (decimal_nonempty s) as N.
    destruct (decimal s); [contradiction | discriminate].
  - intros Hsafe.
    destruct (toStringPos_safe_int M HM1 Hrep Hsafe)
      as (s' & j' & Hs' & Hj' & E' & EM).
    rewrite E', EM. rewrite <- (Z2Nat.id j') at 2 by exact Hj'.
    symmetry. apply decimal_shift. exact Hs'.
Qed.

Lemma pad2_String (z : Z) :
  (0 <= z < 100)%Z ->
  padStart 2 "0" (String_ (Fin (inject_Z z))) = twoDigits z.
Proof.
  intros Hz.
  assert (Hall : forallb (fun n => String.eqb
                   (padStart 2 "0" (String_ (Fin (inject_Z (Z.of_nat n)))))
                   (twoDigits (Z.of_nat n))) (seq 0 100) = true)
    by (vm_compute; reflexivity).
  rewrite forallb_forall in Hall.
  specialize (Hall (Z.to_nat z)).
  rewrite Z2Nat.id in Hall by lia.
  apply String.eqb_eq, Hall, in_seq. lia.
Qed.

Lemma floor_rem_nonneg (q : Q) (b : Z) :
  (0 <= q)%Q -> (0 < b)%Z ->
  Math_floor (rem (Fin q) (Fin (inject_Z b)))
  = Fin (inject_Z (Qfloor q mod b)).
Proof.
  intros Hq Hb.
  assert (Hbq : (0 < inject_Z b)%Q)
    by (change (inject_Z 0 < inject_Z b)%Q; rewrite <- Zlt_Qlt; exact Hb).
  unfold rem. rewrite (Qsign_pos _ Hbq). unfold Math_floor.
  do 2 f_equal.
  rewrite (Qfloor_comp _ _ (Qred_correct _)).
  rewrite Qtrunc_nonneg.
  2:{ apply Qle_shift_div_l; [exact Hbq | lra]. }
  rewrite Qfloor_div_pos by exact Hb.
  rewrite <- inject_Z_mult, Qfloor_sub_Z.
  rewrite Z.mod_eq by lia. reflexivity.
Qed.

(** C7, the claim as stated fails: from 6e22 seconds on the minute count
    reaches 10^21, which [String] writes in exponent notation. *)
Lemma formatTime_counterexample :
  isFinite (literal (inject_Z (6 * 10 ^ 22))) = true
  /\ ltb (literal (inject_Z (6 * 10 ^ 22))) (Fin 0) = false
  /\ formatTime (literal (inject_Z (6 * 10 ^ 22))) = "1e+21:00.04".
Proof.
  split; [vm_compute; reflexivity|].
  split; vm_compute; reflexivity.
Qed.

(** C7, amended.  [formatTime] gives "00:00.00" for NaN and for every
    negative input, [formatTime(-1)] included, and [formatTime(125.4)] is
    "02:05.40".  For a finite [t >= 0] whose minute count, the floor of
    the binary64 quotient [t / 60], is below 10^21, the text is
    [M:SS.CC]: [SS] is [floor(t) mod 60] and [CC] is the floor of
    [(t * 100) % 100], the product being rounded to binary64, each written
    with exactly two digits; [M] is the minute count as [String] writes
    it, which is a text of decimal digits, padded with a zero to two
    digits; it is the decimal numeral of the count when that is below
    2^53, hence two digits exactly below 100 minutes.  Every binary64
    [t] with [0 <= t < 6e22] has such a minute count, and 6e22 itself has
    not.  The rounding of the product shows: 0.29 is rendered with 28
    hundredths and 0.03, although below 3/100, with 3. *)
Theorem formatTime_renders :
  formatTime NaN = "00:00.00"
  /\ formatTime (Fin (-1)) = "00:00.00"
  /\ formatTime (literal (1254 # 10)) = "02:05.40"
  /\ (forall t, ltb t (Fin 0) = true -> formatTime t = "00:00.00")
  /\ (forall q, (0 <= q)%Q ->
        ltb (Math_floor (fdiv (Fin q) (Fin 60))) (Fin (inject_Z (10 ^ 21)))
        = true ->
        exists M cs : Z,
          Math_floor (fdiv (Fin q) (Fin 60)) = Fin (inject_Z M)
          /\ Math_floor (rem (fmul (Fin q) (Fin 100)) (Fin 100))
             = Fin (inject_Z cs)
          /\ (0 <= M < 10 ^ 21)%Z /\ (0 <= cs < 100)%Z
          /\ formatTime (Fin q)
             = padStart 2 "0" (String_ (Fin (inject_Z M))) ++ ":"
               ++ twoDigits (Qfloor q mod 60) ++ "." ++ twoDigits cs
          /\ digitsOnly (String_ (Fin (inject_Z M))) = true
          /\ String_ (Fin (inject_Z M)) <> ""
          /\ ((M < 2 ^ 53)%Z -> String_ (Fin (inject_Z M)) = decimal M)
          /\ ((M < 100)%Z ->
              padStart 2 "0" (String_ (Fin (inject_Z M))) = twoDigits M))
  /\ (forall q, (0 <= q)%Q -> round64 q = Fin q ->
        (q < inject_Z (6 * 10 ^ 22))%Q ->
        ltb (Math_floor (fdiv (Fin q) (Fin 60))) (Fin (inject_Z (10 ^ 21)))
        = true)
  /\ formatTime (literal (29 # 100)) = "00:00.28"
  /\ formatTime (literal (3 # 100)) = "00:00.03"
  /\ ltb (literal (3 # 100)) (Fin (3 # 100)) = true.
Proof.
  split; [reflexivity|].
  split; [vm_compute; reflexivity|].
  split; [vm_compute; reflexivity|].
  split.
  { intros t Ht. unfold formatTime. rewrite Ht, orb_true_r. reflexivity. }
  split.
  2:{ split; [exact minutes_below_6e22|].
      split; [vm_compute; reflexivity|].
      split; vm_compute; reflexivity. }
  intros q Hq Hmin.
  assert (Hlt : ltb (Fin q) (Fin 0) = false)
    by (apply Qltb_false_iff; exact Hq).
  assert (Ediv : fdiv (Fin q) (Fin 60) = round64 (Qred (q / 60)))
    by reflexivity.
  assert (Emul : fmul (Fin q) (Fin 100) = round64 (Qred (q * 100)))
    by reflexivity.
  assert (Ha : (0 <= Qred (q / 60))%Q).
  { rewrite Qred_correct. apply Qle_shift_div_l; lra. }
  rewrite Ediv in Hmin.
  destruct (round64_nonneg _ Ha) as [R | (y & R & Hy & Hrep & Hlow)];
    rewrite R in Hmin; [discriminate|].
  cbn [Math_floor] in Hmin. apply Qltb_iff in Hmin.
  rewrite <- Zlt_Qlt in Hmin.
  set (M := Qfloor y) in *.
  assert (HM0 : (0 <= M)%Z).
  { subst M. rewrite <- (Qfloor_Z 0). apply Qfloor_resp_le. exact Hy. }
  assert (Hbig : (10 ^ 21 < 2 ^ 70)%Z /\ (2 ^ 70 < 2 ^ 1024)%Z)
    by (split; vm_compute; reflexivity).
  assert (HrepM : round64 (inject_Z M) = Fin (inject_Z M))
    by (apply Hrep; lia).
  assert (Hy70 : (y < pow2 70)%Q).
  { pose proof (Qlt_floor y) as F. fold M in F.
    assert (G : (inject_Z (M + 1) <= inject_Z (2 ^ 70))%Q)
      by (rewrite <- Zle_Qle; lia).
    rewrite (pow2_Z 70) by lia. lra. }
  assert (Ha70 : (Qred (q / 60) < pow2 70)%Q).
  { destruct (Qlt_le_dec (Qred (q / 60)) (pow2 70)) as [L | G];
      [exact L|].
    pose proof (Hlow 70%Z ltac:(lia) G). lra. }
  assert (Hq83 : (Qred (q * 100) < pow2 83)%Q).
  { rewrite Qred_correct in *.
    assert (E70 : (pow2 70 == 1180591620717411303424)%Q) by reflexivity.
    assert (E83 : (pow2 83 == 9671406556917033397649408)%Q) by reflexivity.
    rewrite E70 in Ha70. rewrite E83.
    assert (E60 : (q == q / 60 * 60)%Q) by field.
    set (z := (q / 60)%Q) in *. lra. }
  assert (Hq0 : (0 <= Qred (q * 100))%Q) by (rewrite Qred_correct; lra).
  destruct (round64_upper _ 83 ltac:(lia) Hq0 Hq83) as (y2 & R2 & Hy2 & _).
  exists M, (Qfloor y2 mod 100)%Z.
  assert (Ecs : Math_floor (rem (fmul (Fin q) (Fin 100)) (Fin 100))
                = Fin (inject_Z (Qfloor y2 mod 100))).
  { rewrite Emul, R2. apply (floor_rem_nonneg y2 100); [exact Hy2 | lia]. }
  assert (Esec : Math_floor (rem (Fin q) (Fin 60))
                 = Fin (inject_Z (Qfloor q mod 60)))
    by (apply (floor_rem_nonneg q 60); [exact Hq | lia]).
  assert (Hcs : (0 <= Qfloor y2 mod 100 < 100)%Z)
    by (apply Z.mod_pos_bound; lia).
  assert (Hsec : (0 <= Qfloor q mod 60 < 100)%Z)
    by (pose proof (Z.mod_pos_bound (Qfloor q) 60); lia).
  destruct (String_int M ltac:(lia) HrepM) as (D1 & D2 & D3).
  split; [rewrite Ediv, R; reflexivity|].
  split; [exact Ecs|].
  split; [lia|]. split; [exact Hcs|].
  split.
  { unfold formatTime. rewrite Hlt. cbn [isNaN orb].
    rewrite Ecs, Esec, Ediv, R. cbn [Math_floor]. fold M.
    rewrite (pad2_String _ Hcs), (pad2_String _ Hsec). reflexivity. }
  split; [exact D1|]. split; [exact D2|]. split; [exact D3|].
  intros H100. apply pad2_String. lia.
Qed.

Lemma formatTime_renders_witness :
  exists M cs : Z,
    (0 <= M < 10 ^ 21)%Z /\ (0 <= cs < 100)%Z
    /\ formatTime (Fin (151 # 2))
       = padStart 2 "0" (String_ (Fin (inject_Z M))) ++ ":"
         ++ twoDigits (Qfloor (151 # 2) mod 60) ++ "." ++ twoDigits cs
    /\ digitsOnly (String_ (Fin (inject_Z M))) = true.
Proof.
  assert (Hq : (0 <= 151 # 2)%Q) by discriminate.
  assert (Hm : ltb (Math_floor (fdiv (Fin (151 # 2)) (Fin 60)))
                 (Fin (inject_Z (10 ^ 21))) = true)
    by (vm_compute; reflexivity).
  destruct (proj1 (proj2 (proj2 (proj2 (proj2 formatTime_renders))))
              (151 # 2) Hq Hm)
    as (M & cs & _ & _ & A & B & C & D & _).
  exists M, cs. repeat split; try assumption; apply A || apply B.
Defined.

(* ================================================================== *)
(** * Timeline: the pointer-to-time mapping *)
(* ================================================================== *)

Lemma Qeqb_false_iff x y : Qeqb x y = false <-> ~ (x == y)%Q.
Proof.
  rewrite <- Qeqb_iff. destruct (Qeqb x y); split; intros H;
    solve [discriminate | reflexivity | exfalso; apply H; reflexivity].
Qed.

(** The clamped fraction computed by [getSeekTime], for a finite quotient. *)
Lemma clamp_Fin (y : Q) :
  Math_max (Fin 0) (Math_min (Fin 1) (Fin y))
  = Fin (if Qltb y 1 then (if Qltb 0 y then y else 0) else 1).
Proof.
  unfold Math_min, Math_max, ltb.
  destruct (Qltb y 1) eqn:H1.
  - destruct (Qltb 0 y); reflexivity.
  - reflexivity.
Qed.

(** C8, where the program departs from it: the guard of [getSeekTime]
    tests the track element and the duration but not the width of the
    track.  On a track of width zero, with a duration that is not zero, the
    quotient is a division by zero: a pointer to the right of the left edge
    maps to the whole duration, a pointer on the left edge maps to NaN, and
    seeking there throws; only a pointer to the left of the edge maps
    to 0. *)
Theorem getSeekTime_zero_width (l cx dq : Q) :
  eqb (Fin dq) (Fin 0) = false ->
  let t := getSeekTime (Some {| left := l; width := 0 |}) (Fin dq)
             {| clientX := cx |} in
  ((l < cx)%Q ->
   (exists q, t = Fin q /\ (q == dq)%Q) /\ eqb t (Fin 0) = false)
  /\ ((cx == l)%Q -> t = NaN /\ forall s, handleSeek t s = None)
  /\ ((cx < l)%Q -> exists q, t = Fin q /\ (q == 0)%Q).
Proof.
  intros Hd t. subst t. unfold getSeekTime. rewrite Hd.
  cbn [left width clientX]. unfold sub, div.
  change (Qsign 0) with Eq. unfold Qsign.
  split; [|split]; intros H.
  - assert (E : (Qred (cx - l) ?= 0)%Q = Gt)
      by (rewrite Qred_correct; apply (proj1 (Qgt_alt _ _)); lra).
    rewrite E. cbn [Math_min Math_max ltb mul].
    change (Qltb 0 1) with true. cbn [mul]. split.
    + exists (Qred (1 * dq)). split; [reflexivity|].
      rewrite Qred_correct. ring.
    + unfold eqb in *. apply Qeqb_false_iff in Hd. apply Qeqb_false_iff.
      rewrite Qred_correct. intros E'. apply Hd. rewrite <- E'. ring.
  - assert (E : (Qred (cx - l) ?= 0)%Q = Eq)
      by (rewrite Qred_correct; apply (proj1 (Qeq_alt _ _)); rewrite H; ring).
    rewrite E. split; reflexivity.
  - assert (E : (Qred (cx - l) ?= 0)%Q = Lt)
      by (rewrite Qred_correct; apply (proj1 (Qlt_alt _ _)); lra).
    rewrite E. cbn [Math_min Math_max ltb mul].
    exists (Qred (0 * dq)). split; [reflexivity|].
    rewrite Qred_correct. ring.
Qed.

Lemma getSeekTime_zero_width_witness :
  (exists q,
     getSeekTime (Some {| left := 0; width := 0 |}) (Fin 100)
       {| clientX := 10 |} = Fin q /\ (q == 100)%Q)
  /\ eqb (getSeekTime (Some {| left := 0; width := 0 |}) (Fin 100)
            {| clientX := 10 |}) (Fin 0) = false.
Proof.
  exact (proj1 (getSeekTime_zero_width 0 10 100 eq_refl) eq_refl).
Defined.

(* ================================================================== *)
(** * Order on numbers *)
(* ================================================================== *)

Lemma leb_Fin_iff x y : leb (Fin x) (Fin y) = true <-> (x <= y)%Q.
Proof.
  unfold leb, ltb, eqb. rewrite orb_true_iff, Qltb_iff, Qeqb_iff.
  split; [intros [H|H]; lra|].
  intros H. destruct (Qlt_le_dec x y); [left; assumption | right; lra].
Qed.

Lemma ltb_Fin_iff x y : ltb (Fin x) (Fin y) = true <-> (x < y)%Q.
Proof. apply Qltb_iff. Qed.

Lemma Qeqb_refl x : Qeqb x x = true.
Proof. apply Qeqb_iff. reflexivity. Qed.

Lemma same_refl a : same a a = true.
Proof. destruct a; simpl; try reflexivity. apply Qeqb_refl. Qed.

Lemma sameId_refl a : sameId a a = true.
Proof. destruct a; simpl; [apply String.eqb_refl | reflexivity]. Qed.

Lemma ltb_NaN_r a : ltb a NaN = false.
Proof. destruct a; reflexivity. Qed.

Lemma ltb_not_geb a b : ltb a b = true -> geb a b = false.
Proof.
  unfold geb. destruct a, b; simpl; try discriminate; try reflexivity.
  intros H. apply Qltb_iff in H. apply orb_false_iff. split.
  - apply Qltb_false_iff. lra.
  - apply Qeqb_false_iff. lra.
Qed.

Lemma validRange_iff d a b :
  validRange d a b = true
  <-> leb (Fin 0) a = true /\ ltb a b = true /\ leb b d = true.
Proof.
  unfold validRange. rewrite !andb_true_iff. tauto.
Qed.

(** The lower bound of a valid range is finite and lies within the media. *)
Lemma validRange_start d a b :
  validRange d a b = true ->
  isFinite a = true /\ leb a d = true /\ leb (Fin 0) d = true.
Proof.
  rewrite validRange_iff. intros (H0 & H1 & H2).
  destruct a as [| | |a]; try discriminate;
    destruct b as [| | |b]; try discriminate;
    destruct d as [| | |d]; try discriminate;
    repeat split; try reflexivity;
    apply leb_Fin_iff in H0; apply ltb_Fin_iff in H1;
    apply leb_Fin_iff in H2; apply leb_Fin_iff; lra.
Qed.

Lemma clamp_cases (y : num) :
  Math_max (Fin 0) (Math_min (Fin 1) y) = NaN
  \/ exists p, Math_max (Fin 0) (Math_min (Fin 1) y) = Fin p
               /\ (0 <= p <= 1)%Q.
Proof.
  destruct y as [| | |y].
  - left. reflexivity.
  - right. exists 1%Q. split; [reflexivity | lra].
  - right. exists 0%Q. split; [reflexivity | lra].
  - right. rewrite clamp_Fin. eexists. split; [reflexivity|].
    destruct (Qltb y 1) eqn:H1;
      [apply Qltb_iff in H1 | apply Qltb_false_iff in H1]; [|lra].
    destruct (Qltb 0 y) eqn:H0;
      [apply Qltb_iff in H0 | apply Qltb_false_iff in H0]; lra.
Qed.

(** Whatever the pointer and the track geometry, the time computed by
    [getSeekTime] is NaN or lies within [0, duration]. *)
Lemma getSeekTime_range (r : option DOMRect) (d : num) (e : MouseEvent) :
  leb (Fin 0) d = true ->
  getSeekTime r d e = NaN
  \/ (leb (Fin 0) (getSeekTime r d e) = true
      /\ leb (getSeekTime r d e) d = true).
Proof.
  intros Hd. unfold getSeekTime.
  destruct r as [rect|]; [|right; split; [reflexivity | exact Hd]].
  destruct (eqb d (Fin 0)); [right; split; [reflexivity | exact Hd]|].
  destruct (clamp_cases (div (sub (Fin (clientX e)) (Fin (left rect)))
                           (Fin (width rect)))) as [E | (p & E & Hp)];
    rewrite E; [left; reflexivity|].
  destruct d as [| | |dq]; try discriminate.
  - unfold mul, Qsign. destruct (Qcompare_spec p 0) as [H|H|H].
    + left; reflexivity.
    + lra.
    + right. split; reflexivity.
  - right. apply leb_Fin_iff in Hd. unfold mul.
    split; apply leb_Fin_iff; rewrite Qred_correct; nra.
Qed.

(* ================================================================== *)
(** * Rendering leaves everything but the step list alone *)
(* ================================================================== *)

Lemma syncActiveStep_frame (s : VideoPlayer) :
  video (syncActiveStep s) = video s
  /\ duration (syncActiveStep s) = duration s
  /\ loopStart (syncActiveStep s) = loopStart s
  /\ loopEnd (syncActiveStep s) = loopEnd s
  /\ isLooping (syncActiveStep s) = isLooping s
  /\ activeStepId (syncActiveStep s) = activeStepId s
  /\ timeline (syncActiveStep s) = timeline s.
Proof.
  unfold syncActiveStep. destruct (activeStepId s) as [a|] eqn:E.
  - destruct (truthy a); cbn; rewrite ?E; repeat split; reflexivity.
  - rewrite E. repeat split; reflexivity.
Qed.

Lemma commit_frame (old new : VideoPlayer) :
  video (commit old new) = video new
  /\ duration (commit old new) = duration new
  /\ loopStart (commit old new) = loopStart new
  /\ loopEnd (commit old new) = loopEnd new
  /\ isLooping (commit old new) = isLooping new
  /\ activeStepId (commit old new) = activeStepId new
  /\ timeline (commit old new) = timeline new.
Proof.
  unfold commit. destruct (syncDepsChanged old new).
  - apply syncActiveStep_frame.
  - repeat split; reflexivity.
Qed.

Lemma commit_same (s : VideoPlayer) : commit s s = s.
Proof.
  unfold commit, syncDepsChanged.
  rewrite !same_refl, sameId_refl. reflexivity.
Qed.

Lemma LoopInv_commit old new : LoopInv (commit old new) = LoopInv new.
Proof.
  unfold LoopInv.
  destruct (commit_frame old new) as (_ & -> & -> & -> & _). reflexivity.
Qed.

Lemma PosInv_commit old new : PosInv (commit old new) = PosInv new.
Proof.
  unfold PosInv.
  destruct (commit_frame old new) as (-> & -> & _). reflexivity.
Qed.

(* ================================================================== *)
(** * The loop range along a run *)
(* ================================================================== *)

Lemma PosInv_iff s :
  PosInv s = true
  <-> leb (Fin 0) (v_currentTime (video s)) = true
      /\ leb (v_currentTime (video s)) (duration s) = true.
Proof. unfold PosInv. apply andb_true_iff. Qed.

Lemma Inv_same_fields (s s' : VideoPlayer) :
  v_currentTime (video s') = v_currentTime (video s) ->
  duration s' = duration s ->
  loopStart s' = loopStart s ->
  loopEnd s' = loopEnd s ->
  Inv s -> Inv s'.
Proof.
  unfold Inv, LoopInv, PosInv. intros -> -> -> ->. tauto.
Qed.

(** Assigning the position a value within the media keeps [Inv]. *)
Lemma Inv_assign (s : VideoPlayer) (t : num) (v : HTMLVideoElement) :
  Inv s -> leb (Fin 0) t = true -> leb t (duration s) = true ->
  assign_currentTime t (video s) = Some v ->
  Inv (setVideo v s).
Proof.
  intros [HL HP] H0 H1 Ha. unfold assign_currentTime in Ha.
  destruct (isFinite t); [|discriminate]. injection Ha as <-.
  split; [exact HL|]. apply PosInv_iff. cbn. split; assumption.
Qed.

Lemma Inv_onSeek_getSeekTime (s : VideoPlayer) r e :
  Inv s -> Inv (onSeek (getSeekTime r (duration s) e) s).
Proof.
  intros HI. pose proof HI as [HL HP].
  destruct (validRange_start _ _ _ HL) as (_ & _ & Hd).
  unfold onSeek, handleSeek.
  destruct (assign_currentTime _ (video s)) as [v|] eqn:Ha; [|exact HI].
  destruct (getSeekTime_range r (duration s) e Hd) as [E | [H0 H1]].
  - rewrite E in Ha. discriminate.
  - pose proof (Inv_assign s _ v HI H0 H1 Ha) as [HL' HP'].
    split; [exact HL'|]. apply PosInv_iff. apply PosInv_iff in HP'.
    exact HP'.
Qed.

Lemma handle_keeps_Inv (s : VideoPlayer) (ev : Event) :
  Inv s -> expected s ev = true -> Inv (handle ev s).
Proof.
  intros HI Hev. pose proof HI as [HL HP].
  pose proof HL as HL'. apply validRange_iff in HL' as (Hs0 & Hse & Hed).
  pose proof HP as HP'. apply PosInv_iff in HP' as (Hp0 & Hpd).
  destruct (validRange_start _ _ _ HL) as (Hfin & Hsd & Hd).
  destruct ev; cbn [handle].
  - (* loadedmetadata *) discriminate.
  - (* timeupdate *)
    cbn [expected] in Hev. apply andb_true_iff in Hev as [Hq0 Hqd].
    set (s1 := setVideo (engine_report p (video s)) s).
    assert (HI1 : Inv s1).
    { split; [exact HL|]. apply PosInv_iff. subst s1. cbn.
      unfold engine_report. destruct (v_seeking (video s)); cbn;
        split; assumption. }
    unfold handleTimeUpdate.
    assert (HI2 : Inv (setCurrentTime (v_currentTime (video s1)) s1)).
    { destruct HI1 as [A B]. split; [exact A|]. apply PosInv_iff.
      apply PosInv_iff in B. exact B. }
    destruct (isLooping s1 && geb _ _); [|exact HI2].
    destruct (assign_currentTime (loopStart s1) (video s1)) as [v|] eqn:Ha;
      [|exact HI2].
    pose proof (Inv_assign s1 _ v HI1 Hs0 Hsd Ha) as [A B].
    split; [exact A|]. apply PosInv_iff. apply PosInv_iff in B. exact B.
  - (* seeked *) exact HI.
  - (* play / pause *)
    unfold togglePlayPause. destruct (v_paused (video s));
      (split; [exact HL|]; apply PosInv_iff; cbn; split; assumption).
  - (* reset to loop start *)
    unfold handleReset.
    destruct (assign_currentTime (loopStart s) (video s)) as [v|] eqn:Ha;
      [|exact HI].
    exact (Inv_assign s _ v HI Hs0 Hsd Ha).
  - (* toggle looping *) exact HI.
  - (* set start *)
    unfold handleSetLoopStart.
    destruct (ltb (v_currentTime (video s)) (loopEnd s)) eqn:Hlt; [|exact HI].
    split; [|exact HP]. apply validRange_iff. cbn. repeat split; assumption.
  - (* set end *)
    unfold handleSetLoopEnd, gtb.
    destruct (ltb (loopStart s) (v_currentTime (video s))) eqn:Hlt;
      [|exact HI].
    split; [|exact HP]. apply validRange_iff. cbn. repeat split; assumption.
  - (* speed *) exact HI.
  - (* click on the track *)
    unfold handleTimelineClick. apply Inv_onSeek_getSeekTime. exact HI.
  - (* pointer down *)
    destruct t; exact HI.
  - (* pointer move *)
    unfold handleMouseMove.
    destruct (isDraggingPlayhead (timeline s)).
    { apply Inv_onSeek_getSeekTime. exact HI. }
    destruct (getSeekTime_range timelineRef (duration s) e Hd)
      as [E | [H0 H1]].
    { rewrite E. cbn.
      destruct (isDraggingStart (timeline s)); [exact HI|].
      unfold gtb. rewrite ltb_NaN_r.
      destruct (isDraggingEnd (timeline s)); exact HI. }
    set (t := getSeekTime timelineRef (duration s) e) in *.
    destruct (isDraggingStart (timeline s)).
    { destruct (ltb t (loopEnd s)) eqn:Hlt; [|exact HI].
      split; [|exact HP]. apply validRange_iff. cbn.
      repeat split; assumption. }
    destruct (isDraggingEnd (timeline s)); [|exact HI].
    unfold gtb. destruct (ltb (loopStart s) t) eqn:Hlt; [|exact HI].
    split; [|exact HP]. apply validRange_iff. cbn. repeat split; assumption.
  - (* pointer up *) exact HI.
  - (* add a step *) exact HI.
  - (* play a step *)
    cbn [expected] in Hev.
    destruct (nth_error (steps s) n) as [st|]; [|exact HI].
    pose proof Hev as Hv. apply validRange_iff in Hv as (A0 & A1 & A2).
    destruct (validRange_start _ _ _ Hev) as (Bf & Bd & _).
    set (s1 := setIsLooping true (setLoopEnd (end_ st)
                 (setLoopStart (start st)
                   (setActiveStepId (Some (id st)) s)))).
    assert (HI1 : Inv s1).
    { split; [apply validRange_iff; cbn; repeat split; assumption|].
      apply PosInv_iff. cbn. split; assumption. }
    unfold handlePlayStep. fold s1. unfold handleSeek.
    destruct (assign_currentTime (start st) (video s1)) as [v|] eqn:Ha;
      [|exact HI1].
    pose proof (Inv_assign s1 _ v HI1 A0 Bd Ha) as HI2.
    assert (HI3 : Inv (setCurrentTime (start st) (setVideo v s1))).
    { revert HI2. apply Inv_same_fields; reflexivity. }
    destruct (v_paused _); [|exact HI3].
    revert HI3. apply Inv_same_fields;
      unfold togglePlayPause; destruct (v_paused _); reflexivity.
  - (* delete a step *)
    destruct (nth_error (steps s) n) as [st|]; [|exact HI].
    unfold handleDeleteStep.
    destruct (activeStepId s) as [a|]; [destruct (String.eqb a (id st))|];
      exact HI.
  - (* rename *)
    destruct (nth_error (steps s) n) as [st|]; [|exact HI].
    unfold handleNameBlur. destruct (String.eqb (trim text) ""); exact HI.
  - (* import *) exact HI.
Qed.

Lemma step_keeps_Inv (s : VideoPlayer) (ev : Event) :
  Inv s -> expected s ev = true -> Inv (step ev s).
Proof.
  intros HI Hev. destruct (handle_keeps_Inv s ev HI Hev) as [HL HP].
  unfold step. split.
  - rewrite LoopInv_commit. exact HL.
  - rewrite PosInv_commit. exact HP.
Qed.

Lemma trace_keeps_Inv (evs : list Event) :
  forall s, Inv s -> expectedRun s evs = true -> Forall Inv (trace evs s).
Proof.
  induction evs as [|ev rest IH]; intros s HI Hrun; cbn [trace].
  - constructor.
  - cbn [expectedRun] in Hrun. apply andb_true_iff in Hrun as [Hev Hrest].
    pose proof (step_keeps_Inv s ev HI Hev) as HI'.
    constructor; [exact HI' | apply IH; assumption].
Qed.

(** ** Before the metadata *)

Lemma eqb_zero_inv a :
  eqb a (Fin 0) = true -> exists q, a = Fin q /\ (q == 0)%Q.
Proof.
  destruct a as [| | |q]; try discriminate. intros H.
  exists q. split; [reflexivity | apply Qeqb_iff, H].
Qed.

Lemma zero_not_ltb a b :
  eqb a (Fin 0) = true -> eqb b (Fin 0) = true -> ltb a b = false.
Proof.
  intros Ha Hb.
  destruct (eqb_zero_inv a Ha) as (x & -> & Hx).
  destruct (eqb_zero_inv b Hb) as (y & -> & Hy).
  apply Qltb_false_iff. lra.
Qed.

Lemma zero_isFinite a : eqb a (Fin 0) = true -> isFinite a = true.
Proof. intros H. destruct (eqb_zero_inv a H) as (x & -> & _). reflexivity. Qed.

(** While the duration is 0 every pointer maps to 0. *)
Lemma getSeekTime_no_duration r d e :
  eqb d (Fin 0) = true -> getSeekTime r d e = Fin 0.
Proof.
  intros H. unfold getSeekTime. destruct r; [rewrite H|]; reflexivity.
Qed.

Lemma PreInv_same_fields (s s' : VideoPlayer) :
  v_currentTime (video s') = v_currentTime (video s) ->
  duration s' = duration s ->
  loopStart s' = loopStart s ->
  loopEnd s' = loopEnd s ->
  PreInv s -> PreInv s'.
Proof.
  unfold PreInv, zeroRange. intros -> -> -> ->. tauto.
Qed.

Lemma PreInv_assign (s : VideoPlayer) (t : num) (v : HTMLVideoElement) :
  PreInv s -> eqb t (Fin 0) = true ->
  assign_currentTime t (video s) = Some v ->
  PreInv (setVideo v s).
Proof.
  intros (HR & HD & HP) Ht Ha. unfold assign_currentTime in Ha.
  destruct (isFinite t); [|discriminate]. injection Ha as <-.
  repeat split; assumption.
Qed.

Lemma PreInv_onSeek_getSeekTime (s : VideoPlayer) r e :
  PreInv s -> PreInv (onSeek (getSeekTime r (duration s) e) s).
Proof.
  intros HI. pose proof HI as (HR & HD & HP).
  rewrite (getSeekTime_no_duration r _ e HD).
  unfold onSeek, handleSeek.
  destruct (assign_currentTime (Fin 0) (video s)) as [v|] eqn:Ha; [|exact HI].
  generalize (PreInv_assign s (Fin 0) v HI eq_refl Ha).
  apply PreInv_same_fields; reflexivity.
Qed.

Lemma handle_keeps_PreInv (s : VideoPlayer) (ev : Event) :
  PreInv s -> expectedBefore s ev = true -> PreInv (handle ev s).
Proof.
  intros HI Hev. pose proof HI as (HR & HD & HP).
  pose proof HR as HR'. unfold zeroRange in HR'.
  apply andb_true_iff in HR' as [Hs He].
  destruct ev; cbn [handle].
  - (* loadedmetadata *) discriminate.
  - (* timeupdate *)
    cbn [expectedBefore] in Hev.
    set (s1 := setVideo (engine_report p (video s)) s).
    assert (HI1 : PreInv s1).
    { split; [exact HR|]. split; [exact HD|]. subst s1. cbn.
      unfold engine_report. destruct (v_seeking (video s)); cbn; assumption. }
    unfold handleTimeUpdate.
    assert (HI2 : PreInv (setCurrentTime (v_currentTime (video s1)) s1))
      by (revert HI1; apply PreInv_same_fields; reflexivity).
    destruct (isLooping s1 && geb _ _); [|exact HI2].
    destruct (assign_currentTime (loopStart s1) (video s1)) as [v|] eqn:Ha;
      [|exact HI2].
    generalize (PreInv_assign s1 _ v HI1 Hs Ha).
    apply PreInv_same_fields; reflexivity.
  - (* seeked *) revert HI. apply PreInv_same_fields; reflexivity.
  - (* play / pause *)
    revert HI. apply PreInv_same_fields;
      unfold togglePlayPause; destruct (v_paused (video s)); reflexivity.
  - (* reset to loop start *)
    unfold handleReset.
    destruct (assign_currentTime (loopStart s) (video s)) as [v|] eqn:Ha;
      [|exact HI].
    exact (PreInv_assign s _ v HI Hs Ha).
  - (* toggle looping *) exact HI.
  - (* set start *)
    unfold handleSetLoopStart. rewrite (zero_not_ltb _ _ HP He). exact HI.
  - (* set end *)
    unfold handleSetLoopEnd, gtb. rewrite (zero_not_ltb _ _ Hs HP). exact HI.
  - (* speed *) exact HI.
  - (* click on the track *)
    unfold handleTimelineClick. apply PreInv_onSeek_getSeekTime. exact HI.
  - (* pointer down *)
    destruct t; exact HI.
  - (* pointer move *)
    unfold handleMouseMove.
    destruct (isDraggingPlayhead (timeline s)).
    { apply PreInv_onSeek_getSeekTime. exact HI. }
    rewrite (getSeekTime_no_duration timelineRef _ e HD).
    unfold gtb.
    rewrite (zero_not_ltb (Fin 0) _ eq_refl He),
      (zero_not_ltb _ (Fin 0) Hs eq_refl).
    destruct (isDraggingStart (timeline s)); [exact HI|].
    destruct (isDraggingEnd (timeline s)); exact HI.
  - (* pointer up *) exact HI.
  - (* add a step *) exact HI.
  - (* play a step *)
    cbn [expectedBefore] in Hev.
    destruct (nth_error (steps s) n) as [st|]; [|exact HI].
    apply andb_true_iff in Hev as [A B].
    set (s1 := setIsLooping true (setLoopEnd (end_ st)
                 (setLoopStart (start st)
                   (setActiveStepId (Some (id st)) s)))).
    assert (HI1 : PreInv s1).
    { split; [unfold zeroRange; cbn; rewrite A, B; reflexivity|].
      split; assumption. }
    unfold handlePlayStep. fold s1. unfold handleSeek.
    destruct (assign_currentTime (start st) (video s1)) as [v|] eqn:Ha;
      [|exact HI1].
    pose proof (PreInv_assign s1 _ v HI1 A Ha) as HI2.
    assert (HI3 : PreInv (setCurrentTime (start st) (setVideo v s1)))
      by (revert HI2; apply PreInv_same_fields; reflexivity).
    destruct (v_paused _); [|exact HI3].
    revert HI3. apply PreInv_same_fields;
      unfold togglePlayPause; destruct (v_paused _); reflexivity.
  - (* delete a step *)
    destruct (nth_error (steps s) n) as [st|]; [|exact HI].
    unfold handleDeleteStep.
    destruct (activeStepId s) as [a|]; [destruct (String.eqb a (id st))|];
      exact HI.
  - (* rename *)
    destruct (nth_error (steps s) n) as [st|]; [|exact HI].
    unfold handleNameBlur. destruct (String.eqb (trim text) ""); exact HI.
  - (* import *) exact HI.
Qed.

Lemma step_keeps_PreInv (s : VideoPlayer) (ev : Event) :
  PreInv s -> expectedBefore s ev = true -> PreInv (step ev s).
Proof.
  intros HI Hev. generalize (handle_keeps_PreInv s ev HI Hev).
  unfold step.
  destruct (commit_frame s (handle ev s)) as (Fv & Fd & Fs & Fe & _).
  apply PreInv_same_fields; [rewrite Fv; reflexivity | assumption..].
Qed.

Lemma trace_keeps_PreInv (evs : list Event) :
  forall s, PreInv s -> expectedRunBefore s evs = true ->
            Forall PreInv (trace evs s) /\ PreInv (run evs s).
Proof.
  induction evs as [|ev rest IH]; intros s HI Hrun; cbn [trace run].
  - split; [constructor | exact HI].
  - cbn [expectedRunBefore] in Hrun.
    apply andb_true_iff in Hrun as [Hev Hrest].
    pose proof (step_keeps_PreInv s ev HI Hev) as HI'.
    destruct (IH _ HI' Hrest) as [A B].
    split; [constructor; assumption | exact B].
Qed.

Lemma PreInv_mount (url : string) : PreInv (mount url).
Proof. repeat split; reflexivity. Qed.

(** The state in which the metadata of a source arrives. *)
Lemma Inv_after_metadata (s : VideoPlayer) (d : num) :
  PreInv s -> ltb (Fin 0) d = true -> Inv (step (EvLoadedMetadata d) s).
Proof.
  intros (HR & HD & HP) Hd.
  unfold zeroRange in HR. apply andb_true_iff in HR as [Hs He].
  destruct (eqb_zero_inv _ Hs) as (x & Ex & Hx).
  destruct (eqb_zero_inv _ HP) as (y & Ey & Hy).
  assert (Hdd : leb d d = true /\ leb (Fin x) d = true
                /\ ltb (Fin x) d = true /\ leb (Fin y) d = true).
  { destruct d as [| | |q]; try discriminate.
    - repeat split; reflexivity.
    - apply ltb_Fin_iff in Hd. repeat split;
        first [apply leb_Fin_iff | apply ltb_Fin_iff]; lra. }
  destruct Hdd as (D1 & D2 & D3 & D4).
  unfold step. split.
  - rewrite LoopInv_commit. apply validRange_iff. cbn. rewrite Ex.
    repeat split; try assumption. apply leb_Fin_iff. lra.
  - rewrite PosInv_commit. apply PosInv_iff. cbn. rewrite Ey.
    split; [apply leb_Fin_iff; lra | exact D4].
Qed.

(** C1, the claim as stated fails: right after a source is loaded the range
    is [0, 0], and playing an imported bookmark whose stored range is
    [10, 5] makes that the loop range. *)
Lemma loop_range_counterexample :
  LoopInv (mount "blob:v") = false
  /\ (let s := run [EvLoadedMetadata (Fin 20);
                    EvLoadSteps (fun _ => "t")
                      [{| i_name := "x"; i_start := Fin 10;
                          i_end := Fin 5 |}];
                    EvPlayStep 0] (mount "blob:v") in
      loopStart s = Fin 10 /\ loopEnd s = Fin 5 /\ duration s = Fin 20
      /\ LoopInv s = false).
Proof.
  split; [vm_compute; reflexivity|]. cbv zeta.
  split; [vm_compute; reflexivity|].
  split; [vm_compute; reflexivity|].
  split; vm_compute; reflexivity.
Qed.

(** C1, amended.  Take any run of a player from the moment its source is
    set: events [before], then the metadata with a positive duration [d],
    then events [after].  Before the metadata the range is [0, 0] in every
    state, the first included: set-start and set-end commands and drag
    samples are all rejected there.  When the metadata arrives the range
    becomes [0, d], and from there every state keeps
    [0 <= loopStart < loopEnd <= duration] under set-start and set-end
    commands, drag samples with any pointer and track geometry, seeks,
    engine reports within the media and bookmark edits.  All this holds as
    long as each bookmark that is played stores a range of that kind
    ([0, 0] before the metadata, a valid one after): playing a bookmark
    installs the stored range as it is, so the range is valid afterwards
    exactly when the stored one is. *)
Theorem loop_range_invariant (url : string) (d : num)
  (before after : list Event) :
  ltb (Fin 0) d = true ->
  expectedRunBefore (mount url) before = true ->
  let s0 := step (EvLoadedMetadata d) (run before (mount url)) in
  expectedRun s0 after = true ->
  Forall (fun s => zeroRange s = true)
    (mount url :: trace before (mount url))
  /\ (eqb (loopStart s0) (Fin 0) = true /\ loopEnd s0 = d /\ duration s0 = d)
  /\ LoopInv s0 = true
  /\ Forall (fun s => LoopInv s = true) (trace after s0)
  /\ (forall s n st,
        nth_error (steps s) n = Some st ->
        loopStart (step (EvPlayStep n) s) = start st
        /\ loopEnd (step (EvPlayStep n) s) = end_ st
        /\ LoopInv (step (EvPlayStep n) s)
           = validRange (duration s) (start st) (end_ st)).
Proof.
  intros Hd Hbefore s0 Hafter.
  destruct (trace_keeps_PreInv before (mount url) (PreInv_mount url) Hbefore)
    as [Htr Hlast].
  pose proof (Inv_after_metadata _ d Hlast Hd) as HI. fold s0 in HI.
  split; [|split; [|split; [exact (proj1 HI)|split]]].
  - constructor; [reflexivity|].
    eapply Forall_impl; [|exact Htr]. intros s (HR & _). exact HR.
  - subst s0. unfold step.
    destruct (commit_frame (run before (mount url))
                (handle (EvLoadedMetadata d) (run before (mount url))))
      as (_ & -> & -> & -> & _).
    cbn. destruct Hlast as (HR & _). unfold zeroRange in HR.
    apply andb_true_iff in HR as [Hs _].
    repeat split; [exact Hs | reflexivity..].
  - eapply Forall_impl; [|exact (trace_keeps_Inv after s0 HI Hafter)].
    intros s [HL _]. exact HL.
  - intros s n st Hn. unfold step, LoopInv.
    destruct (commit_frame s (handle (EvPlayStep n) s))
      as (_ & -> & -> & -> & _).
    cbn [handle]. rewrite Hn. unfold handlePlayStep, handleSeek.
    destruct (assign_currentTime _ _) as [v|]; [|repeat split; reflexivity].
    destruct (v_paused _); [unfold togglePlayPause; destruct (v_paused _)|];
      repeat split; reflexivity.
Qed.

Lemma loop_range_invariant_witness :
  let before := [EvToggleLoop; EvTimeUpdate (Fin 0); EvSetLoopEnd;
                 EvMouseDown LoopStartHandle;
                 EvMouseMove (Some {| left := 0; width := 100 |})
                   {| clientX := 60 |};
                 EvMouseUp; EvAddStep "2024-05-01T10:00:00.000Z";
                 EvPlayStep 0] in
  let after := [EvTimeUpdate (Fin 3); EvSetLoopStart;
                EvMouseDown LoopEndHandle;
                EvMouseMove (Some {| left := 0; width := 100 |})
                  {| clientX := 60 |};
                EvMouseUp; EvAddStep "2024-05-01T10:00:01.000Z";
                EvPlayStep 1; EvTimeUpdate (Fin 12)] in
  let s0 := step (EvLoadedMetadata (Fin 20)) (run before (mount "blob:v")) in
  Forall (fun s => zeroRange s = true)
    (mount "blob:v" :: trace before (mount "blob:v"))
  /\ Forall (fun s => LoopInv s = true) (trace after s0).
Proof.
  intros before after s0.
  assert (Hd : ltb (Fin 0) (Fin 20) = true) by reflexivity.
  assert (Hb : expectedRunBefore (mount "blob:v") before = true)
    by (vm_compute; reflexivity).
  assert (Ha : expectedRun s0 after = true) by (vm_compute; reflexivity).
  destruct (loop_range_invariant "blob:v" (Fin 20) before after Hd Hb Ha)
    as (A & _ & _ & B & _).
  split; [exact A | exact B].
Defined.

(* ================================================================== *)
(** * Loading a source *)
(* ================================================================== *)

(** The body of the effect on [[videoUrl]] by itself writes neither the
    looping flag, nor the active bookmark, nor the drag flags: on a new
    source these are fresh because the player is a new instance. *)
Remark videoUrlEffect_frame (s : VideoPlayer) :
  isLooping (videoUrlEffect s) = isLooping s
  /\ activeStepId (videoUrlEffect s) = activeStepId s
  /\ timeline (videoUrlEffect s) = timeline s
  /\ steps (videoUrlEffect s) = steps s.
Proof. repeat split; reflexivity. Qed.

Lemma handle_videoUrl (ev : Event) (s : VideoPlayer) :
  videoUrl (handle ev s) = videoUrl s.
Proof.
  destruct ev; cbn [handle]; try reflexivity.
  - unfold handleTimeUpdate.
    destruct (isLooping _ && geb _ _);
      [destruct (assign_currentTime _ _)|]; reflexivity.
  - unfold togglePlayPause. destruct (v_paused _); reflexivity.
  - unfold handleReset. destruct (assign_currentTime _ _); reflexivity.
  - unfold handleSetLoopStart. destruct (ltb _ _); reflexivity.
  - unfold handleSetLoopEnd. destruct (gtb _ _); reflexivity.
  - unfold handleTimelineClick, onSeek, handleSeek.
    destruct (assign_currentTime _ _); reflexivity.
  - destruct t; reflexivity.
  - unfold handleMouseMove, onSeek, handleSeek.
    destruct (isDraggingPlayhead _);
      [destruct (assign_currentTime _ _); reflexivity|].
    destruct (isDraggingStart _); [destruct (ltb _ _); reflexivity|].
    destruct (isDraggingEnd _); [destruct (gtb _ _)|]; reflexivity.
  - destruct (nth_error _ _); [|reflexivity].
    unfold handlePlayStep, handleSeek.
    destruct (assign_currentTime _ _); [|reflexivity].
    destruct (v_paused _); [unfold togglePlayPause; destruct (v_paused _)|];
      reflexivity.
  - destruct (nth_error _ _); [|reflexivity].
    unfold handleDeleteStep.
    destruct (activeStepId s) as [a|]; [destruct (String.eqb a _)|];
      reflexivity.
  - destruct (nth_error _ _); [|reflexivity].
    unfold handleNameBlur. destruct (String.eqb _ _); reflexivity.
Qed.

Lemma step_videoUrl (ev : Event) (s : VideoPlayer) :
  videoUrl (step ev s) = videoUrl s.
Proof.
  unfold step, commit. destruct (syncDepsChanged _ _);
    [|apply handle_videoUrl].
  unfold syncActiveStep. destruct (activeStepId _) as [a|];
    [destruct (truthy a)|]; apply handle_videoUrl.
Qed.

(** In every reachable state of the application the player is mounted
    exactly in the player branch of [App], and it was mounted for the source
    [App] currently holds: the [videoUrl] prop of a mounted player never
    changes, so the effect on [[videoUrl]] runs at mount only. *)
Lemma mounted_for_current_source (a : App) :
  reachable a ->
  if showsPlayer a
  then exists p, player a = Some p /\ app_videoUrl a = Some (videoUrl p)
  else player a = None.
Proof.
  induction 1 as [|a ev Hr IH Hen]; [reflexivity|].
  destruct ev as [file url| |ev']; unfold enabled in Hen.
  - apply negb_true_iff in Hen. rewrite Hen in IH.
    destruct file as [f|]; [|cbn; rewrite Hen; exact IH].
    unfold app_step, handleFileChange, render, showsPlayer. cbn.
    rewrite IH. destruct (truthy url); [|reflexivity].
    exists (mount url). split; reflexivity.
  - reflexivity.
  - rewrite Hen in IH. destruct IH as (p & Hp & Hu).
    unfold app_step. rewrite Hp.
    unfold showsPlayer in *. cbn.
    destruct (app_videoUrl a) as [u|]; [|discriminate].
    destruct (app_videoFile a); [|discriminate].
    rewrite Hen. exists (step ev' p). split; [reflexivity|].
    rewrite step_videoUrl. exact Hu.
Qed.

Lemma handleNewVideo_unmounts (a : App) :
  player (handleNewVideo a) = None.
Proof. reflexivity. Qed.

(** C2: a new source can only be chosen while no player is mounted (from a
    running session: "New Video", then the file input), and choosing it
    mounts a fresh player: [loopStart = 0], [isLooping = false], no drag
    captured, no active bookmark; when the metadata arrives, [loopEnd] and
    [duration] become the duration of the new source and the rest is
    untouched. *)
Theorem new_source_resets (a : App) (f : File) (url : string) (d : num) :
  reachable a ->
  truthy url = true ->
  enabled a (FileChange (Some f) url) = true ->
  let a1 := app_step (FileChange (Some f) url) a in
  let a2 := app_step (Player (EvLoadedMetadata d)) a1 in
  (forall b : App, enabled (app_step NewVideo b) (FileChange (Some f) url)
                   = true)
  /\ (exists p,
        player a1 = Some p
        /\ loopStart p = Fin 0 /\ loopEnd p = Fin 0
        /\ isLooping p = false
        /\ timeline p = initialTimeline
        /\ activeStepId p = None)
  /\ (exists p,
        player a2 = Some p
        /\ loopStart p = Fin 0 /\ loopEnd p = d /\ duration p = d
        /\ isLooping p = false
        /\ timeline p = initialTimeline
        /\ activeStepId p = None).
Proof.
  intros Hreach Hurl Hen a1 a2.
  assert (Hnone : player a = None).
  { pose proof (mounted_for_current_source a Hreach) as H.
    unfold enabled in Hen. apply negb_true_iff in Hen.
    rewrite Hen in H. exact H. }
  assert (H1 : player a1 = Some (mount url)).
  { subst a1. cbn. rewrite Hurl, Hnone. reflexivity. }
  split; [intros b; reflexivity|]. split.
  - exists (mount url). split; [exact H1|]. repeat split; reflexivity.
  - exists (step (EvLoadedMetadata d) (mount url)).
    split; [subst a2; cbn [app_step]; rewrite H1; reflexivity|].
    unfold step.
    destruct (commit_frame (mount url)
                (handle (EvLoadedMetadata d) (mount url)))
      as (_ & -> & -> & -> & -> & -> & ->).
    repeat split; reflexivity.
Qed.

Lemma new_source_resets_witness :
  let a := app_step NewVideo
             (app_step (Player EvToggleLoop)
                (app_step (FileChange (Some {| file_name := "a.mp4" |})
                             "blob:1") initialApp)) in
  exists p,
    player (app_step (Player (EvLoadedMetadata (Fin 30)))
              (app_step (FileChange (Some {| file_name := "b.mp4" |})
                           "blob:2") a))
    = Some p
    /\ loopStart p = Fin 0 /\ loopEnd p = Fin 30 /\ duration p = Fin 30
    /\ isLooping p = false
    /\ timeline p = initialTimeline
    /\ activeStepId p = None.
Proof.
  intros a.
  assert (Hreach : reachable a).
  { apply reach_step; [|vm_compute; reflexivity].
    apply reach_step; [|vm_compute; reflexivity].
    apply reach_step; [|vm_compute; reflexivity].
    apply reach_init. }
  exact (proj2 (proj2
    (new_source_resets a {| file_name := "b.mp4" |} "blob:2" (Fin 30)
       Hreach eq_refl eq_refl))).
Defined.

(* ================================================================== *)
(** * The playback loop *)
(* ================================================================== *)

(** What one notification does to the list of seek requests. *)
Lemma handleTimeUpdate_seeks (s : VideoPlayer) :
  seekRequests (video (handleTimeUpdate s))
  = (seekRequests (video s)
     ++ (if isLooping s && geb (v_currentTime (video s)) (loopEnd s)
            && isFinite (loopStart s)
         then [loopStart s] else []))%list.
Proof.
  unfold handleTimeUpdate, assign_currentTime.
  destruct (isLooping s && geb _ _); cbn.
  - destruct (isFinite (loopStart s)); cbn; [reflexivity|].
    now rewrite app_nil_r.
  - now rewrite app_nil_r.
Qed.

Lemma handleTimeUpdate_frame (s : VideoPlayer) :
  isLooping (handleTimeUpdate s) = isLooping s
  /\ loopStart (handleTimeUpdate s) = loopStart s
  /\ loopEnd (handleTimeUpdate s) = loopEnd s.
Proof.
  unfold handleTimeUpdate.
  destruct (isLooping s && geb _ _);
    [destruct (assign_currentTime _ _)|]; repeat split; reflexivity.
Qed.

Lemma step_timeupdate (p : num) (s : VideoPlayer) :
  video (step (EvTimeUpdate p) s)
  = video (handleTimeUpdate (setVideo (engine_report p (video s)) s))
  /\ isLooping (step (EvTimeUpdate p) s) = isLooping s
  /\ loopStart (step (EvTimeUpdate p) s) = loopStart s
  /\ loopEnd (step (EvTimeUpdate p) s) = loopEnd s.
Proof.
  unfold step.
  destruct (commit_frame s (handle (EvTimeUpdate p) s))
    as (-> & _ & -> & -> & -> & _).
  cbn [handle].
  destruct (handleTimeUpdate_frame
              (setVideo (engine_report p (video s)) s)) as (-> & -> & ->).
  repeat split; reflexivity.
Qed.

(** With looping off, no stream of notifications produces a seek. *)
Lemma no_seek_when_not_looping (ps : list num) :
  forall s, isLooping s = false ->
  seekRequests (video (run (map EvTimeUpdate ps) s)) = seekRequests (video s).
Proof.
  induction ps as [|p rest IH]; intros s Hoff; cbn [map run];
    [reflexivity|].
  destruct (step_timeupdate p s) as (Hv & Hl & _).
  rewrite IH by (rewrite Hl; exact Hoff).
  rewrite Hv, handleTimeUpdate_seeks. cbn. rewrite Hoff. cbn.
  rewrite app_nil_r. unfold engine_report.
  destruct (v_seeking (video s)); reflexivity.
Qed.

(** While a seek is in flight the position read by the handler is the seek
    target, which lies before the end of the loop: nothing more is
    requested. *)
Lemma quiet_while_seeking (ps : list num) :
  forall s,
    ltb (loopStart s) (loopEnd s) = true ->
    v_seeking (video s) = true ->
    v_currentTime (video s) = loopStart s ->
    video (run (map EvTimeUpdate ps) s) = video s
    /\ isLooping (run (map EvTimeUpdate ps) s) = isLooping s
    /\ loopStart (run (map EvTimeUpdate ps) s) = loopStart s
    /\ loopEnd (run (map EvTimeUpdate ps) s) = loopEnd s.
Proof.
  induction ps as [|p rest IH]; intros s Hlt Hsk Hcur; cbn [map run];
    [repeat split; reflexivity|].
  destruct (step_timeupdate p s) as (Hv & Hl & Hs & He).
  assert (Hv' : video (step (EvTimeUpdate p) s) = video s).
  { rewrite Hv. unfold handleTimeUpdate, engine_report. cbn.
    rewrite Hsk, Hcur, (ltb_not_geb _ _ Hlt), andb_false_r. reflexivity. }
  destruct (IH (step (EvTimeUpdate p) s)) as (A & B & C & D).
  - rewrite Hs, He. exact Hlt.
  - rewrite Hv'. exact Hsk.
  - rewrite Hv', Hs. exact Hcur.
  - rewrite A, B, C, D, Hv', Hl, Hs, He. repeat split; reflexivity.
Qed.

(** One seek per crossing: from a state with no seek in flight, a stream of
    notifications produces a single seek, to [loopStart], if some reported
    position reaches [loopEnd], and none otherwise. *)
Lemma one_seek_per_crossing (ps : list num) :
  forall s,
    isLooping s = true ->
    isFinite (loopStart s) = true ->
    ltb (loopStart s) (loopEnd s) = true ->
    v_seeking (video s) = false ->
    let s' := run (map EvTimeUpdate ps) s in
    seekRequests (video s')
    = (seekRequests (video s)
       ++ (if existsb (fun p => geb p (loopEnd s)) ps
           then [loopStart s] else []))%list
    /\ v_seeking (video s') = existsb (fun p => geb p (loopEnd s)) ps
    /\ isLooping s' = true
    /\ loopStart s' = loopStart s
    /\ loopEnd s' = loopEnd s.
Proof.
  induction ps as [|p rest IH]; intros s Hon Hfin Hlt Hsk; cbn [map run].
  - cbn. rewrite app_nil_r. repeat split; auto.
  - destruct (step_timeupdate p s) as (Hv & Hl & Hs & He).
    cbn [existsb].
    assert (Hvid : video (step (EvTimeUpdate p) s)
                   = if geb p (loopEnd s)
                     then {| v_src := v_src (video s);
                             v_currentTime := loopStart s;
                             v_duration := v_duration (video s);
                             v_paused := v_paused (video s);
                             v_playbackRate := v_playbackRate (video s);
                             v_seeking := true;
                             seekRequests :=
                               seekRequests (video s) ++ [loopStart s] |}
                     else {| v_src := v_src (video s);
                             v_currentTime := p;
                             v_duration := v_duration (video s);
                             v_paused := v_paused (video s);
                             v_playbackRate := v_playbackRate (video s);
                             v_seeking := false;
                             seekRequests := seekRequests (video s) |}).
    { rewrite Hv. unfold handleTimeUpdate, engine_report, assign_currentTime.
      cbn. rewrite Hsk, Hon, Hfin. cbn.
      destruct (geb p (loopEnd s)); reflexivity. }
    destruct (geb p (loopEnd s)) eqn:Hcross; cbn [orb].
    + destruct (quiet_while_seeking rest (step (EvTimeUpdate p) s))
        as (A & B & C & D).
      * rewrite Hs, He. exact Hlt.
      * rewrite Hvid. reflexivity.
      * rewrite Hvid, Hs. reflexivity.
      * rewrite A, B, C, D, Hvid, Hl, Hs, He. cbn. repeat split; auto.
    + destruct (IH (step (EvTimeUpdate p) s)) as (A & B & C & D & E).
      * rewrite Hl. exact Hon.
      * rewrite Hs. exact Hfin.
      * rewrite Hs, He. exact Hlt.
      * rewrite Hvid. reflexivity.
      * cbv zeta in A, B, C, D, E.
        rewrite A, B, C, D, E, Hvid, Hs, He. cbn. repeat split; auto.
Qed.

Lemma run_app (l1 l2 : list Event) :
  forall s, run (l1 ++ l2)%list s = run l2 (run l1 s).
Proof.
  induction l1 as [|ev rest IH]; intros s; cbn; [reflexivity | apply IH].
Qed.

(** The same again once the seek has taken effect. *)
Lemma one_seek_per_crossing_again (ps qs : list num) (s : VideoPlayer) :
  isLooping s = true ->
  isFinite (loopStart s) = true ->
  ltb (loopStart s) (loopEnd s) = true ->
  v_seeking (video s) = false ->
  seekRequests
    (video (run (map EvTimeUpdate ps ++ EvSeeked :: map EvTimeUpdate qs)%list
              s))
  = (seekRequests (video s)
     ++ (if existsb (fun p => geb p (loopEnd s)) ps
         then [loopStart s] else [])
     ++ (if existsb (fun p => geb p (loopEnd s)) qs
         then [loopStart s] else []))%list.
Proof.
  intros Hon Hfin Hlt Hsk.
  destruct (one_seek_per_crossing ps s Hon Hfin Hlt Hsk)
    as (A & _ & C & D & E).
  rewrite run_app. cbn [run].
  set (s1 := run (map EvTimeUpdate ps) s) in *.
  assert (F : video (step EvSeeked s1) = engine_seeked (video s1)
              /\ isLooping (step EvSeeked s1) = isLooping s1
              /\ loopStart (step EvSeeked s1) = loopStart s1
              /\ loopEnd (step EvSeeked s1) = loopEnd s1).
  { unfold step.
    destruct (commit_frame s1 (handle EvSeeked s1))
      as (-> & _ & -> & -> & -> & _).
    repeat split; reflexivity. }
  destruct F as (Fv & Fl & Fs & Fe).
  destruct (one_seek_per_crossing qs (step EvSeeked s1)) as (G & _).
  - rewrite Fl. exact C.
  - rewrite Fs, D. exact Hfin.
  - rewrite Fs, Fe, D, E. exact Hlt.
  - rewrite Fv. reflexivity.
  - cbv zeta in G. rewrite G, Fv, Fs, Fe, D, E. cbn [engine_seeked seekRequests].
    rewrite A, <- app_assoc. reflexivity.
Qed.

(** C3, the claim as stated fails.  A played bookmark installs its stored
    range unchecked; with the imported range [10, 5] and looping on, the
    position stays at or beyond [loopEnd] after the seek, so each of three
    reports in a row requests a seek although no seek has completed in
    between.  With a stored start that is not finite (the number [1e999]
    of a steps file is read as infinity) the assignment throws and no seek
    is requested at all, however far the position is beyond [loopEnd]. *)
Lemma playback_loop_counterexample :
  (let s := run [EvLoadedMetadata (Fin 20);
                 EvLoadSteps (fun _ => "t")
                   [{| i_name := "x"; i_start := Fin 10; i_end := Fin 5 |}];
                 EvPlayStep 0; EvSeeked] (mount "blob:v") in
   isLooping s = true /\ loopStart s = Fin 10 /\ loopEnd s = Fin 5
   /\ v_seeking (video s) = false
   /\ seekRequests (video s) = [Fin 10]
   /\ seekRequests
        (video (run (map EvTimeUpdate [Fin 10; Fin 11; Fin 12]) s))
      = [Fin 10; Fin 10; Fin 10; Fin 10])
  /\ (let s := run [EvLoadedMetadata (Fin 20);
                    EvLoadSteps (fun _ => "t")
                      [{| i_name := "x"; i_start := PInf; i_end := Fin 5 |}];
                    EvPlayStep 0] (mount "blob:v") in
      isLooping s = true /\ loopStart s = PInf /\ loopEnd s = Fin 5
      /\ v_seeking (video s) = false
      /\ seekRequests
           (video (run (map EvTimeUpdate [Fin 4; Fin 5; Fin 6]) s)) = []).
Proof.
  split; cbv zeta.
  - split; [vm_compute; reflexivity|].
    split; [vm_compute; reflexivity|].
    split; [vm_compute; reflexivity|].
    split; [vm_compute; reflexivity|].
    split; vm_compute; reflexivity.
  - split; [vm_compute; reflexivity|].
    split; [vm_compute; reflexivity|].
    split; [vm_compute; reflexivity|].
    split; vm_compute; reflexivity.
Qed.

(** C3, amended: each notification requests a seek to [loopStart] exactly when
    looping is on and the position read from the element has reached
    [loopEnd] (that position is the reported one unless a seek is in
    flight) and [loopStart] is finite; with looping off no stream produces
    a seek; with looping on and a finite [loopStart < loopEnd], a stream
    produces one seek per crossing, and another one only for a crossing
    that follows the completion of the seek.  For [loopStart = 5],
    [loopEnd = 10] and the reports 5, 6, 7, 8, 9, 10.0, 10.1 the list of
    requests is unchanged after each of the first five, and has the single
    new entry 5 after the sixth and after the seventh. *)
Theorem playback_loop_seeks :
  (forall s p,
     seekRequests (video (step (EvTimeUpdate p) s))
     = (seekRequests (video s)
        ++ (if isLooping s
               && geb (v_currentTime (engine_report p (video s))) (loopEnd s)
               && isFinite (loopStart s)
            then [loopStart s] else []))%list
     /\ (v_seeking (video s) = false ->
         v_currentTime (engine_report p (video s)) = p))
  /\ (forall s ps,
        isLooping s = false ->
        seekRequests (video (run (map EvTimeUpdate ps) s))
        = seekRequests (video s))
  /\ (forall s ps qs,
        isLooping s = true ->
        isFinite (loopStart s) = true ->
        ltb (loopStart s) (loopEnd s) = true ->
        v_seeking (video s) = false ->
        seekRequests (video (run (map EvTimeUpdate ps) s))
        = (seekRequests (video s)
           ++ (if existsb (fun p => geb p (loopEnd s)) ps
               then [loopStart s] else []))%list
        /\ seekRequests
             (video (run (map EvTimeUpdate ps
                          ++ EvSeeked :: map EvTimeUpdate qs)%list s))
           = (seekRequests (video s)
              ++ (if existsb (fun p => geb p (loopEnd s)) ps
                  then [loopStart s] else [])
              ++ (if existsb (fun p => geb p (loopEnd s)) qs
                  then [loopStart s] else []))%list)
  /\ (forall s k,
        isLooping s = true ->
        loopStart s = Fin 5 ->
        loopEnd s = Fin 10 ->
        v_seeking (video s) = false ->
        (k <= 7)%nat ->
        seekRequests
          (video (run (map EvTimeUpdate
                         (firstn k [Fin 5; Fin 6; Fin 7; Fin 8; Fin 9;
                                    Fin 10; Fin (101 # 10)])) s))
        = (seekRequests (video s)
           ++ (if (6 <=? k)%nat then [Fin 5] else []))%list).
Proof.
  split; [|split; [|split]].
  - intros s p. split.
    + destruct (step_timeupdate p s) as (-> & _).
      rewrite handleTimeUpdate_seeks. cbn.
      unfold engine_report at 1. destruct (v_seeking (video s)); reflexivity.
    + intros Hsk. unfold engine_report. rewrite Hsk. reflexivity.
  - intros s ps. apply no_seek_when_not_looping.
  - intros s ps qs Hon Hfin Hlt Hsk. split.
    + exact (proj1 (one_seek_per_crossing ps s Hon Hfin Hlt Hsk)).
    + apply one_seek_per_crossing_again; assumption.
  - intros s k Hon Hs He Hsk Hk.
    destruct (one_seek_per_crossing
                (firstn k [Fin 5; Fin 6; Fin 7; Fin 8; Fin 9; Fin 10;
                           Fin (101 # 10)]) s Hon) as (A & _).
    + rewrite Hs. reflexivity.
    + rewrite Hs, He. reflexivity.
    + exact Hsk.
    + cbv zeta in A. rewrite A, Hs, He.
      do 8 (destruct k as [|k]; [reflexivity|]). lia.
Qed.

Lemma playback_loop_seeks_witness :
  let s := run [EvLoadedMetadata (Fin 20); EvTimeUpdate (Fin 5);
                EvSetLoopStart; EvTimeUpdate (Fin 10); EvSetLoopEnd;
                EvToggleLoop] (mount "blob:v") in
  seekRequests
    (video (run (map EvTimeUpdate
                   (firstn 7 [Fin 5; Fin 6; Fin 7; Fin 8; Fin 9; Fin 10;
                              Fin (101 # 10)])) s))
  = (seekRequests (video s) ++ [Fin 5])%list.
Proof.
  exact (proj2 (proj2 (proj2 playback_loop_seeks))
           (run [EvLoadedMetadata (Fin 20); EvTimeUpdate (Fin 5);
                 EvSetLoopStart; EvTimeUpdate (Fin 10); EvSetLoopEnd;
                 EvToggleLoop] (mount "blob:v"))
           7%nat eq_refl eq_refl eq_refl eq_refl (le_n 7)).
Defined.

(* ================================================================== *)
(** * Setting a loop boundary *)
(* ================================================================== *)

(** A render whose sync dependencies are unchanged runs no effect. *)
Lemma commit_unchanged (old new : VideoPlayer) :
  loopStart new = loopStart old ->
  loopEnd new = loopEnd old ->
  activeStepId new = activeStepId old ->
  commit old new = new.
Proof.
  intros A B C. unfold commit, syncDepsChanged.
  rewrite A, B, C, !same_refl, sameId_refl. reflexivity.
Qed.

(** C4: a set-start command at position [t], or a drag sample of the start
    handle that maps to [t], makes [loopStart] equal to [t] if [t < loopEnd]
    and otherwise changes nothing at all; [loopEnd] is never touched by it.
    Symmetrically for the end, with [t > loopStart]. *)
Theorem boundary_update_rule (s : VideoPlayer) (r : option DOMRect)
  (e : MouseEvent) :
  let t := v_currentTime (video s) in
  let u := getSeekTime r (duration s) e in
  (loopStart (step EvSetLoopStart s)
   = (if ltb t (loopEnd s) then t else loopStart s)
   /\ loopEnd (step EvSetLoopStart s) = loopEnd s
   /\ (ltb t (loopEnd s) = false -> step EvSetLoopStart s = s))
  /\ (loopEnd (step EvSetLoopEnd s)
      = (if gtb t (loopStart s) then t else loopEnd s)
      /\ loopStart (step EvSetLoopEnd s) = loopStart s
      /\ (gtb t (loopStart s) = false -> step EvSetLoopEnd s = s))
  /\ (isDraggingPlayhead (timeline s) = false ->
      isDraggingStart (timeline s) = true ->
      loopStart (step (EvMouseMove r e) s)
      = (if ltb u (loopEnd s) then u else loopStart s)
      /\ loopEnd (step (EvMouseMove r e) s) = loopEnd s
      /\ (ltb u (loopEnd s) = false -> step (EvMouseMove r e) s = s))
  /\ (isDraggingPlayhead (timeline s) = false ->
      isDraggingStart (timeline s) = false ->
      isDraggingEnd (timeline s) = true ->
      loopEnd (step (EvMouseMove r e) s)
      = (if gtb u (loopStart s) then u else loopEnd s)
      /\ loopStart (step (EvMouseMove r e) s) = loopStart s
      /\ (gtb u (loopStart s) = false -> step (EvMouseMove r e) s = s)).
Proof.
  intros t u. unfold step.
  split; [|split; [|split]].
  - destruct (commit_frame s (handle EvSetLoopStart s))
      as (_ & _ & -> & -> & _).
    cbn [handle]. unfold handleSetLoopStart. fold t.
    destruct (ltb t (loopEnd s)); repeat split; try reflexivity.
    + discriminate.
    + intros _. apply commit_same.
  - destruct (commit_frame s (handle EvSetLoopEnd s))
      as (_ & _ & -> & -> & _).
    cbn [handle]. unfold handleSetLoopEnd. fold t.
    destruct (gtb t (loopStart s)); repeat split; try reflexivity.
    + discriminate.
    + intros _. apply commit_same.
  - intros Hp Hs.
    destruct (commit_frame s (handle (EvMouseMove r e) s))
      as (_ & _ & -> & -> & _).
    cbn [handle]. unfold handleMouseMove. rewrite Hp, Hs. fold u.
    destruct (ltb u (loopEnd s)); repeat split; try reflexivity.
    + discriminate.
    + intros _. apply commit_same.
  - intros Hp Hs He.
    destruct (commit_frame s (handle (EvMouseMove r e) s))
      as (_ & _ & -> & -> & _).
    cbn [handle]. unfold handleMouseMove. rewrite Hp, Hs, He. fold u.
    destruct (gtb u (loopStart s)); repeat split; try reflexivity.
    + discriminate.
    + intros _. apply commit_same.
Qed.

Lemma boundary_update_rule_witness :
  let s := run [EvLoadedMetadata (Fin 20); EvMouseDown LoopStartHandle]
             (mount "blob:v") in
  let far := {| clientX := 100 |} in
  let r := Some {| left := 0; width := 100 |} in
  getSeekTime r (duration s) far = Fin 20
  /\ loopEnd s = Fin 20
  /\ loopStart (step (EvMouseMove r far) s)
     = (if ltb (getSeekTime r (duration s) far) (loopEnd s)
        then getSeekTime r (duration s) far else loopStart s)
  /\ step (EvMouseMove r far) s = s.
Proof.
  intros s far r.
  destruct (boundary_update_rule s r far) as (_ & _ & H & _).
  destruct H as (H1 & _ & H3);
    [vm_compute; reflexivity | vm_compute; reflexivity |].
  split; [vm_compute; reflexivity|].
  split; [vm_compute; reflexivity|].
  split; [exact H1|].
  apply H3. vm_compute. reflexivity.
Defined.

(* ================================================================== *)
(** * The active bookmark *)
(* ================================================================== *)

(** With distinct identities, a map that only touches the entries of one
    identity touches one position, and a filter on that identity removes
    one position. *)
Lemma not_In_id (l : list Step) (x : Step) (a : string) :
  ~ In a (map id l) -> In x l -> id x <> a.
Proof.
  intros Hn Hx E. apply Hn. rewrite <- E. apply in_map. exact Hx.
Qed.

Lemma map_at_identity (f : Step -> Step) (a : string) (l : list Step) :
  NoDup (map id l) ->
  (forall x, id x <> a -> f x = x) ->
  forall n st,
    nth_error l n = Some st -> id st = a ->
    map f l = (firstn n l ++ f st :: skipn (S n) l)%list.
Proof.
  intros Hnd Hf. induction l as [|x r IH]; intros n st Hn Ha.
  - destruct n; discriminate.
  - cbn in Hnd. apply NoDup_cons_iff in Hnd as [Hx Hr].
    destruct n as [|k]; cbn in Hn |- *.
    + injection Hn as ->. f_equal.
      rewrite <- (map_id r) at 2. apply map_ext_in.
      intros y Hy. apply Hf. rewrite <- Ha.
      apply (not_In_id r y (id st) Hx Hy).
    + assert (Hne : id x <> a).
      { intros E. apply Hx. rewrite E, <- Ha.
        apply in_map. eapply nth_error_In. exact Hn. }
      rewrite (Hf x Hne). f_equal. apply (IH Hr k st Hn Ha).
Qed.

Lemma filter_other_identity (a : string) (l : list Step) :
  ~ In a (map id l) ->
  filter (fun x => negb (String.eqb (id x) a)) l = l.
Proof.
  induction l as [|y r IH]; cbn; intros Hn; [reflexivity|].
  destruct (String.eqb_spec (id y) a) as [E|E].
  - exfalso. apply Hn. left. exact E.
  - cbn. f_equal. apply IH. intros H. apply Hn. right. exact H.
Qed.

Lemma filter_at_identity (a : string) (l : list Step) :
  NoDup (map id l) ->
  forall n st,
    nth_error l n = Some st -> id st = a ->
    filter (fun x => negb (String.eqb (id x) a)) l
    = (firstn n l ++ skipn (S n) l)%list.
Proof.
  intros Hnd. induction l as [|x r IH]; intros n st Hn Ha.
  - destruct n; discriminate.
  - cbn in Hnd. apply NoDup_cons_iff in Hnd as [Hx Hr].
    destruct n as [|k]; cbn in Hn |- *.
    + injection Hn as ->. rewrite Ha, String.eqb_refl. cbn.
      apply filter_other_identity. rewrite <- Ha. exact Hx.
    + assert (Hne : id x <> a).
      { intros E. apply Hx. rewrite E, <- Ha.
        apply in_map. eapply nth_error_In. exact Hn. }
      destruct (String.eqb_spec (id x) a); [contradiction|]. cbn.
      f_equal. apply (IH Hr k st Hn Ha).
Qed.

Lemma syncActiveStep_steps (s : VideoPlayer) :
  steps (syncActiveStep s)
  = match activeStepId s with
    | Some a =>
        if truthy a
        then map (mirrorRange a (loopStart s) (loopEnd s)) (steps s)
        else steps s
    | None => steps s
    end.
Proof.
  unfold syncActiveStep. destruct (activeStepId s) as [a|]; [|reflexivity].
  destruct (truthy a); reflexivity.
Qed.

Lemma map_id_mirrorRange i a b (l : list Step) :
  map id (map (mirrorRange i a b) l) = map id l.
Proof.
  rewrite map_map. apply map_ext. intros st. unfold mirrorRange.
  destruct (String.eqb (id st) i); reflexivity.
Qed.

Lemma map_name_mirrorRange i a b (l : list Step) :
  map name (map (mirrorRange i a b) l) = map name l.
Proof.
  rewrite map_map. apply map_ext. intros st. unfold mirrorRange.
  destruct (String.eqb (id st) i); reflexivity.
Qed.

Lemma mirrorRange_other i a b st : id st <> i -> mirrorRange i a b st = st.
Proof.
  intros H. unfold mirrorRange.
  destruct (String.eqb_spec (id st) i); [contradiction | reflexivity].
Qed.

Lemma mirrorRange_self a b st :
  mirrorRange (id st) a b st
  = {| id := id st; name := name st; start := a; end_ := b |}.
Proof. unfold mirrorRange. rewrite String.eqb_refl. reflexivity. Qed.

Lemma handle_steps_frame (ev : Event) (s : VideoPlayer) :
  bookmarkEvent ev = false ->
  steps (handle ev s) = steps s /\ activeStepId (handle ev s) = activeStepId s.
Proof.
  intros Hev. destruct ev; try discriminate; cbn [handle].
  - split; reflexivity.
  - unfold handleTimeUpdate.
    destruct (isLooping _ && geb _ _);
      [destruct (assign_currentTime _ _)|]; split; reflexivity.
  - split; reflexivity.
  - unfold togglePlayPause. destruct (v_paused _); split; reflexivity.
  - unfold handleReset. destruct (assign_currentTime _ _); split; reflexivity.
  - split; reflexivity.
  - unfold handleSetLoopStart. destruct (ltb _ _); split; reflexivity.
  - unfold handleSetLoopEnd. destruct (gtb _ _); split; reflexivity.
  - split; reflexivity.
  - unfold handleTimelineClick, onSeek, handleSeek.
    destruct (assign_currentTime _ _); split; reflexivity.
  - destruct t; split; reflexivity.
  - unfold handleMouseMove, onSeek, handleSeek.
    destruct (isDraggingPlayhead _);
      [destruct (assign_currentTime _ _); split; reflexivity|].
    destruct (isDraggingStart _); [destruct (ltb _ _); split; reflexivity|].
    destruct (isDraggingEnd _); [destruct (gtb _ _)|]; split; reflexivity.
  - split; reflexivity.
Qed.

(** What a render does to the step list. *)
Lemma commit_steps (old new : VideoPlayer) :
  steps (commit old new)
  = if syncDepsChanged old new
    then match activeStepId new with
         | Some a =>
             if truthy a
             then map (mirrorRange a (loopStart new) (loopEnd new))
                    (steps new)
             else steps new
         | None => steps new
         end
    else steps new.
Proof.
  unfold commit. destruct (syncDepsChanged old new); [|reflexivity].
  apply syncActiveStep_steps.
Qed.

(** The sync effect, by identity: while [a] is the active identity, an
    event that
    changes the loop range by any path (set commands, drag samples,
    metadata) rewrites the step list by writing the new range into the
    entries with identity [a]; identities, names and order are as before and
    every entry with another identity is untouched; an event that leaves
    the range as it was leaves the list as it was.  Playing a bookmark with
    another identity makes that one the active one and leaves the entries
    of [a] untouched, then and (by the first part) on every later edit. *)
Lemma active_bookmark_mirror :
  (forall (s : VideoPlayer) (ev : Event) (a : string),
     activeStepId s = Some a -> truthy a = true ->
     bookmarkEvent ev = false ->
     let s' := step ev s in
     let changed :=
       negb (same (loopStart s) (loopStart s')
             && same (loopEnd s) (loopEnd s')) in
     activeStepId s' = Some a
     /\ steps s'
        = (if changed
           then map (mirrorRange a (loopStart s') (loopEnd s')) (steps s)
           else steps s)
     /\ map id (steps s') = map id (steps s)
     /\ map name (steps s') = map name (steps s)
     /\ (forall n st,
           nth_error (steps s) n = Some st -> id st <> a ->
           nth_error (steps s') n = Some st)
     /\ (changed = true ->
         forall n st,
           nth_error (steps s) n = Some st -> id st = a ->
           nth_error (steps s') n
           = Some {| id := id st; name := name st;
                     start := loopStart s'; end_ := loopEnd s' |})
     /\ (changed = true -> NoDup (map id (steps s)) ->
         forall n st,
           nth_error (steps s) n = Some st -> id st = a ->
           steps s'
           = (firstn n (steps s)
              ++ {| id := id st; name := name st;
                    start := loopStart s'; end_ := loopEnd s' |}
                 :: skipn (S n) (steps s))%list))
  /\ (forall (s : VideoPlayer) (m : nat) (b : Step),
        nth_error (steps s) m = Some b ->
        let s' := step (EvPlayStep m) s in
        activeStepId s' = Some (id b)
        /\ loopStart s' = start b /\ loopEnd s' = end_ b
        /\ isLooping s' = true
        /\ (forall n st,
              nth_error (steps s) n = Some st -> id st <> id b ->
              nth_error (steps s') n = Some st)).
Proof.
  split.
  - intros s ev a Hact Ha Hev s' changed.
    destruct (handle_steps_frame ev s Hev) as [Hst Hid].
    assert (Hf : activeStepId s' = activeStepId (handle ev s)
                 /\ loopStart s' = loopStart (handle ev s)
                 /\ loopEnd s' = loopEnd (handle ev s)).
    { subst s'. unfold step.
      destruct (commit_frame s (handle ev s)) as (_ & _ & -> & -> & _ & -> & _).
      repeat split; reflexivity. }
    destruct Hf as (Fa & Fs & Fe).
    assert (Hsteps : steps s'
                     = if changed
                       then map (mirrorRange a (loopStart s') (loopEnd s'))
                              (steps s)
                       else steps s).
    { subst changed. rewrite Fs, Fe. subst s'. unfold step.
      rewrite commit_steps. unfold syncDepsChanged.
      rewrite Hid, Hact, sameId_refl, andb_true_r, Ha, Hst. reflexivity. }
    split; [rewrite Fa, Hid; exact Hact|].
    split; [exact Hsteps|].
    rewrite Hsteps.
    split; [destruct changed; [apply map_id_mirrorRange | reflexivity]|].
    split; [destruct changed; [apply map_name_mirrorRange | reflexivity]|].
    split.
    + intros n st Hn Hne. destruct changed; [|exact Hn].
      rewrite nth_error_map, Hn. cbn. now rewrite mirrorRange_other.
    + split.
      * intros Hc n st Hn He. rewrite Hc, nth_error_map, Hn. cbn.
        subst a. now rewrite mirrorRange_self.
      * intros Hc Hnd n st Hn He. rewrite Hc.
        rewrite (map_at_identity _ a (steps s) Hnd
                   (mirrorRange_other a _ _) n st Hn He).
        subst a. now rewrite mirrorRange_self.
  - intros s m b Hm s'.
    assert (Hh : steps (handle (EvPlayStep m) s) = steps s
                 /\ activeStepId (handle (EvPlayStep m) s) = Some (id b)
                 /\ loopStart (handle (EvPlayStep m) s) = start b
                 /\ loopEnd (handle (EvPlayStep m) s) = end_ b
                 /\ isLooping (handle (EvPlayStep m) s) = true).
    { cbn [handle]. rewrite Hm. unfold handlePlayStep, handleSeek.
      destruct (assign_currentTime _ _); [|repeat split; reflexivity].
      destruct (v_paused _);
        [unfold togglePlayPause; destruct (v_paused _)|];
        repeat split; reflexivity. }
    destruct Hh as (Hst & Hid & Hs & He & Hl).
    subst s'. unfold step.
    destruct (commit_frame s (handle (EvPlayStep m) s))
      as (_ & _ & -> & -> & -> & -> & _).
    repeat split; try assumption.
    intros n st Hn Hne. rewrite commit_steps, Hid, Hst.
    destruct (syncDepsChanged _ _); [|exact Hn].
    destruct (truthy (id b)); [|exact Hn].
    rewrite nth_error_map, Hn. cbn. now rewrite mirrorRange_other.
Qed.

Lemma active_bookmark_mirror_example :
  let s := run [EvLoadedMetadata (Fin 10);
                EvLoadSteps (fun _ => "t") [{| i_name := "A"; i_start := Fin 2;
                                    i_end := Fin 4 |};
                                 {| i_name := "B"; i_start := Fin 7;
                                    i_end := Fin 9 |}];
                EvPlayStep 0; EvMouseDown LoopEndHandle] (mount "blob:v") in
  let s' := step (EvMouseMove (Some {| left := 0; width := 100 |})
                    {| clientX := 60 |}) s in
  nth_error (steps s') 0
  = Some {| id := "t-0"; name := "A"; start := Fin 2; end_ := Fin 6 |}.
Proof.
  exact (proj1 (proj2 (proj2 (proj2 (proj2 (proj2
    (proj1 active_bookmark_mirror
       (run [EvLoadedMetadata (Fin 10);
             EvLoadSteps (fun _ => "t") [{| i_name := "A"; i_start := Fin 2;
                                 i_end := Fin 4 |};
                              {| i_name := "B"; i_start := Fin 7;
                                 i_end := Fin 9 |}];
             EvPlayStep 0; EvMouseDown LoopEndHandle] (mount "blob:v"))
       (EvMouseMove (Some {| left := 0; width := 100 |})
          {| clientX := 60 |})
       "t-0" eq_refl eq_refl eq_refl))))))
    eq_refl 0%nat
    {| id := "t-0"; name := "A"; start := Fin 2; end_ := Fin 4 |}
    eq_refl eq_refl).
Defined.

(** The scenario of the specification, run on the model: A is [2, 4] and B
    is [7, 9]; with A active the end handle is dragged to 6; then B is
    played and its end handle is dragged to 8. *)
Example bookmark_scenario :
  let r := Some {| left := 0; width := 100 |} in
  let s := run [EvLoadedMetadata (Fin 10);
                EvLoadSteps (fun _ => "t") [{| i_name := "A"; i_start := Fin 2;
                                    i_end := Fin 4 |};
                                 {| i_name := "B"; i_start := Fin 7;
                                    i_end := Fin 9 |}];
                EvPlayStep 0; EvMouseDown LoopEndHandle;
                EvMouseMove r {| clientX := 60 |}; EvMouseUp]
             (mount "blob:v") in
  let s2 := run [EvPlayStep 1; EvMouseDown LoopEndHandle;
                 EvMouseMove r {| clientX := 80 |}; EvMouseUp] s in
  steps s
  = [{| id := "t-0"; name := "A"; start := Fin 2; end_ := Fin 6 |};
     {| id := "t-1"; name := "B"; start := Fin 7; end_ := Fin 9 |}]
  /\ steps (step (EvPlayStep 1) s) = steps s
  /\ steps s2
     = [{| id := "t-0"; name := "A"; start := Fin 2; end_ := Fin 6 |};
        {| id := "t-1"; name := "B"; start := Fin 7; end_ := Fin 8 |}].
Proof.
  cbv zeta. split; [vm_compute; reflexivity|].
  split; vm_compute; reflexivity.
Qed.

(** C5, where the program departs from it.  Two adds that read the same
    timestamp give two bookmarks one identity (C9).  The second of them,
    Step 2, is played and the end of the loop is then set to 4: the effect
    writes the range [0, 4] into Step 1 as well, a bookmark that was never
    activated, where the claim has the range of every other bookmark
    unchanged. *)
Theorem shared_identity_mirror :
  let iso := "2024-05-01T10:00:00.000Z" in
  let s := run [EvLoadedMetadata (Fin 10); EvAddStep iso; EvAddStep iso;
                EvPlayStep 1; EvSeeked; EvTimeUpdate (Fin 4)]
             (mount "blob:v") in
  steps s
  = [{| id := iso; name := "Step 1"; start := Fin 0; end_ := Fin 10 |};
     {| id := iso; name := "Step 2"; start := Fin 0; end_ := Fin 10 |}]
  /\ activeStepId s = Some iso
  /\ loopEnd (step EvSetLoopEnd s) = Fin 4
  /\ steps (step EvSetLoopEnd s)
     = [{| id := iso; name := "Step 1"; start := Fin 0; end_ := Fin 4 |};
        {| id := iso; name := "Step 2"; start := Fin 0; end_ := Fin 4 |}].
Proof.
  cbv zeta. split; [vm_compute; reflexivity|].
  split; [vm_compute; reflexivity|].
  split; vm_compute; reflexivity.
Qed.

(* ================================================================== *)
(** * Deleting a bookmark *)
(* ================================================================== *)

(** Deletion, by identity: deleting the item at position [n], whose
    identity is [id st],
    removes the entries with that identity and nothing else; the loop range
    stays; if that identity was the active one the binding is cleared and
    looping is switched off, and otherwise the binding and the looping flag
    stay as they were. *)
Lemma delete_bookmark (s : VideoPlayer) (n : nat) (st : Step) :
  nth_error (steps s) n = Some st ->
  let s' := step (EvDeleteStep n) s in
  steps s'
  = filter (fun x => negb (String.eqb (id x) (id st))) (steps s)
  /\ ~ In st (steps s')
  /\ (forall x, In x (steps s) -> id x <> id st -> In x (steps s'))
  /\ loopStart s' = loopStart s
  /\ loopEnd s' = loopEnd s
  /\ (activeStepId s = Some (id st) ->
      activeStepId s' = None /\ isLooping s' = false)
  /\ (activeStepId s <> Some (id st) ->
      activeStepId s' = activeStepId s /\ isLooping s' = isLooping s)
  /\ (NoDup (map id (steps s)) ->
      steps s' = (firstn n (steps s) ++ skipn (S n) (steps s))%list).
Proof.
  intros Hn s'.
  assert (Hh : handle (EvDeleteStep n) s = handleDeleteStep (id st) s)
    by (cbn [handle]; rewrite Hn; reflexivity).
  assert (Hsteps : steps s'
                   = filter (fun x => negb (String.eqb (id x) (id st)))
                       (steps s)).
  { subst s'. unfold step. rewrite commit_steps, Hh.
    unfold handleDeleteStep.
    destruct (activeStepId s) as [a|] eqn:Ea.
    - destruct (String.eqb a (id st)) eqn:E.
      + cbn. destruct (syncDepsChanged _ _); reflexivity.
      + unfold syncDepsChanged. cbn. rewrite Ea, !same_refl. cbn.
        rewrite String.eqb_refl. reflexivity.
    - unfold syncDepsChanged. cbn. rewrite Ea, !same_refl. reflexivity. }
  assert (Hf : loopStart s' = loopStart s /\ loopEnd s' = loopEnd s
               /\ activeStepId s' = activeStepId (handleDeleteStep (id st) s)
               /\ isLooping s' = isLooping (handleDeleteStep (id st) s)).
  { subst s'. unfold step.
    destruct (commit_frame s (handle (EvDeleteStep n) s))
      as (_ & _ & -> & -> & -> & -> & _).
    rewrite Hh. unfold handleDeleteStep.
    destruct (activeStepId s) as [a|];
      [destruct (String.eqb a (id st))|]; repeat split; reflexivity. }
  destruct Hf as (Fs & Fe & Fa & Fl).
  split; [exact Hsteps|]. rewrite Hsteps.
  split.
  { intros Hin. apply filter_In in Hin as [_ Hb].
    rewrite String.eqb_refl in Hb. discriminate. }
  split.
  { intros x Hx Hne. apply filter_In. split; [exact Hx|].
    destruct (String.eqb_spec (id x) (id st)); [contradiction|reflexivity]. }
  split; [exact Fs|]. split; [exact Fe|].
  rewrite Fa, Fl. unfold handleDeleteStep. split; [|split].
  - intros ->. rewrite String.eqb_refl. split; reflexivity.
  - intros Hne.
    destruct (activeStepId s) as [a|] eqn:Ea;
      [|cbn; rewrite Ea; split; reflexivity].
    destruct (String.eqb_spec a (id st)) as [->|];
      [exfalso; apply Hne; reflexivity|].
    cbn. rewrite Ea. split; reflexivity.
  - intros Hnd.
    exact (filter_at_identity (id st) (steps s) Hnd n st Hn eq_refl).
Qed.

Lemma delete_bookmark_example :
  let s := run [EvLoadedMetadata (Fin 10);
                EvLoadSteps (fun _ => "t") [{| i_name := "A"; i_start := Fin 2;
                                    i_end := Fin 4 |};
                                 {| i_name := "B"; i_start := Fin 7;
                                    i_end := Fin 9 |}];
                EvPlayStep 0] (mount "blob:v") in
  activeStepId (step (EvDeleteStep 0) s) = None
  /\ isLooping (step (EvDeleteStep 0) s) = false.
Proof.
  exact (proj1 (proj2 (proj2 (proj2 (proj2 (proj2
    (delete_bookmark
       (run [EvLoadedMetadata (Fin 10);
             EvLoadSteps (fun _ => "t") [{| i_name := "A"; i_start := Fin 2;
                                 i_end := Fin 4 |};
                              {| i_name := "B"; i_start := Fin 7;
                                 i_end := Fin 9 |}];
             EvPlayStep 0] (mount "blob:v"))
       0%nat {| id := "t-0"; name := "A"; start := Fin 2; end_ := Fin 4 |}
       eq_refl)))))) eq_refl).
Defined.

(** C6, where the program departs from it.  Two adds that read the same
    timestamp give two bookmarks one identity (C9).  Deleting the first of
    them removes both.  When the second had been played, deleting the first,
    which was never played, also clears the binding and switches looping
    off, where the claim has such a deletion remove one bookmark and leave
    the binding and the looping flag alone. *)
Theorem shared_identity_delete :
  let iso := "2024-05-01T10:00:00.000Z" in
  let s := run [EvLoadedMetadata (Fin 10); EvAddStep iso; EvAddStep iso]
             (mount "blob:v") in
  let s1 := step (EvPlayStep 1) s in
  map name (steps s) = ["Step 1"; "Step 2"]
  /\ steps (step (EvDeleteStep 0) s) = []
  /\ (map name (steps s1) = ["Step 1"; "Step 2"]
      /\ activeStepId s1 = Some iso /\ isLooping s1 = true)
  /\ (steps (step (EvDeleteStep 0) s1) = []
      /\ activeStepId (step (EvDeleteStep 0) s1) = None
      /\ isLooping (step (EvDeleteStep 0) s1) = false).
Proof.
  cbv zeta. split; [vm_compute; reflexivity|].
  split; [vm_compute; reflexivity|].
  split.
  - split; [vm_compute; reflexivity|].
    split; vm_compute; reflexivity.
  - split; [vm_compute; reflexivity|].
    split; vm_compute; reflexivity.
Qed.

(* ================================================================== *)
(** * Renaming a bookmark *)
(* ================================================================== *)

(** [trim] on texts with white space of one, two and three bytes: spaces
    and a tab, a no-break space (U+00A0), an ideographic space (U+3000) and
    a byte order mark (U+FEFF); bytes that merely resemble the encoding of
    white space are kept. *)
Example trim_examples :
  let nbsp := String (ascii_of_nat 194) (String (ascii_of_nat 160) "") in
  let ideographic :=
    String (ascii_of_nat 227)
      (String (ascii_of_nat 128) (String (ascii_of_nat 128) "")) in
  let bom :=
    String (ascii_of_nat 239)
      (String (ascii_of_nat 187) (String (ascii_of_nat 191) "")) in
  trim "  Turn left " = "Turn left"
  /\ trim (String (ascii_of_nat 9) " ") = ""
  /\ trim (nbsp ++ "A B" ++ ideographic ++ bom ++ " ") = "A B"
  /\ trim (ideographic ++ nbsp) = ""
  /\ trim (String (ascii_of_nat 160) "") = String (ascii_of_nat 160) ""
  /\ trim "" = "".
Proof.
  cbv zeta. split; [vm_compute; reflexivity|].
  split; [vm_compute; reflexivity|].
  split; [vm_compute; reflexivity|].
  split; [vm_compute; reflexivity|].
  split; vm_compute; reflexivity.
Qed.

Lemma map_id_renameStep i n (l : list Step) :
  map id (map (renameStep i n) l) = map id l.
Proof.
  rewrite map_map. apply map_ext. intros st. unfold renameStep.
  destruct (String.eqb (id st) i); reflexivity.
Qed.

Lemma map_range_renameStep i n (l : list Step) :
  map (fun st => (start st, end_ st)) (map (renameStep i n) l)
  = map (fun st => (start st, end_ st)) l.
Proof.
  rewrite map_map. apply map_ext. intros st. unfold renameStep.
  destruct (String.eqb (id st) i); reflexivity.
Qed.

(** Renaming, by identity: on blur of the item at position [n] holding
    [text], a text that trims to nothing changes nothing in the player and
    the input shows the stored name again; any other text becomes, as
    typed, the name of the entries with that item's identity and of no
    other entry.  Either way identities, ranges and order of the list, the
    loop range, the looping flag and the active bookmark are as before.
    When the identities are pairwise distinct a single entry is renamed. *)
Lemma rename_bookmark (s : VideoPlayer) (n : nat) (st : Step)
  (text : string) :
  nth_error (steps s) n = Some st ->
  let s' := step (EvNameBlur n text) s in
  let shown := fst (handleNameBlur st text s) in
  (trim text = "" -> s' = s /\ shown = name st)
  /\ (trim text <> "" ->
      shown = text
      /\ steps s' = map (renameStep (id st) text) (steps s)
      /\ nth_error (steps s') n
         = Some {| id := id st; name := text;
                   start := start st; end_ := end_ st |}
      /\ (forall m x,
            nth_error (steps s) m = Some x -> id x <> id st ->
            nth_error (steps s') m = Some x))
  /\ map id (steps s') = map id (steps s)
  /\ map (fun x => (start x, end_ x)) (steps s')
     = map (fun x => (start x, end_ x)) (steps s)
  /\ loopStart s' = loopStart s /\ loopEnd s' = loopEnd s
  /\ isLooping s' = isLooping s /\ activeStepId s' = activeStepId s
  /\ (trim text <> "" -> NoDup (map id (steps s)) ->
      steps s'
      = (firstn n (steps s)
         ++ {| id := id st; name := text;
               start := start st; end_ := end_ st |}
            :: skipn (S n) (steps s))%list).
Proof.
  intros Hn s' shown.
  assert (Hs' : s' = snd (handleNameBlur st text s)).
  { subst s'. unfold step. cbn [handle]. rewrite Hn.
    apply commit_unchanged; unfold handleNameBlur;
      destruct (String.eqb (trim text) ""); reflexivity. }
  destruct (String.eqb_spec (trim text) "") as [Hb | Hb].
  - assert (Ht : String.eqb (trim text) "" = true)
      by (apply String.eqb_eq; exact Hb).
    assert (Hsame : s' = s)
      by (rewrite Hs'; unfold handleNameBlur; rewrite Ht; reflexivity).
    split.
    { intros _. split; [exact Hsame|].
      subst shown. unfold handleNameBlur. rewrite Ht. reflexivity. }
    split; [intros H; contradiction|]. rewrite Hsame.
    repeat split; try reflexivity. intros H; contradiction.
  - assert (Ht : String.eqb (trim text) "" = false)
      by (apply String.eqb_neq; exact Hb).
    assert (Hst : steps s' = map (renameStep (id st) text) (steps s))
      by (rewrite Hs'; unfold handleNameBlur; rewrite Ht; reflexivity).
    split; [intros H; contradiction|]. split.
    { intros _. split.
      { subst shown. unfold handleNameBlur. rewrite Ht. reflexivity. }
      split; [exact Hst|]. rewrite Hst. split.
      - rewrite nth_error_map, Hn. cbn. unfold renameStep.
        rewrite String.eqb_refl. reflexivity.
      - intros m x Hm Hne. rewrite nth_error_map, Hm. cbn.
        unfold renameStep.
        destruct (String.eqb_spec (id x) (id st));
          [contradiction | reflexivity]. }
    rewrite Hst.
    split; [apply map_id_renameStep|].
    split; [apply map_range_renameStep|].
    rewrite Hs'. unfold handleNameBlur. rewrite Ht.
    repeat split; try reflexivity.
    intros _ Hnd. cbn.
    assert (Hother : forall x, id x <> id st -> renameStep (id st) text x = x).
    { intros x Hne. unfold renameStep.
      destruct (String.eqb_spec (id x) (id st));
        [contradiction | reflexivity]. }
    change (map (renameStep (id st) text) (steps s)
            = (firstn n (steps s)
               ++ {| id := id st; name := text; start := start st;
                     end_ := end_ st |} :: skipn (S n) (steps s))%list).
    rewrite (map_at_identity _ (id st) (steps s) Hnd Hother n st Hn eq_refl).
    unfold renameStep. rewrite String.eqb_refl. reflexivity.
Qed.

Lemma rename_bookmark_example :
  let s := run [EvLoadedMetadata (Fin 10);
                EvLoadSteps (fun _ => "t")
                  [{| i_name := "A"; i_start := Fin 2; i_end := Fin 4 |};
                   {| i_name := "B"; i_start := Fin 7; i_end := Fin 9 |}]]
             (mount "blob:v") in
  (step (EvNameBlur 1 "   ") s = s
   /\ fst (handleNameBlur
             {| id := "t-1"; name := "B"; start := Fin 7; end_ := Fin 9 |}
             "   " s) = "B")
  /\ nth_error (steps (step (EvNameBlur 1 "Turn left") s)) 1
     = Some {| id := "t-1"; name := "Turn left"; start := Fin 7;
               end_ := Fin 9 |}.
Proof.
  intros s.
  assert (Hn : nth_error (steps s) 1
               = Some {| id := "t-1"; name := "B"; start := Fin 7;
                         end_ := Fin 9 |}) by (vm_compute; reflexivity).
  split.
  - apply (proj1 (rename_bookmark s 1 _ "   " Hn)). vm_compute. reflexivity.
  - assert (Ht : trim "Turn left" <> "") by (vm_compute; discriminate).
    exact (proj1 (proj2 (proj2
             (proj1 (proj2 (rename_bookmark s 1 _ "Turn left" Hn)) Ht)))).
Qed.

(** C10, where the program departs from it.  Two adds that read the same
    timestamp give two bookmarks one identity (C9).  Committing the name
    "Intro" on the first item renames the second as well, where the claim
    has exactly that bookmark renamed. *)
Theorem shared_identity_rename :
  let iso := "2024-05-01T10:00:00.000Z" in
  let s := run [EvLoadedMetadata (Fin 10); EvAddStep iso; EvAddStep iso]
             (mount "blob:v") in
  map name (steps s) = ["Step 1"; "Step 2"]
  /\ map name (steps (step (EvNameBlur 0 "Intro") s)) = ["Intro"; "Intro"]
  /\ map id (steps (step (EvNameBlur 0 "Intro") s)) = [iso; iso].
Proof.
  cbv zeta. split; [vm_compute; reflexivity|].
  split; vm_compute; reflexivity.
Qed.

(* ================================================================== *)
(** * Identities of bookmarks *)
(* ================================================================== *)

Lemma to_uint_nonnil (n : nat) : Nat.to_uint n <> Decimal.Nil.
Proof.
  pose proof (Unsigned.to_of (Nat.to_uint n)) as H.
  rewrite Unsigned.of_to in H. rewrite H. unfold Decimal.unorm.
  destruct (Decimal.nzhead (Nat.to_uint n)); discriminate.
Qed.

Lemma natToString_inj (n m : nat) : natToString n = natToString m -> n = m.
Proof.
  unfold natToString. intros H. apply Unsigned.to_uint_inj.
  pose proof (NilZero.usu _ (to_uint_nonnil n)) as Hn.
  pose proof (NilZero.usu _ (to_uint_nonnil m)) as Hm.
  rewrite H in Hn. congruence.
Qed.

Lemma append_inj_l (p x y : string) : p ++ x = p ++ y -> x = y.
Proof.
  induction p as [|c r IH]; cbn; intros H; [exact H|].
  injection H as H. exact (IH H).
Qed.

Lemma length_append (a b : string) :
  String.length (a ++ b) = (String.length a + String.length b)%nat.
Proof. induction a as [|c r IH]; cbn; [reflexivity | now rewrite IH]. Qed.

(** Two texts with tails of equal length agree part by part. *)
Lemma append_split (a1 a2 b1 b2 : string) :
  a1 ++ b1 = a2 ++ b2 -> String.length b1 = String.length b2 ->
  a1 = a2 /\ b1 = b2.
Proof.
  revert a2. induction a1 as [|c r IH]; intros a2 H Hl.
  - destruct a2 as [|c2 r2]; [split; [reflexivity | exact H]|].
    cbn in H. apply (f_equal String.length) in H.
    cbn in H. rewrite length_append in H. lia.
  - destruct a2 as [|c2 r2].
    + cbn in H. apply (f_equal String.length) in H.
      cbn in H. rewrite length_append in H. lia.
    + cbn in H. injection H as -> H.
      destruct (IH r2 H Hl) as [-> ->]. split; reflexivity.
Qed.

Lemma digitsOnly_natToString (n : nat) : digitsOnly (natToString n) = true.
Proof. apply digitsOnly_string_of_uint. Qed.

Lemma digitsOnly_no_dash (a y : string) :
  digitsOnly (a ++ String "-" y) = false.
Proof.
  induction a as [|c r IH]; cbn; [reflexivity|].
  rewrite IH. apply andb_false_r.
Qed.

(** A text that ends in a dash and a numeral is split in one way only. *)
Lemma dash_numeral_split (a b x y : string) :
  digitsOnly x = true -> digitsOnly y = true ->
  a ++ "-" ++ x = b ++ "-" ++ y -> a = b /\ x = y.
Proof.
  intros Hx Hy. revert b.
  induction a as [|c r IH]; intros [|c' r']; cbn; intros H.
  - injection H as ->. split; reflexivity.
  - injection H as _ H. rewrite H, digitsOnly_no_dash in Hx. discriminate.
  - injection H as _ H. rewrite <- H, digitsOnly_no_dash in Hy.
    discriminate.
  - injection H as -> H. destruct (IH r' H) as [-> ->].
    split; reflexivity.
Qed.

Lemma In_stepsWithIds (now : nat -> string) (l : list ImportedStep) :
  forall k x,
    In x (map id (stepsWithIds now k l)) ->
    exists j, (k <= j < k + List.length l)%nat
              /\ x = now j ++ "-" ++ natToString j.
Proof.
  induction l as [|st rest IH]; intros k x; cbn; [contradiction|].
  intros [H | H].
  - exists k. split; [lia | symmetry; exact H].
  - destruct (IH (S k) x H) as (j & Hj & E). exists j. split; [lia | exact E].
Qed.

(** The entries of one import get pairwise distinct identities, whatever
    the clock returns from one element to the next. *)
Lemma NoDup_stepsWithIds (now : nat -> string) (l : list ImportedStep) :
  forall k, NoDup (map id (stepsWithIds now k l)).
Proof.
  induction l as [|st rest IH]; intros k; cbn; constructor.
  - intros Hin. destruct (In_stepsWithIds now rest (S k) _ Hin)
      as (j & Hj & E).
    apply dash_numeral_split in E as [_ E];
      try apply digitsOnly_natToString.
    apply natToString_inj in E. lia.
  - apply IH.
Qed.

Lemma import_ids_distinct (s : VideoPlayer) (now : nat -> string)
  (l : list ImportedStep) :
  NoDup (map id (steps (step (EvLoadSteps now l) s))).
Proof.
  unfold step. rewrite commit_unchanged by reflexivity.
  apply NoDup_stepsWithIds.
Qed.

Lemma steps_after_add (s : VideoPlayer) (iso : string) :
  map id (steps (step (EvAddStep iso) s)) = (map id (steps s) ++ [iso])%list.
Proof.
  unfold step. rewrite commit_unchanged by reflexivity.
  cbn. rewrite map_app. reflexivity.
Qed.

(** An add whose timestamp differs from every identity in the list keeps
    the identities distinct. *)
Lemma add_step_fresh_timestamp (s : VideoPlayer) (iso : string) :
  NoDup (map id (steps s)) -> ~ In iso (map id (steps s)) ->
  NoDup (map id (steps (step (EvAddStep iso) s))).
Proof.
  intros Hnd Hfresh. rewrite steps_after_add.
  apply NoDup_app; [exact Hnd | repeat constructor; intros [] |].
  intros x Hx [<- | []]. contradiction.
Qed.

(** C9, where the program departs from it: two adds that read the same
    timestamp give their two bookmarks the same identity, whatever the list
    held before. *)
Theorem add_step_same_timestamp (s : VideoPlayer) (iso : string) :
  let s' := step (EvAddStep iso) (step (EvAddStep iso) s) in
  map id (steps s') = (map id (steps s) ++ [iso; iso])%list
  /\ ~ NoDup (map id (steps s')).
Proof.
  intros s'. assert (H : map id (steps s')
                         = (map id (steps s) ++ [iso; iso])%list).
  { subst s'. rewrite !steps_after_add, <- app_assoc. reflexivity. }
  split; [exact H|]. rewrite H. intros Hnd.
  apply NoDup_remove_2 in Hnd. apply Hnd, in_or_app. right. left. reflexivity.
Qed.

Example add_step_twice_same_millisecond :
  map id (steps (run [EvLoadedMetadata (Fin 10);
                      EvAddStep "2024-05-01T10:00:00.000Z";
                      EvAddStep "2024-05-01T10:00:00.000Z"]
                   (mount "blob:v")))
  = ["2024-05-01T10:00:00.000Z"; "2024-05-01T10:00:00.000Z"].
Proof. vm_compute. reflexivity. Qed.

(* ================================================================== *)
(** * Timeline: more on the pointer-to-time mapping *)
(* ================================================================== *)


Lemma clampQ_mono (y z : Q) : (y <= z)%Q -> (clampQ y <= clampQ z)%Q.
Proof.
  intros H. unfold clampQ.
  destruct (Qltb y 1) eqn:A;
    [apply Qltb_iff in A | apply Qltb_false_iff in A];
    (destruct (Qltb z 1) eqn:B;
     [apply Qltb_iff in B | apply Qltb_false_iff in B]);
    (destruct (Qltb 0 y) eqn:C;
     [apply Qltb_iff in C | apply Qltb_false_iff in C]);
    (destruct (Qltb 0 z) eqn:D;
     [apply Qltb_iff in D | apply Qltb_false_iff in D]); lra.
Qed.

(** The value of [getSeekTime] on a track of positive width. *)
Lemma getSeekTime_positive_width (rect : DOMRect) (dq : Q) (e : MouseEvent) :
  (0 < width rect)%Q ->
  exists t,
    getSeekTime (Some rect) (Fin dq) e = Fin t
    /\ (t == clampQ ((clientX e - left rect) / width rect) * dq)%Q.
Proof.
  intros Hw. unfold getSeekTime.
  destruct (eqb (Fin dq) (Fin 0)) eqn:Hz.
  - exists 0%Q. split; [reflexivity|].
    apply Qeqb_iff in Hz. rewrite Hz. ring.
  - unfold sub, div. rewrite (Qsign_pos _ Hw), clamp_Fin. unfold mul.
    eexists. split; [reflexivity|].
    rewrite Qred_correct.
    assert (Hy : (Qred (Qred (clientX e - left rect) / width rect)
                  == (clientX e - left rect) / width rect)%Q)
      by (rewrite Qred_correct, Qred_correct; reflexivity).
    fold (clampQ (Qred (Qred (clientX e - left rect) / width rect))).
    assert (Hc : (clampQ (Qred (Qred (clientX e - left rect) / width rect))
                  == clampQ ((clientX e - left rect) / width rect))%Q).
    { apply Qle_antisym; apply clampQ_mono; rewrite Hy; apply Qle_refl. }
    rewrite Hc. reflexivity.
Qed.



(** X2: on a track of positive width and for a finite duration that is not
    negative, the mapped time does not decrease when the pointer moves to
    the right. *)
Theorem getSeekTime_monotone (rect : DOMRect) (dq : Q) (e1 e2 : MouseEvent) :
  (0 < width rect)%Q -> (0 <= dq)%Q ->
  (clientX e1 <= clientX e2)%Q ->
  leb (getSeekTime (Some rect) (Fin dq) e1)
      (getSeekTime (Some rect) (Fin dq) e2) = true.
Proof.
  intros Hw Hd Hx.
  destruct (getSeekTime_positive_width rect dq e1 Hw) as (t1 & -> & E1).
  destruct (getSeekTime_positive_width rect dq e2 Hw) as (t2 & -> & E2).
  apply leb_Fin_iff. rewrite E1, E2.
  apply Qmult_le_compat_r; [|exact Hd].
  apply clampQ_mono.
  apply Qmult_le_compat_r; [lra|].
  apply Qlt_le_weak, Qinv_lt_0_compat, Hw.
Qed.

Lemma getSeekTime_monotone_witness :
  leb (getSeekTime (Some {| left := 10; width := 200 |}) (Fin 20)
         {| clientX := 60 |})
      (getSeekTime (Some {| left := 10; width := 200 |}) (Fin 20)
         {| clientX := 110 |}) = true.
Proof.
  apply (getSeekTime_monotone {| left := 10; width := 200 |} 20
           {| clientX := 60 |} {| clientX := 110 |}).
  - reflexivity.
  - discriminate.
  - discriminate.
Defined.



(* ================================================================== *)
(** * Timeline: the drag flags *)
(* ================================================================== *)

Lemma step_mouseup (s : VideoPlayer) :
  step EvMouseUp s = setTimeline initialTimeline s.
Proof.
  unfold step. cbn [handle]. rewrite commit_unchanged by reflexivity.
  reflexivity.
Qed.

(** X6: a pointer-move sample changes at most one of the element's
    position, [loopStart] and [loopEnd], and with the playhead flag set it
    changes neither bound, whatever the other flags; it never touches the
    flags, the looping flag or the binding.  A pointer-up clears the three
    flags, after which a move changes nothing, and a pointer-down followed
    by a pointer-up leaves the state a pointer-up alone would leave. *)
Theorem drag_samples (s : VideoPlayer) (r : option DOMRect) (e : MouseEvent) :
  let s' := step (EvMouseMove r e) s in
  ((video s' = video s /\ loopStart s' = loopStart s)
   \/ (video s' = video s /\ loopEnd s' = loopEnd s)
   \/ (loopStart s' = loopStart s /\ loopEnd s' = loopEnd s))
  /\ (isDraggingPlayhead (timeline s) = true ->
      loopStart s' = loopStart s /\ loopEnd s' = loopEnd s)
  /\ timeline s' = timeline s
  /\ isLooping s' = isLooping s
  /\ activeStepId s' = activeStepId s
  /\ timeline (step EvMouseUp s) = initialTimeline
  /\ step (EvMouseMove r e) (step EvMouseUp s) = step EvMouseUp s
  /\ (forall t, step EvMouseUp (step (EvMouseDown t) s) = step EvMouseUp s).
Proof.
  intros s'. subst s'. unfold step at 1 2 3 4 5 6 7 8 9 10 11.
  destruct (commit_frame s (handle (EvMouseMove r e) s))
    as (-> & _ & -> & -> & -> & -> & ->).
  cbn [handle]. unfold handleMouseMove, onSeek, handleSeek.
  split; [|split; [|split; [|split; [|split; [|split; [|split]]]]]].
  - destruct (isDraggingPlayhead (timeline s)).
    { right. right. destruct (assign_currentTime _ _); split; reflexivity. }
    destruct (isDraggingStart (timeline s)).
    { right. left. destruct (ltb _ _); split; reflexivity. }
    left. destruct (isDraggingEnd (timeline s)); [destruct (gtb _ _)|];
      split; reflexivity.
  - intros ->. destruct (assign_currentTime _ _); split; reflexivity.
  - destruct (isDraggingPlayhead (timeline s));
      [destruct (assign_currentTime _ _); reflexivity|].
    destruct (isDraggingStart (timeline s));
      [destruct (ltb _ _); reflexivity|].
    destruct (isDraggingEnd (timeline s)); [destruct (gtb _ _)|];
      reflexivity.
  - destruct (isDraggingPlayhead (timeline s));
      [destruct (assign_currentTime _ _); reflexivity|].
    destruct (isDraggingStart (timeline s));
      [destruct (ltb _ _); reflexivity|].
    destruct (isDraggingEnd (timeline s)); [destruct (gtb _ _)|];
      reflexivity.
  - destruct (isDraggingPlayhead (timeline s));
      [destruct (assign_currentTime _ _); reflexivity|].
    destruct (isDraggingStart (timeline s));
      [destruct (ltb _ _); reflexivity|].
    destruct (isDraggingEnd (timeline s)); [destruct (gtb _ _)|];
      reflexivity.
  - rewrite step_mouseup. reflexivity.
  - rewrite step_mouseup. unfold step. cbn [handle].
    unfold handleMouseMove. cbn. apply commit_same.
  - intros t. rewrite !step_mouseup. unfold step. cbn [handle].
    rewrite commit_unchanged by (destruct t; reflexivity).
    destruct t; reflexivity.
Qed.

Lemma drag_samples_witness :
  let s := run [EvLoadedMetadata (Fin 20); EvMouseDown LoopEndHandle;
                EvMouseDown Playhead] (mount "blob:v") in
  let s' := step (EvMouseMove (Some {| left := 0; width := 100 |})
                    {| clientX := 50 |}) s in
  loopStart s' = loopStart s /\ loopEnd s' = loopEnd s.
Proof.
  intros s s'.
  assert (Hp : isDraggingPlayhead (timeline s) = true)
    by (vm_compute; reflexivity).
  exact (proj1 (proj2 (drag_samples s (Some {| left := 0; width := 100 |})
                         {| clientX := 50 |})) Hp).
Defined.

(* ================================================================== *)
(** * Seek requests *)
(* ================================================================== *)

Lemma assign_log (t : num) (v v' : HTMLVideoElement) :
  assign_currentTime t v = Some v' ->
  seekRequests v' = (seekRequests v ++ [v_currentTime v'])%list.
Proof.
  unfold assign_currentTime. destruct (isFinite t); [|discriminate].
  intros H. injection H as <-. reflexivity.
Qed.

(** One event makes at most one seek request, and the request is the
    position the element holds after it. *)
Lemma step_seek_log (ev : Event) (s : VideoPlayer) :
  seekRequests (video (step ev s)) = seekRequests (video s)
  \/ seekRequests (video (step ev s))
     = (seekRequests (video s) ++ [v_currentTime (video (step ev s))])%list.
Proof.
  unfold step.
  destruct (commit_frame s (handle ev s)) as (-> & _).
  destruct ev; cbn [handle]; try (left; reflexivity).
  - unfold handleTimeUpdate.
    assert (Hr : seekRequests (engine_report p (video s))
                 = seekRequests (video s))
      by (unfold engine_report; destruct (v_seeking _); reflexivity).
    destruct (isLooping _ && geb _ _); [|left; exact Hr].
    destruct (assign_currentTime _ _) as [v|] eqn:Ha; [|left; exact Hr].
    right. cbn. rewrite (assign_log _ _ _ Ha). cbn. rewrite Hr. reflexivity.
  - unfold togglePlayPause. destruct (v_paused _); left; reflexivity.
  - unfold handleReset.
    destruct (assign_currentTime _ _) as [v|] eqn:Ha; [|left; reflexivity].
    right. cbn. exact (assign_log _ _ _ Ha).
  - unfold handleSetLoopStart. destruct (ltb _ _); left; reflexivity.
  - unfold handleSetLoopEnd. destruct (gtb _ _); left; reflexivity.
  - unfold handleTimelineClick, onSeek, handleSeek.
    destruct (assign_currentTime _ _) as [v|] eqn:Ha; [|left; reflexivity].
    right. cbn. exact (assign_log _ _ _ Ha).
  - destruct t; left; reflexivity.
  - unfold handleMouseMove, onSeek, handleSeek.
    destruct (isDraggingPlayhead _).
    { destruct (assign_currentTime _ _) as [v|] eqn:Ha; [|left; reflexivity].
      right. cbn. exact (assign_log _ _ _ Ha). }
    destruct (isDraggingStart _); [destruct (ltb _ _); left; reflexivity|].
    destruct (isDraggingEnd _); [destruct (gtb _ _)|]; left; reflexivity.
  - destruct (nth_error _ _) as [st|]; [|left; reflexivity].
    unfold handlePlayStep, handleSeek.
    destruct (assign_currentTime _ _) as [v|] eqn:Ha; [|left; reflexivity].
    right. pose proof (assign_log _ _ _ Ha) as Hlog. cbn in Hlog.
    destruct (v_paused _) eqn:Hp; cbn in Hp; cbn.
    + unfold togglePlayPause. cbn. rewrite Hp. cbn. exact Hlog.
    + exact Hlog.
  - destruct (nth_error _ _) as [st|]; [|left; reflexivity].
    unfold handleDeleteStep.
    destruct (activeStepId s) as [a|]; [destruct (String.eqb a _)|];
      left; reflexivity.
  - destruct (nth_error _ _) as [st|]; [|left; reflexivity].
    unfold handleNameBlur. destruct (String.eqb _ _); left; reflexivity.
Qed.

Lemma expected_keeps_duration (ev : Event) (s : VideoPlayer) :
  expected s ev = true -> duration (step ev s) = duration s.
Proof.
  intros Hev. unfold step.
  destruct (commit_frame s (handle ev s)) as (_ & -> & _).
  destruct ev; cbn [handle]; try reflexivity.
  - discriminate.
  - unfold handleTimeUpdate.
    destruct (isLooping _ && geb _ _);
      [destruct (assign_currentTime _ _)|]; reflexivity.
  - unfold togglePlayPause. destruct (v_paused _); reflexivity.
  - unfold handleReset. destruct (assign_currentTime _ _); reflexivity.
  - unfold handleSetLoopStart. destruct (ltb _ _); reflexivity.
  - unfold handleSetLoopEnd. destruct (gtb _ _); reflexivity.
  - unfold handleTimelineClick, onSeek, handleSeek.
    destruct (assign_currentTime _ _); reflexivity.
  - destruct t; reflexivity.
  - unfold handleMouseMove, onSeek, handleSeek.
    destruct (isDraggingPlayhead _);
      [destruct (assign_currentTime _ _); reflexivity|].
    destruct (isDraggingStart _); [destruct (ltb _ _); reflexivity|].
    destruct (isDraggingEnd _); [destruct (gtb _ _)|]; reflexivity.
  - destruct (nth_error _ _); [|reflexivity].
    unfold handlePlayStep, handleSeek.
    destruct (assign_currentTime _ _); [|reflexivity].
    destruct (v_paused _); [unfold togglePlayPause; destruct (v_paused _)|];
      reflexivity.
  - destruct (nth_error _ _); [|reflexivity].
    unfold handleDeleteStep.
    destruct (activeStepId s) as [a|]; [destruct (String.eqb a _)|];
      reflexivity.
  - destruct (nth_error _ _); [|reflexivity].
    unfold handleNameBlur. destruct (String.eqb _ _); reflexivity.
Qed.

Lemma seeks_within_media_run (d : num) (evs : list Event) :
  forall s,
    Inv s -> duration s = d ->
    Forall (fun t => leb (Fin 0) t = true /\ leb t d = true)
      (seekRequests (video s)) ->
    expectedRun s evs = true ->
    Forall (fun t => leb (Fin 0) t = true /\ leb t d = true)
      (seekRequests (video (run evs s)))
    /\ duration (run evs s) = d.
Proof.
  induction evs as [|ev rest IH]; intros s HI Hd Hlog Hrun; cbn [run].
  - split; assumption.
  - cbn [expectedRun] in Hrun. apply andb_true_iff in Hrun as [Hev Hrest].
    pose proof (step_keeps_Inv s ev HI Hev) as HI'.
    pose proof (expected_keeps_duration ev s Hev) as Hd'.
    apply IH; try assumption; [congruence|].
    destruct (step_seek_log ev s) as [-> | ->]; [exact Hlog|].
    apply Forall_app. split; [exact Hlog|].
    constructor; [|constructor].
    destruct HI' as [_ HP]. apply PosInv_iff in HP.
    rewrite Hd', Hd in HP. exact HP.
Qed.

(** X7: no handler requests more than one seek, and along every run that
    starts when the metadata of a source with a positive duration arrives
    (engine reports within the media, played bookmarks with valid ranges),
    every seek the program requests, whether from the loop, the reset
    button, a click, a playhead drag or a played bookmark, targets a time
    within [0, duration]. *)
Theorem seeks_within_media (url : string) (d : num) (evs : list Event) :
  ltb (Fin 0) d = true ->
  expectedRun (step (EvLoadedMetadata d) (mount url)) evs = true ->
  let s := run evs (step (EvLoadedMetadata d) (mount url)) in
  Forall (fun t => leb (Fin 0) t = true /\ leb t d = true)
    (seekRequests (video s))
  /\ duration s = d
  /\ (forall ev x,
        (List.length (seekRequests (video (step ev x)))
         <= S (List.length (seekRequests (video x))))%nat).
Proof.
  intros Hd Hrun s.
  destruct (seeks_within_media_run d evs
              (step (EvLoadedMetadata d) (mount url))) as [A B].
  - apply Inv_after_metadata; [apply PreInv_mount | exact Hd].
  - unfold step.
    destruct (commit_frame (mount url)
                (handle (EvLoadedMetadata d) (mount url))) as (_ & -> & _).
    reflexivity.
  - unfold step.
    destruct (commit_frame (mount url)
                (handle (EvLoadedMetadata d) (mount url))) as (-> & _).
    constructor.
  - exact Hrun.
  - split; [exact A|]. split; [exact B|].
    intros ev x. destruct (step_seek_log ev x) as [-> | ->].
    + apply Nat.le_succ_diag_r.
    + rewrite length_app. cbn. rewrite Nat.add_1_r. apply Nat.le_refl.
Qed.

Lemma seeks_within_media_witness :
  let s := run [EvTimeUpdate (Fin 3); EvSetLoopStart; EvToggleLoop;
                EvTimelineClick (Some {| left := 0; width := 100 |})
                  {| clientX := 250 |};
                EvTimeUpdate (Fin 20); EvResetClick]
             (step (EvLoadedMetadata (Fin 20)) (mount "blob:v")) in
  Forall (fun t => leb (Fin 0) t = true /\ leb t (Fin 20) = true)
    (seekRequests (video s)).
Proof.
  intros s.
  assert (Hd : ltb (Fin 0) (Fin 20) = true) by reflexivity.
  assert (Hrun : expectedRun (step (EvLoadedMetadata (Fin 20))
                                (mount "blob:v"))
                   [EvTimeUpdate (Fin 3); EvSetLoopStart; EvToggleLoop;
                    EvTimelineClick (Some {| left := 0; width := 100 |})
                      {| clientX := 250 |};
                    EvTimeUpdate (Fin 20); EvResetClick] = true)
    by (vm_compute; reflexivity).
  exact (proj1 (seeks_within_media "blob:v" (Fin 20) _ Hd Hrun)).
Defined.

(* ================================================================== *)
(** * Play, pause and speed *)
(* ================================================================== *)

Lemma commit_frame_playback (old new : VideoPlayer) :
  isPlaying (commit old new) = isPlaying new
  /\ playbackRate (commit old new) = playbackRate new
  /\ currentTime (commit old new) = currentTime new.
Proof.
  unfold commit, syncActiveStep. destruct (syncDepsChanged old new);
    [|repeat split; reflexivity].
  destruct (activeStepId new) as [a|]; [destruct (truthy a)|];
    repeat split; reflexivity.
Qed.

(* ================================================================== *)
(** * Bookmarks: adding, exporting and importing *)
(* ================================================================== *)

Lemma step_add (s : VideoPlayer) (iso : string) :
  step (EvAddStep iso) s = handleAddStep iso s.
Proof. unfold step. cbn [handle]. now rewrite commit_unchanged. Qed.

Lemma step_load (s : VideoPlayer) (now : nat -> string)
  (l : list ImportedStep) :
  step (EvLoadSteps now l) s = handleLoadSteps now l s.
Proof. unfold step. cbn [handle]. now rewrite commit_unchanged. Qed.

Lemma map_id_addedSteps (k : nat) (a b : num) (isos : list string) :
  map id (addedSteps k a b isos) = isos.
Proof.
  revert k. induction isos as [|iso rest IH]; intros k; cbn;
    [reflexivity | now rewrite IH].
Qed.

Lemma run_adds (isos : list string) :
  forall s,
    steps (run (map EvAddStep isos) s)
    = (steps s
       ++ addedSteps (List.length (steps s)) (loopStart s) (loopEnd s)
            isos)%list
    /\ loopStart (run (map EvAddStep isos) s) = loopStart s
    /\ loopEnd (run (map EvAddStep isos) s) = loopEnd s
    /\ activeStepId (run (map EvAddStep isos) s) = activeStepId s
    /\ isLooping (run (map EvAddStep isos) s) = isLooping s.
Proof.
  induction isos as [|iso rest IH]; intros s; cbn [map run].
  - cbn. rewrite app_nil_r. repeat split; reflexivity.
  - rewrite step_add. destruct (IH (handleAddStep iso s))
      as (A & B & C & D & E).
    rewrite A, B, C, D, E. cbn.
    rewrite length_app, <- app_assoc. cbn.
    rewrite Nat.add_1_r. repeat split; reflexivity.
Qed.

(** X9: successive adds append, in order, one bookmark per click: its
    identity is the timestamp read, its name counts from the length of the
    list, and its range is the loop range, which the adds do not change;
    nothing else in the list, the binding or the looping flag changes.  The
    identities are therefore pairwise distinct afterwards exactly when the
    old identities followed by the timestamps are. *)
Theorem adds_append (s : VideoPlayer) (isos : list string) :
  let s' := run (map EvAddStep isos) s in
  steps s'
  = (steps s
     ++ addedSteps (List.length (steps s)) (loopStart s) (loopEnd s) isos)%list
  /\ map id (steps s') = (map id (steps s) ++ isos)%list
  /\ (NoDup (map id (steps s')) <-> NoDup (map id (steps s) ++ isos)%list)
  /\ loopStart s' = loopStart s /\ loopEnd s' = loopEnd s
  /\ activeStepId s' = activeStepId s /\ isLooping s' = isLooping s.
Proof.
  intros s'. destruct (run_adds isos s) as (A & B & C & D & E).
  assert (Hid : map id (steps s') = (map id (steps s) ++ isos)%list).
  { subst s'. rewrite A, map_app, map_id_addedSteps. reflexivity. }
  split; [exact A|]. split; [exact Hid|].
  split; [rewrite Hid; tauto|]. repeat split; assumption.
Qed.



(** X12: after an import, adds whose timestamps are pairwise distinct and
    as long as the timestamps read during the import (the text of
    [toISOString] has a fixed length) keep all identities pairwise
    distinct, even an add that reads the very timestamp of an imported
    entry. *)
Theorem adds_after_import_distinct (s : VideoPlayer) (now : nat -> string)
  (l : list ImportedStep) (isos : list string) :
  NoDup isos ->
  Forall (fun i => forall j, (j < List.length l)%nat ->
                             String.length i = String.length (now j)) isos ->
  NoDup (map id (steps (run (EvLoadSteps now l :: map EvAddStep isos) s))).
Proof.
  intros Hnd Hlen. cbn [run].
  destruct (run_adds isos (step (EvLoadSteps now l) s)) as (A & _).
  rewrite A, map_app, map_id_addedSteps.
  apply NoDup_app; [apply import_ids_distinct | exact Hnd |].
  intros x Hx Hin. rewrite step_load in Hx. cbn in Hx.
  destruct (In_stepsWithIds now l 0 x Hx) as (j & Hj & E).
  rewrite Forall_forall in Hlen. specialize (Hlen x Hin j ltac:(lia)).
  rewrite E, length_append in Hlen. cbn in Hlen. lia.
Qed.

Lemma adds_after_import_distinct_witness :
  NoDup (map id (steps (run (EvLoadSteps
                               (fun i => match i with
                                         | O => "2024-05-01T10:00:00.000Z"
                                         | _ => "2024-05-01T10:00:00.001Z"
                                         end)
                               [{| i_name := "A"; i_start := Fin 2;
                                   i_end := Fin 4 |};
                                {| i_name := "B"; i_start := Fin 7;
                                   i_end := Fin 9 |}]
                             :: map EvAddStep
                                  ["2024-05-01T10:00:00.000Z";
                                   "2024-05-01T10:00:00.250Z"])
                          (mount "blob:v")))).
Proof.
  apply (adds_after_import_distinct (mount "blob:v")).
  - repeat constructor; cbn; intros H;
      repeat (destruct H as [H|H]; [discriminate H|]); exact H.
  - repeat constructor; intros [|[|j]] Hj; cbn in Hj; try reflexivity; lia.
Defined.

Lemma adds_append_witness :
  let s := run [EvLoadedMetadata (Fin 20)] (mount "blob:v") in
  NoDup (map id (steps (run (map EvAddStep ["2024-05-01T10:00:00.000Z";
                                            "2024-05-01T10:00:01.000Z"])
                          s))).
Proof.
  intros s.
  apply (proj2 (proj1 (proj2 (proj2
           (adds_append s ["2024-05-01T10:00:00.000Z";
                           "2024-05-01T10:00:01.000Z"]))))).
  vm_compute. repeat constructor; cbn; intros H;
    repeat (destruct H as [H|H]; [discriminate H|]); exact H.
Defined.

(* ================================================================== *)
(** * Bookmarks: when nothing is bound *)
(* ================================================================== *)

Lemma map_mirrorRange_absent (a : string) (x y : num) (l : list Step) :
  ~ In a (map id l) -> map (mirrorRange a x y) l = l.
Proof.
  intros Hn. rewrite <- (map_id l) at 2. apply map_ext_in.
  intros st Hst. apply mirrorRange_other.
  exact (not_In_id l st a Hn Hst).
Qed.

(** X13: when no bookmark is bound (there is no active identity, or no
    entry of the list carries it, as after an import replaced the list),
    an event that is not a bookmark command leaves the list exactly as it
    is, however it changes the loop range.  Deleting the item that carries
    the active identity, and an import while a bookmark is active, both
    lead to such a state. *)
Theorem unbound_list_is_not_written (s : VideoPlayer) :
  (forall ev,
     bookmarkEvent ev = false ->
     match activeStepId s with
     | None => True
     | Some a => ~ In a (map id (steps s))
     end ->
     steps (step ev s) = steps s
     /\ activeStepId (step ev s) = activeStepId s)
  /\ (forall n st,
        nth_error (steps s) n = Some st ->
        activeStepId s = Some (id st) ->
        activeStepId (step (EvDeleteStep n) s) = None)
  /\ (forall now l a,
        activeStepId s = Some a ->
        (forall j, (j < List.length l)%nat ->
                   String.length a = String.length (now j)) ->
        activeStepId (step (EvLoadSteps now l) s) = Some a
        /\ ~ In a (map id (steps (step (EvLoadSteps now l) s)))).
Proof.
  split; [|split].
  - intros ev Hev Hun.
    destruct (handle_steps_frame ev s Hev) as [Hst Hid]. split.
    + unfold step. rewrite commit_steps, Hid, Hst.
      destruct (syncDepsChanged _ _); [|reflexivity].
      destruct (activeStepId s) as [a|]; [|reflexivity].
      destruct (truthy a); [|reflexivity].
      apply map_mirrorRange_absent. exact Hun.
    + unfold step.
      destruct (commit_frame s (handle ev s)) as (_ & _ & _ & _ & _ & -> & _).
      exact Hid.
  - intros n st Hn Ha. unfold step.
    destruct (commit_frame s (handle (EvDeleteStep n) s))
      as (_ & _ & _ & _ & _ & -> & _).
    cbn [handle]. rewrite Hn. unfold handleDeleteStep.
    rewrite Ha, String.eqb_refl. reflexivity.
  - intros now l a Ha Hlen. rewrite step_load. split; [exact Ha|].
    cbn. intros Hin.
    destruct (In_stepsWithIds now l 0 a Hin) as (j & Hj & E).
    specialize (Hlen j ltac:(lia)).
    rewrite E, length_append in Hlen at 1. cbn in Hlen. lia.
Qed.

Lemma unbound_list_is_not_written_witness :
  let s := run [EvLoadedMetadata (Fin 20);
                EvAddStep "2024-05-01T10:00:00.000Z"; EvPlayStep 0;
                EvLoadSteps (fun _ => "2024-05-01T10:05:00.000Z")
                  [{| i_name := "A"; i_start := Fin 2; i_end := Fin 4 |}];
                EvTimeUpdate (Fin 7)] (mount "blob:v") in
  let s0 := run [EvLoadedMetadata (Fin 20);
                 EvAddStep "2024-05-01T10:00:00.000Z"; EvPlayStep 0]
              (mount "blob:v") in
  (steps (step EvSetLoopEnd s) = steps s
   /\ activeStepId (step EvSetLoopEnd s) = activeStepId s)
  /\ activeStepId (step (EvDeleteStep 0) s0) = None.
Proof.
  intros s s0. split.
  - assert (Hun : match activeStepId s with
                  | None => True
                  | Some a => ~ In a (map id (steps s))
                  end).
    { vm_compute. intros [H|H]; [discriminate H | exact H]. }
    exact (proj1 (unbound_list_is_not_written s) EvSetLoopEnd eq_refl Hun).
  - assert (Hn : nth_error (steps s0) 0
                 = Some {| id := "2024-05-01T10:00:00.000Z";
                           name := "Step 1"; start := Fin 0;
                           end_ := Fin 20 |})
      by (vm_compute; reflexivity).
    assert (Ha : activeStepId s0 = Some "2024-05-01T10:00:00.000Z")
      by (vm_compute; reflexivity).
    exact (proj1 (proj2 (unbound_list_is_not_written s0)) 0%nat _ Hn Ha).
Defined.

(* ================================================================== *)
(** * App *)
(* ================================================================== *)

(** X14: in every reachable state of the application a player is mounted
    exactly when [App] holds a source, and it is the player mounted for
    that source; closing the file dialog without a file changes nothing,
    "New Video" unmounts the player, and the player mounted for the next
    source starts without bookmarks, paused, at normal speed and at time
    zero: nothing of the previous session is carried over. *)
Theorem source_change_discards_session (a : App) (f : File) (url : string) :
  reachable a ->
  (if showsPlayer a
   then exists p, player a = Some p /\ app_videoUrl a = Some (videoUrl p)
   else player a = None)
  /\ app_step (FileChange None url) a = a
  /\ player (app_step NewVideo a) = None
  /\ (truthy url = true ->
      exists p,
        player (app_step (FileChange (Some f) url) (app_step NewVideo a))
        = Some p
        /\ videoUrl p = url /\ v_src (video p) = url
        /\ steps p = [] /\ isPlaying p = false
        /\ v_paused (video p) = true
        /\ playbackRate p = Fin 1 /\ currentTime p = Fin 0
        /\ seekRequests (video p) = []).
Proof.
  intros Hr. split; [exact (mounted_for_current_source a Hr)|].
  split; [reflexivity|]. split; [reflexivity|].
  intros Hu. exists (mount url). cbn. rewrite Hu.
  repeat split; reflexivity.
Qed.

Lemma source_change_discards_session_witness :
  let a := app_step (Player (EvAddStep "2024-05-01T10:00:00.000Z"))
             (app_step (FileChange (Some {| file_name := "a.mp4" |})
                          "blob:1") initialApp) in
  exists p,
    player (app_step (FileChange (Some {| file_name := "b.mp4" |}) "blob:2")
              (app_step NewVideo a)) = Some p
    /\ videoUrl p = "blob:2" /\ v_src (video p) = "blob:2"
    /\ steps p = [] /\ isPlaying p = false
    /\ v_paused (video p) = true
    /\ playbackRate p = Fin 1 /\ currentTime p = Fin 0
    /\ seekRequests (video p) = [].
Proof.
  intros a.
  assert (Hreach : reachable a).
  { apply reach_step; [|vm_compute; reflexivity].
    apply reach_step; [|vm_compute; reflexivity].
    apply reach_init. }
  exact (proj2 (proj2 (proj2
           (source_change_discards_session a {| file_name := "b.mp4" |}
              "blob:2" Hreach))) eq_refl).
Defined.

(* ================================================================== *)
(** * StepsSidebar: reading a steps file *)
(* ================================================================== *)

Lemma hasFields_true_iff (item : JSON) :
  hasFields item = Some true <-> acceptable item.
Proof.
  unfold acceptable. split.
  - destruct item as [| b | x | t | items | fields]; cbn; try discriminate.
    intros H. injection H as H.
    apply andb_true_iff in H as [H H3]. apply andb_true_iff in H as [H1 H2].
    exists fields. repeat split; assumption.
  - intros (fields & -> & H1 & H2 & H3). cbn. now rewrite H1, H2, H3.
Qed.

Lemma every_true_iff (data : list JSON) :
  every data = Some true <-> Forall acceptable data.
Proof.
  induction data as [|item rest IH]; cbn.
  - split; [constructor | reflexivity].
  - destruct (hasFields item) as [[|]|] eqn:E.
    + rewrite IH. apply hasFields_true_iff in E. split.
      * intros H. constructor; assumption.
      * intros H. inversion H. assumption.
    + split; [discriminate|]. intros H. inversion H as [|? ? Hi _].
      apply hasFields_true_iff in Hi. congruence.
    + split; [discriminate|]. intros H. inversion H as [|? ? Hi _].
      apply hasFields_true_iff in Hi. congruence.
Qed.

Lemma every_throws_iff (data : list JSON) :
  every data = None
  <-> exists front item rest,
        data = (front ++ item :: rest)%list
        /\ Forall acceptable front /\ hasFields item = None.
Proof.
  induction data as [|item rest IH]; cbn.
  - split; [discriminate|]. intros (front & x & r & E & _).
    destruct front; discriminate.
  - destruct (hasFields item) as [[|]|] eqn:E.
    + rewrite IH. split.
      * intros (front & x & r & -> & Hf & Hx).
        exists (item :: front), x, r.
        split; [reflexivity|]. split; [|exact Hx].
        constructor; [apply hasFields_true_iff; exact E | exact Hf].
      * intros (front & x & r & Hd & Hf & Hx).
        destruct front as [|y front]; cbn in Hd; injection Hd as -> ->.
        -- congruence.
        -- inversion Hf. exists front, x, r. repeat split; assumption.
    + split; [discriminate|]. intros (front & x & r & Hd & Hf & Hx).
      destruct front as [|y front]; cbn in Hd; injection Hd as -> ->.
      * congruence.
      * inversion Hf as [|? ? Hy _]. apply hasFields_true_iff in Hy.
        congruence.
    + split; [|reflexivity]. intros _. exists [], item, rest.
      repeat split; [constructor | exact E].
Qed.

(** X15: a steps file is imported as a whole or not at all.
    [onLoadSteps] is called, with the complete parsed array, exactly when
    the text parses to an array whose every element is an object having the
    keys [name], [start] and [end] (the values are not inspected; an empty
    array qualifies); in every other case the user gets an alert, and it is
    the "Failed to read or parse" one exactly when the text does not parse
    or when, in an array, the first element that is not such an object is
    not an object at all. *)
Theorem steps_file_all_or_nothing (parsed : option JSON) :
  (forall data,
     onload parsed = onLoadSteps data
     <-> parsed = Some (JArray data) /\ Forall acceptable data)
  /\ ((exists data, onload parsed = onLoadSteps data)
      \/ onload parsed = alert "Invalid steps file format."
      \/ onload parsed = alert "Failed to read or parse the steps file.")
  /\ (onload parsed = alert "Failed to read or parse the steps file."
      <-> parsed = None
          \/ exists front item rest,
               parsed = Some (JArray (front ++ item :: rest)%list)
               /\ Forall acceptable front /\ hasFields item = None).
Proof.
  split; [|split].
  - intros data. unfold onload.
    destruct parsed as [[| b | x | t | items | fields]|];
      try (split; [discriminate | intros [H _]; discriminate H]).
    destruct (every items) as [[|]|] eqn:E.
    + split.
      * intros H. injection H as <-. split; [reflexivity|].
        apply every_true_iff. exact E.
      * intros [H _]. injection H as ->. reflexivity.
    + split; [discriminate|]. intros [H Hall]. injection H as ->.
      apply every_true_iff in Hall. congruence.
    + split; [discriminate|]. intros [H Hall]. injection H as ->.
      apply every_true_iff in Hall. congruence.
  - unfold onload.
    destruct parsed as [[| b | x | t | items | fields]|];
      try (right; left; reflexivity); try (right; right; reflexivity).
    destruct (every items) as [[|]|].
    + left. exists items. reflexivity.
    + right. left. reflexivity.
    + right. right. reflexivity.
  - unfold onload.
    destruct parsed as [[| b | x | t | items | fields]|];
      try (split; [discriminate
                  | intros [H | (fr & it & re & H & _)]; discriminate H]).
    + destruct (every items) as [[|]|] eqn:E.
      * split; [discriminate|].
        intros [H | (fr & it & re & H & Hf & Hi)]; [discriminate H|].
        injection H as ->.
        assert (every (fr ++ it :: re)%list = None)
          by (apply every_throws_iff; exists fr, it, re; auto).
        congruence.
      * split; [discriminate|].
        intros [H | (fr & it & re & H & Hf & Hi)]; [discriminate H|].
        injection H as ->.
        assert (every (fr ++ it :: re)%list = None)
          by (apply every_throws_iff; exists fr, it, re; auto).
        congruence.
      * split; [|reflexivity]. intros _. right.
        apply every_throws_iff in E as (fr & it & re & -> & Hf & Hi).
        exists fr, it, re. auto.
    + split; [|reflexivity]. intros _. left. reflexivity.
Qed.

Lemma steps_file_all_or_nothing_witness :
  onload (Some (JArray [JObject [("name", JString "A");
                                 ("start", JNumber (Fin 2));
                                 ("end", JString "soon")]]))
  = onLoadSteps [JObject [("name", JString "A");
                          ("start", JNumber (Fin 2));
                          ("end", JString "soon")]].
Proof.
  apply (proj1 (steps_file_all_or_nothing _)). split; [reflexivity|].
  constructor; [|constructor].
  eexists. split; [reflexivity|]. repeat split; reflexivity.
Defined.

Lemma every_exported (l : list ImportedStep) :
  every (map jsonOfImported l) = Some true.
Proof. induction l as [|x rest IH]; cbn; [reflexivity | exact IH]. Qed.

(** X16: what [handleSaveSteps] writes is accepted when it is read back,
    and every record whose bounds are finite is read back as it was: same
    name, same start, same end, in the same order.  A bound that is not
    finite is written as [null]; the record still passes the validation,
    but no longer has numeric bounds. *)
Theorem exported_file_reads_back (l : list ImportedStep) :
  onload (Some (JArray (map jsonOfImported l)))
  = onLoadSteps (map jsonOfImported l)
  /\ (Forall (fun st => isFinite (i_start st) = true
                        /\ isFinite (i_end st) = true) l ->
      map importedOfJson (map jsonOfImported l) = map Some l)
  /\ (forall st,
        isFinite (i_start st) = false \/ isFinite (i_end st) = false ->
        importedOfJson (jsonOfImported st) = None).
Proof.
  split; [|split].
  - unfold onload. rewrite every_exported. reflexivity.
  - induction l as [|x rest IH]; intros H; cbn; [reflexivity|].
    inversion H as [|? ? [Ha Hb] Hrest]; subst.
    rewrite (IH Hrest). f_equal.
    unfold importedOfJson, jsonOfImported, jsonOfNum. rewrite Ha, Hb.
    destruct x; reflexivity.
  - intros st H. unfold importedOfJson, jsonOfImported, jsonOfNum.
    destruct (isFinite (i_start st)) eqn:Ha;
      destruct (isFinite (i_end st)) eqn:Hb; cbn; try reflexivity.
    destruct H; discriminate.
Qed.

Lemma exported_file_reads_back_witness :
  let s := run [EvLoadedMetadata (Fin 20);
                EvAddStep "2024-05-01T10:00:00.000Z"] (mount "blob:v") in
  map importedOfJson (map jsonOfImported (exportedSteps s))
  = map Some (exportedSteps s).
Proof.
  intros s.
  apply (proj1 (proj2 (exported_file_reads_back (exportedSteps s)))).
  vm_compute. repeat constructor.
Defined.

Lemma importedOfJson_exported (l : list ImportedStep) :
  Forall (fun st => isFinite (i_start st) = true
                    /\ isFinite (i_end st) = true) l ->
  map importedOfJson (map jsonOfImported l) = map Some l.
Proof.
  induction l as [|x rest IH]; intros H; cbn; [reflexivity|].
  inversion H as [|? ? [Ha Hb] Hrest]; subst.
  rewrite (IH Hrest). f_equal.
  unfold importedOfJson, jsonOfImported, jsonOfNum. rewrite Ha, Hb.
  destruct x; reflexivity.
Qed.

Lemma stepsWithIds_of_export (now : nat -> string) (l : list Step) :
  forall k,
    map (fun st => (name st, start st, end_ st))
      (stepsWithIds now k
         (map (fun step => {| i_name := name step; i_start := start step;
                              i_end := end_ step |}) l))
    = map (fun st => (name st, start st, end_ st)) l.
Proof.
  induction l as [|x rest IH]; intros k; cbn; [reflexivity|].
  now rewrite IH.
Qed.

(** X10: saving and then loading the saved file.  For a list that is not
    empty and whose bounds are all finite, [handleSaveSteps] writes one
    record per bookmark; read back, the file passes the validation and its
    items are those records; handing them to [handleLoadSteps] gives a list
    with the same names and ranges in the same order, under fresh, pairwise
    distinct identities, and leaves the loop range, the looping flag and
    the active identity as they were. *)
Theorem save_then_load (s : VideoPlayer) (now : nat -> string) :
  steps s <> [] ->
  Forall (fun st => isFinite (start st) = true
                    /\ isFinite (end_ st) = true) (steps s) ->
  exists records,
    handleSaveSteps s = Some records
    /\ onload (Some (JArray (map jsonOfImported records)))
       = onLoadSteps (map jsonOfImported records)
    /\ map importedOfJson (map jsonOfImported records) = map Some records
    /\ (let s' := step (EvLoadSteps now records) s in
        map (fun st => (name st, start st, end_ st)) (steps s')
        = map (fun st => (name st, start st, end_ st)) (steps s)
        /\ NoDup (map id (steps s'))
        /\ loopStart s' = loopStart s /\ loopEnd s' = loopEnd s
        /\ isLooping s' = isLooping s
        /\ activeStepId s' = activeStepId s).
Proof.
  intros Hne Hfin. exists (exportedSteps s).
  split.
  { unfold handleSaveSteps. destruct (steps s); [contradiction|reflexivity]. }
  split; [unfold onload; rewrite every_exported; reflexivity|].
  split.
  { apply importedOfJson_exported. unfold exportedSteps.
    rewrite Forall_map. exact Hfin. }
  cbv zeta. split; [|split].
  - rewrite step_load. apply stepsWithIds_of_export.
  - apply import_ids_distinct.
  - rewrite step_load. repeat split; reflexivity.
Qed.

Lemma save_then_load_witness :
  let s := run [EvLoadedMetadata (Fin 20);
                EvAddStep "2024-05-01T10:00:00.000Z"; EvTimeUpdate (Fin 7);
                EvSetLoopEnd; EvAddStep "2024-05-01T10:00:05.000Z"]
             (mount "blob:v") in
  exists records,
    handleSaveSteps s = Some records
    /\ map importedOfJson (map jsonOfImported records) = map Some records
    /\ map (fun st => (name st, start st, end_ st))
         (steps (step (EvLoadSteps (fun _ => "2024-05-01T10:09:00.000Z")
                         records) s))
       = [("Step 1", Fin 0, Fin 20); ("Step 2", Fin 0, Fin 7)].
Proof.
  intros s.
  assert (Hne : steps s <> []) by (vm_compute; discriminate).
  assert (Hfin : Forall (fun st => isFinite (start st) = true
                                   /\ isFinite (end_ st) = true) (steps s))
    by (vm_compute; repeat constructor).
  destruct (save_then_load s (fun _ => "2024-05-01T10:09:00.000Z") Hne Hfin)
    as (records & A & _ & B & C & _).
  exists records. split; [exact A|]. split; [exact B|].
  rewrite C. vm_compute. reflexivity.
Defined.

(* ================================================================== *)
(** * Reset to the start of the loop *)
(* ================================================================== *)

(** X18: the reset button requests one seek, to [loopStart], and changes
    neither the loop range, the looping flag nor the bookmarks; the
    displayed time is left as it is and becomes [loopStart] with the next
    notification of the engine, which requests no further seek when
    [loopStart < loopEnd].  With a [loopStart] that is not finite the button
    does nothing. *)
Theorem reset_jumps_to_loop_start (s : VideoPlayer) (p : num) :
  (isFinite (loopStart s) = true ->
   let s1 := step EvResetClick s in
   v_currentTime (video s1) = loopStart s
   /\ seekRequests (video s1) = (seekRequests (video s) ++ [loopStart s])%list
   /\ currentTime s1 = currentTime s
   /\ loopStart s1 = loopStart s /\ loopEnd s1 = loopEnd s
   /\ isLooping s1 = isLooping s /\ steps s1 = steps s
   /\ (ltb (loopStart s) (loopEnd s) = true ->
       currentTime (step (EvTimeUpdate p) s1) = loopStart s
       /\ seekRequests (video (step (EvTimeUpdate p) s1))
          = seekRequests (video s1)))
  /\ (isFinite (loopStart s) = false -> step EvResetClick s = s).
Proof.
  assert (Hstep : step EvResetClick s = handleReset s).
  { unfold step. cbn [handle]. apply commit_unchanged;
      unfold handleReset; destruct (assign_currentTime _ _); reflexivity. }
  rewrite Hstep. unfold handleReset, assign_currentTime. split.
  - intros Hf. rewrite Hf. cbn.
    repeat split; try reflexivity.
    + destruct (commit_frame_playback
                  (setVideo
                     {| v_src := v_src (video s);
                        v_currentTime := loopStart s;
                        v_duration := v_duration (video s);
                        v_paused := v_paused (video s);
                        v_playbackRate := v_playbackRate (video s);
                        v_seeking := true;
                        seekRequests :=
                          seekRequests (video s) ++ [loopStart s] |} s)
                  (handle (EvTimeUpdate p)
                     (setVideo
                        {| v_src := v_src (video s);
                           v_currentTime := loopStart s;
                           v_duration := v_duration (video s);
                           v_paused := v_paused (video s);
                           v_playbackRate := v_playbackRate (video s);
                           v_seeking := true;
                           seekRequests :=
                             seekRequests (video s) ++ [loopStart s] |} s)))
        as (_ & _ & Hc).
      unfold step. rewrite Hc. cbn [handle].
      unfold handleTimeUpdate, engine_report. cbn.
      rewrite (ltb_not_geb _ _ H), andb_false_r. reflexivity.
    + destruct (step_timeupdate p
                  (setVideo
                     {| v_src := v_src (video s);
                        v_currentTime := loopStart s;
                        v_duration := v_duration (video s);
                        v_paused := v_paused (video s);
                        v_playbackRate := v_playbackRate (video s);
                        v_seeking := true;
                        seekRequests :=
                          seekRequests (video s) ++ [loopStart s] |} s))
        as (Hv & _).
      rewrite Hv, handleTimeUpdate_seeks. cbn.
      rewrite (ltb_not_geb _ _ H), andb_false_r. cbn.
      apply app_nil_r.
  - intros Hf. rewrite Hf. reflexivity.
Qed.

Lemma reset_jumps_to_loop_start_witness :
  let s := run [EvLoadedMetadata (Fin 20); EvTimeUpdate (Fin 5);
                EvSetLoopStart; EvTimeUpdate (Fin 12)] (mount "blob:v") in
  v_currentTime (video (step EvResetClick s)) = loopStart s
  /\ currentTime (step (EvTimeUpdate (Fin 13)) (step EvResetClick s))
     = loopStart s.
Proof.
  intros s.
  assert (Hf : isFinite (loopStart s) = true) by (vm_compute; reflexivity).
  assert (Hlt : ltb (loopStart s) (loopEnd s) = true)
    by (vm_compute; reflexivity).
  destruct (proj1 (reset_jumps_to_loop_start s (Fin 13)) Hf)
    as (A & _ & _ & _ & _ & _ & _ & B).
  split; [exact A | exact (proj1 (B Hlt))].
Defined.
